(** * CutMix augmentation and the WGAN-GP training step

    A shallow embedding of the numeric procedures of two notebooks,
    [examples/vision/ipynb/cutmix.ipynb] and
    [examples/generative/ipynb/wgan_gp.ipynb], together with the
    properties their description states about them.

    Conventions.
    - [tf.int32] tensors are integers of [Z] with the two's-complement
      wrap-around of every arithmetic operation written out ([Int32]).
    - [tf.float32] tensors are real numbers of [R]: the idealised, exact
      reading of the floating-point arithmetic.
    - Dense image tensors are nested lists (rows, columns, channels); a
      batch is a list of images.
    - A TensorFlow error (a failed argument check, operands of different
      shapes) is the result [None]. *)

From Stdlib Require Import Reals ZArith List Bool Lia Lra.
From Stdlib Require String Ascii Decimal DecimalString DecimalNat.
Import ListNotations.

(** ** 32-bit integers *)

Module Int32.

Local Open Scope Z_scope.

Definition min_int : Z := - 2 ^ 31.
Definition max_int : Z := 2 ^ 31 - 1.

(** Two's-complement reduction of an integer to the [tf.int32] range. *)
Definition wrap (z : Z) : Z := (z + 2 ^ 31) mod 2 ^ 32 - 2 ^ 31.

Definition add (a b : Z) : Z := wrap (a + b).
Definition sub (a b : Z) : Z := wrap (a - b).
Definition mul (a b : Z) : Z := wrap (a * b).

(** [a // b] on integer tensors rounds towards minus infinity, as [Z.div]
    does. *)
Definition floordiv (a b : Z) : Z := wrap (a / b).

Definition in_range (z : Z) : Prop := min_int <= z <= max_int.

(** A Python integer used as an operand of an [int32] tensor is converted
    to an [int32] constant; the conversion raises when it does not fit. *)
Definition of_python_int (z : Z) : option Z :=
  if (min_int <=? z) && (z <=? max_int) then Some z else None.

End Int32.

(** ** Scalars: casts and clipping *)

Module Scalar.

(** [tf.cast(x, tf.int32)] of a float: the fractional part is dropped
    (rounding towards zero).  Only values inside the [tf.int32] range are
    meaningful. *)
Definition cast_int32 (x : R) : Z :=
  if Rle_dec 0 x then Int_part x else (- Int_part (- x))%Z.

(** [tf.clip_by_value(t, lo, hi)]: the minimum with [hi] is taken first,
    then the maximum with [lo]. *)
Definition clip_by_value (t lo hi : Z) : Z := Z.max (Z.min t hi) lo.

End Scalar.

(** ** Errors *)

Definition obind {A B : Type} (m : option A) (k : A -> option B) : option B :=
  match m with
  | Some a => k a
  | None => None
  end.

Declare Scope err_scope.
Delimit Scope err_scope with err.
Notation "x <- m ;; k" := (obind m (fun x => k))
  (at level 61, m at next level, right associativity) : err_scope.

(** ** Dense tensors as nested lists *)

Module Tensor.

Local Open Scope err_scope.

Definition Vector : Type := list R.
Definition Image : Type := list (list (list R)).
Definition Batch : Type := list Image.

(** Combination of two lists position by position.  It fails when the
    lengths differ or when the combination of a pair of elements fails:
    operands of an elementwise operator have the same shape at every use
    in the notebooks (the broadcasting of unit dimensions that TensorFlow
    would also accept is not needed and is an error here). *)
Fixpoint zip_with {A B C : Type} (f : A -> B -> option C)
    (xs : list A) (ys : list B) : option (list C) :=
  match xs, ys with
  | [], [] => Some []
  | x :: xs', y :: ys' =>
      z <- f x y ;; zs <- zip_with f xs' ys' ;; Some (z :: zs)
  | _, _ => None
  end.

Definition elementwise1 (f : R -> R -> R) : Vector -> Vector -> option Vector :=
  zip_with (fun a b => Some (f a b)).
Definition elementwise2 (f : R -> R -> R) := zip_with (elementwise1 f).
Definition elementwise3 (f : R -> R -> R) : Image -> Image -> option Image :=
  zip_with (elementwise2 f).
Definition elementwise4 (f : R -> R -> R) : Batch -> Batch -> option Batch :=
  zip_with (elementwise3 f).

(** A scalar applied to every entry. *)
Definition scale1 (a : R) (v : Vector) : Vector := map (Rmult a) v.
Definition scale3 (a : R) (t : Image) : Image := map (map (scale1 a)) t.

(** Sums of all entries. *)
Definition reduce_sum1 (v : Vector) : R := fold_right Rplus 0%R v.
Definition reduce_sum2 (t : list Vector) : R := reduce_sum1 (map reduce_sum1 t).
Definition reduce_sum3 (t : Image) : R := reduce_sum1 (map reduce_sum2 t).

(** [tf.reduce_mean] of a vector (the mean of no entry is a NaN, outside
    the real-number reading). *)
Definition reduce_mean (v : Vector) : R := reduce_sum1 v / INR (length v).

Definition square3 (t : Image) : Image :=
  map (map (map (fun x => x * x)%R)) t.

(** Static shape of an image, read off its first row and first pixel. *)
Definition height (t : Image) : Z := Z.of_nat (length t).
Definition width (t : Image) : Z := Z.of_nat (length (hd [] t)).
Definition depth (t : Image) : nat := length (hd [] (hd [] t)).

(** A row of [w] pixels of [d] channels, and an image of [h] such rows. *)
Definition row_shape (w d : nat) (row : list (list R)) : Prop :=
  length row = w /\ Forall (fun px => length px = d) row.

Definition has_shape (h w d : nat) (t : Image) : Prop :=
  length t = h /\ Forall (row_shape w d) t.

(** The channel [k] of the pixel at row [r] and column [c]. *)
Definition pixel (t : Image) (r c k : nat) : R :=
  nth k (nth c (nth r t []) []) 0%R.

(** [tf.slice] along one axis. *)
Definition slice {A : Type} (start size : Z) (l : list A) : list A :=
  firstn (Z.to_nat size) (skipn (Z.to_nat start) l).

(** [tf.image.crop_to_bounding_box], with its argument checks. *)
Definition crop_to_bounding_box (image : Image)
    (offset_height offset_width target_height target_width : Z)
    : option Image :=
  if ((0 <=? offset_width) && (0 <=? offset_height) &&
      (0 <? target_width) && (0 <? target_height) &&
      (Int32.add target_width offset_width <=? width image) &&
      (Int32.add target_height offset_height <=? height image))%Z
  then Some (map (slice offset_width target_width)
               (slice offset_height target_height image))
  else None.

Definition zero_pixel (d : nat) : list R := repeat 0%R d.

Definition pad_row (d left right : nat) (row : list (list R))
    : list (list R) :=
  repeat (zero_pixel d) left ++ row ++ repeat (zero_pixel d) right.

(** [tf.pad] of an image with zeros on its two spatial axes. *)
Definition pad (image : Image) (top bottom left right : nat) : Image :=
  let d := depth image in
  let w := (left + Z.to_nat (width image) + right)%nat in
  repeat (repeat (zero_pixel d) w) top
    ++ map (pad_row d left right) image
    ++ repeat (repeat (zero_pixel d) w) bottom.

(** [tf.image.pad_to_bounding_box], with its argument checks. *)
Definition pad_to_bounding_box (image : Image)
    (offset_height offset_width target_height target_width : Z)
    : option Image :=
  let after_padding_width :=
    Int32.sub (Int32.sub target_width offset_width) (width image) in
  let after_padding_height :=
    Int32.sub (Int32.sub target_height offset_height) (height image) in
  if ((0 <=? offset_height) && (0 <=? offset_width) &&
      (0 <=? after_padding_width) && (0 <=? after_padding_height))%Z
  then Some (pad image (Z.to_nat offset_height)
               (Z.to_nat after_padding_height)
               (Z.to_nat offset_width) (Z.to_nat after_padding_width))
  else None.

End Tensor.

(** ** CutMix *)

Module CutMix.

Import Scalar Tensor.

Local Open Scope err_scope.

Section WithImageSize.

(** The notebook fixes [IMG_SIZE = 32]; the definitions are written for any
    side length. *)
Variable IMG_SIZE : Z.

(** [cut_rat] and the truncated side [cut_w] (equal to [cut_h]) of
    [get_box]. *)
Definition cut_rat (lambda_value : R) : R := sqrt (1 - lambda_value).

Definition cut_size (lambda_value : R) : Z :=
  cast_int32 (IZR IMG_SIZE * cut_rat lambda_value).

(** [get_box].  The two draws of [tf.random.uniform((1,), minval=0,
    maxval=IMG_SIZE, dtype=tf.int32)] are the arguments [cut_x] and
    [cut_y]; the result is [(boundaryx1, boundaryy1, target_h,
    target_w)]. *)
Definition get_box (lambda_value : R) (cut_x cut_y : Z) : Z * Z * Z * Z :=
  let cut_w := cut_size lambda_value in
  let cut_h := cut_size lambda_value in
  let boundaryx1 :=
    clip_by_value (Int32.sub cut_x (Int32.floordiv cut_w 2)) 0 IMG_SIZE in
  let boundaryy1 :=
    clip_by_value (Int32.sub cut_y (Int32.floordiv cut_h 2)) 0 IMG_SIZE in
  let bbx2 :=
    clip_by_value (Int32.add cut_x (Int32.floordiv cut_w 2)) 0 IMG_SIZE in
  let bby2 :=
    clip_by_value (Int32.add cut_y (Int32.floordiv cut_h 2)) 0 IMG_SIZE in
  let target_h := Int32.sub bby2 boundaryy1 in
  let target_h :=
    if (target_h =? 0)%Z then Int32.add target_h 1 else target_h in
  let target_w := Int32.sub bbx2 boundaryx1 in
  let target_w :=
    if (target_w =? 0)%Z then Int32.add target_w 1 else target_w in
  (boundaryx1, boundaryy1, target_h, target_w).

(** The outcomes of the random draws of one call of [cutmix]: the two
    gamma samples of [sample_beta_distribution] and the two uniform centre
    coordinates of [get_box]. *)
Record draws : Type := {
  gamma_1_sample : R;
  gamma_2_sample : R;
  cut_x : Z;
  cut_y : Z
}.

(** [sample_beta_distribution(1, concentration_0, concentration_1)]: the
    first gamma sample has shape [concentration_1], the second
    [concentration_0]. *)
Definition sample_beta_distribution (rnd : draws)
    (concentration_0 concentration_1 : R) : R :=
  (gamma_1_sample rnd / (gamma_1_sample rnd + gamma_2_sample rnd))%R.

Definition Label : Type := Vector.

(** [cutmix]. *)
Definition cutmix (rnd : draws) (train_ds_one train_ds_two : Image * Label)
    : option (Image * Label) :=
  let '(image1, label1) := train_ds_one in
  let '(image2, label2) := train_ds_two in
  let alpha := (1 / 4)%R in
  let beta := (1 / 4)%R in
  let lambda_value := sample_beta_distribution rnd alpha beta in
  let '(boundaryx1, boundaryy1, target_h, target_w) :=
    get_box lambda_value (cut_x rnd) (cut_y rnd) in
  crop2 <- crop_to_bounding_box image2 boundaryy1 boundaryx1
             target_h target_w ;;
  image2 <- pad_to_bounding_box crop2 boundaryy1 boundaryx1
              IMG_SIZE IMG_SIZE ;;
  crop1 <- crop_to_bounding_box image1 boundaryy1 boundaryx1
             target_h target_w ;;
  img1 <- pad_to_bounding_box crop1 boundaryy1 boundaryx1
            IMG_SIZE IMG_SIZE ;;
  image1 <- elementwise3 Rminus image1 img1 ;;
  image <- elementwise3 Rplus image1 image2 ;;
  (* the quotient of two integer tensors is taken in floating point *)
  area <- Int32.of_python_int (IMG_SIZE * IMG_SIZE) ;;
  let lambda_value :=
    (1 - IZR (Int32.mul target_w target_h) / IZR area)%R in
  label <- elementwise1 Rplus (scale1 lambda_value label1)
             (scale1 (1 - lambda_value) label2) ;;
  Some (image, label).

(** Outcomes the random sources deliver: non-negative gamma samples that
    are not both zero, and centre coordinates in [0, IMG_SIZE). *)
Definition valid_draws (rnd : draws) : Prop :=
  (0 <= gamma_1_sample rnd)%R /\ (0 <= gamma_2_sample rnd)%R /\
  (0 < gamma_1_sample rnd + gamma_2_sample rnd)%R /\
  (0 <= cut_x rnd < IMG_SIZE)%Z /\ (0 <= cut_y rnd < IMG_SIZE)%Z.

(** The box drawn by one call of [cutmix]. *)
Definition sampled_box (rnd : draws) : Z * Z * Z * Z :=
  get_box (sample_beta_distribution rnd (1 / 4) (1 / 4))
    (cut_x rnd) (cut_y rnd).

End WithImageSize.

(** Whether row [r] and column [j] lie inside the box
    [(x, y, height, width)]. *)
Definition inside_box (box : Z * Z * Z * Z) (r j : nat) : bool :=
  let '(x, y, height, width) := box in
  ((y <=? Z.of_nat r) && (Z.of_nat r <? y + height) &&
   (x <=? Z.of_nat j) && (Z.of_nat j <? x + width))%Z.

(** The convex combination of two label vectors with weight [ratio] on the
    first. *)
Definition blend (ratio : R) (label1 label2 : Label) : Label :=
  map (fun ab => (ratio * fst ab + (1 - ratio) * snd ab)%R)
    (combine label1 label2).

(** The side length of the notebook. *)
Definition IMG_SIZE : Z := 32.

(** Sample inputs: images of the notebook's size with three channels and
    one value everywhere, two one-hot labels over the ten classes, and two
    outcomes of the random draws. *)
Definition constant_image (v : R) : Image :=
  repeat (repeat (repeat v 3) 32) 32.

Definition one_hot (class : nat) : Label :=
  map (fun i => if Nat.eqb i class then 1%R else 0%R) (seq 0 10).

Definition sample_draws : draws :=
  {| gamma_1_sample := 1; gamma_2_sample := 1; cut_x := 16; cut_y := 16 |}.

Definition full_box_draws : draws :=
  {| gamma_1_sample := 0; gamma_2_sample := 1; cut_x := 16; cut_y := 16 |}.

End CutMix.

(** ** WGAN-GP *)

Module WGAN_GP.

Import Tensor.

(** The collaborators the notebook takes from the framework: the two
    networks with their trainable variables, automatic differentiation,
    the optimizers and the random source. *)
Class Backend : Type := {
  (** trainable variables of the discriminator and of the generator *)
  DVars : Type;
  GVars : Type;
  (** gradients with respect to them *)
  DGrads : Type;
  GGrads : Type;
  (** slot variables of the two optimizers *)
  DOpt : Type;
  GOpt : Type;
  (** state of the random source; one standard-normal draw *)
  Rng : Type;
  standard_normal : Rng -> R * Rng;
  (** dropout masks of one training-mode call of the discriminator *)
  Mask : Type;
  dropout_masks : Rng -> Mask * Rng;
  (** forward passes with [training=True]: latent vectors to images, and
      images to one score per batch element (the unit axis of the scores
      is dropped).  The moving statistics that the batch normalisation
      layers of the generator write in such a call are read by no
      computation of a training step and are left out. *)
  generator : GVars -> list Vector -> Batch;
  discriminator : DVars -> Mask -> Batch -> Vector;
  (** [tape.gradient(pred, [x])[0]]: the gradient of the scores with
      respect to a watched input *)
  input_gradient : (Batch -> Vector) -> Batch -> Batch;
  (** [tape.gradient(loss, trainable_variables)]: the gradient, at the
      current variables, of the loss recorded on the tape as a function of
      the variables *)
  d_gradient : (DVars -> option R) -> DVars -> DGrads;
  g_gradient : (GVars -> option R) -> GVars -> GGrads;
  (** [optimizer.apply_gradients(zip(gradients, variables))] *)
  d_apply_gradients : DOpt -> DGrads -> DVars -> DVars * DOpt;
  g_apply_gradients : GOpt -> GGrads -> GVars -> GVars * GOpt
}.

(** The loss functions of the notebook. *)
Definition discriminator_loss (real_img fake_img : Vector) : R :=
  let real_loss := reduce_mean real_img in
  let fake_loss := reduce_mean fake_img in
  (fake_loss - real_loss)%R.

Definition generator_loss (fake_img : Vector) : R :=
  (- reduce_mean fake_img)%R.

(** The attributes set by [WGAN.__init__] and [WGAN.compile]; the networks
    and the optimizers live in the backend and in the state below. *)
Record WGAN : Type := {
  latent_dim : nat;
  d_steps : nat;
  gp_weight : R;
  d_loss_fn : Vector -> Vector -> R;
  g_loss_fn : Vector -> R
}.

(** [WGAN(..., latent_dim=noise_dim, discriminator_extra_steps=3)] compiled
    with the two loss functions; [gp_weight] keeps its default. *)
Definition wgan : WGAN := {|
  latent_dim := 128;
  d_steps := 3;
  gp_weight := 10;
  d_loss_fn := discriminator_loss;
  g_loss_fn := generator_loss
|}.

(** What [fit] may hand to [train_step]: a tensor, which is an image
    batch or something else (labels), or a tuple of tensors. *)
Inductive tensor : Type :=
| Images (x : Batch)
| Labels (y : list Z).

Inductive data : Type :=
| Bare (t : tensor)
| Tuple (items : list tensor).

Definition as_images (t : tensor) : option Batch :=
  match t with
  | Images x => Some x
  | Labels _ => None
  end.

(** [alpha * diff] for [alpha] of shape [batch, 1, 1, 1]: the coefficient
    of a batch element multiplies every entry of its image. *)
Definition broadcast_mul (alpha diff : Batch) : option Batch :=
  zip_with (fun a x =>
              match a with
              | [[[c]]] => Some (scale3 c x)
              | _ => None
              end) alpha diff.

(** A batch of [b] images of [h] rows, [w] columns and [c] channels. *)
Definition batch_shape (b h w c : nat) (x : Batch) : Prop :=
  length x = b /\ Forall (has_shape h w c) x.

(** The Euclidean norm of an image flattened to one vector. *)
Definition l2_norm (g : Image) : R :=
  sqrt (reduce_sum1 (map (fun v => v * v)%R (concat (concat g)))).

Section Model.

Context {backend : Backend}.

(** The mutable state a training step works on. *)
Record World : Type := {
  d_vars : DVars;
  g_vars : GVars;
  d_opt : DOpt;
  g_opt : GOpt;
  rng : Rng
}.

Definition set_d_vars (v : DVars) (w : World) : World :=
  {| d_vars := v; g_vars := g_vars w; d_opt := d_opt w; g_opt := g_opt w;
     rng := rng w |}.
Definition set_g_vars (v : GVars) (w : World) : World :=
  {| d_vars := d_vars w; g_vars := v; d_opt := d_opt w; g_opt := g_opt w;
     rng := rng w |}.
Definition set_d_opt (o : DOpt) (w : World) : World :=
  {| d_vars := d_vars w; g_vars := g_vars w; d_opt := o; g_opt := g_opt w;
     rng := rng w |}.
Definition set_g_opt (o : GOpt) (w : World) : World :=
  {| d_vars := d_vars w; g_vars := g_vars w; d_opt := d_opt w; g_opt := o;
     rng := rng w |}.
Definition set_rng (r : Rng) (w : World) : World :=
  {| d_vars := d_vars w; g_vars := g_vars w; d_opt := d_opt w;
     g_opt := g_opt w; rng := r |}.

(** Computations that read and write the state and may raise. *)
Definition M (A : Type) : Type := World -> option (A * World).

Definition ret {A : Type} (a : A) : M A := fun w => Some (a, w).

Definition bind {A B : Type} (m : M A) (k : A -> M B) : M B :=
  fun w =>
    match m w with
    | Some (a, w') => k a w'
    | None => None
    end.

Definition lift {A : Type} (o : option A) : M A :=
  fun w =>
    match o with
    | Some a => Some (a, w)
    | None => None
    end.

Declare Scope step_scope.
Delimit Scope step_scope with step.
Notation "x <- m ;; k" := (bind m (fun x => k))
  (at level 61, m at next level, right associativity) : step_scope.
Notation "m ;;; k" := (bind m (fun _ => k))
  (at level 61, right associativity) : step_scope.
Local Open Scope step_scope.

(** [tf.random.normal]: standard-normal draws scaled by [stddev] and
    shifted by [mean], in row-major order. *)
Definition normal_scalar (mean stddev : R) : M R :=
  fun w =>
    let (z, r) := standard_normal (rng w) in
    Some ((z * stddev + mean)%R, set_rng r w).

Fixpoint replicate {A : Type} (n : nat) (m : M A) : M (list A) :=
  match n with
  | O => ret []
  | S n' => x <- m ;; xs <- replicate n' m ;; ret (x :: xs)
  end.

Definition random_normal2 (shape : nat * nat) (mean stddev : R)
    : M (list Vector) :=
  let '(b, l) := shape in
  replicate b (replicate l (normal_scalar mean stddev)).

Definition random_normal4 (shape : nat * nat * nat * nat)
    (mean stddev : R) : M Batch :=
  let '(b, h, w, c) := shape in
  replicate b (replicate h (replicate w
    (replicate c (normal_scalar mean stddev)))).

(** [self.generator(z, training=True)]. *)
Definition call_generator (z : list Vector) : M Batch :=
  fun w => Some (generator (g_vars w) z, w).

(** [self.discriminator(x, training=True)]: the dropout layers draw their
    masks. *)
Definition call_discriminator (x : Batch) : M Vector :=
  fun w =>
    let (m, r) := dropout_masks (rng w) in
    Some (discriminator (d_vars w) m x, set_rng r w).

(** The same call under a tape that watches [x]: the scores, and the
    scores as a function of the watched input. *)
Definition watched_discriminator (x : Batch)
    : M (Vector * (Batch -> Vector)) :=
  fun w =>
    let (m, r) := dropout_masks (rng w) in
    Some ((discriminator (d_vars w) m x, discriminator (d_vars w) m),
          set_rng r w).

(** [with tf.GradientTape() as tape: body] followed by [tape.gradient(loss,
    variables)]: the body runs once; the loss it recorded, as a function of
    the variables, is the body run from the same state with the variables
    replaced. *)
Definition gradient_tape_d (body : M R) : M (R * DGrads) :=
  fun w =>
    match body w with
    | Some (loss, w') =>
        Some ((loss,
               d_gradient (fun v => option_map fst (body (set_d_vars v w)))
                 (d_vars w)), w')
    | None => None
    end.

Definition gradient_tape_g (body : M R) : M (R * GGrads) :=
  fun w =>
    match body w with
    | Some (loss, w') =>
        Some ((loss,
               g_gradient (fun v => option_map fst (body (set_g_vars v w)))
                 (g_vars w)), w')
    | None => None
    end.

Definition apply_gradients_d (g : DGrads) : M unit :=
  fun w =>
    let (v, o) := d_apply_gradients (d_opt w) g (d_vars w) in
    Some (tt, set_d_opt o (set_d_vars v w)).

Definition apply_gradients_g (g : GGrads) : M unit :=
  fun w =>
    let (v, o) := g_apply_gradients (g_opt w) g (g_vars w) in
    Some (tt, set_g_opt o (set_g_vars v w)).

(** [for i in range(n): body], threading the local variables [s]. *)
Fixpoint for_each {I S : Type} (items : list I) (body : I -> S -> M S)
    (s : S) : M S :=
  match items with
  | [] => ret s
  | i :: rest => s' <- body i s ;; for_each rest body s'
  end.

Definition for_range {S : Type} (n : nat) (body : nat -> S -> M S)
    (s : S) : M S :=
  for_each (seq 0 n) body s.

(** [WGAN.gradient_penalty]. *)
Definition gradient_penalty (self : WGAN) (batch_size : nat)
    (real_images fake_images : Batch) : M R :=
  alpha <- random_normal4 (batch_size, 1, 1, 1)%nat 0 1 ;;
  diff <- lift (elementwise4 Rminus fake_images real_images) ;;
  scaled <- lift (broadcast_mul alpha diff) ;;
  interpolated <- lift (elementwise4 Rplus real_images scaled) ;;
  tape <- watched_discriminator interpolated ;;
  let '(pred, gp_tape) := tape in
  let grads := input_gradient gp_tape interpolated in
  let norm := map (fun g => sqrt (reduce_sum3 (square3 g))) grads in
  let gp := reduce_mean (map (fun v => (v - 1) ^ 2)%R norm) in
  ret gp.

(** [WGAN.train_step].  The local [d_loss] is unbound until the loop body
    has run; the result is the pair of the dictionary entries ["d_loss"]
    and ["g_loss"]. *)
Definition train_step (self : WGAN) (real_images : data) : M (R * R) :=
  real_images <-
    lift (match real_images with
          | Tuple items => nth_error items 0
          | Bare t => Some t
          end) ;;
  real_images <- lift (as_images real_images) ;;
  let batch_size := length real_images in
  d_loss <-
    for_range (d_steps self)
      (fun i (d_loss : option R) =>
         random_latent_vectors <-
           random_normal2 (batch_size, latent_dim self) 0 1 ;;
         tape <-
           gradient_tape_d
             (fake_images <- call_generator random_latent_vectors ;;
              fake_logits <- call_discriminator fake_images ;;
              real_logits <- call_discriminator real_images ;;
              let d_cost := d_loss_fn self real_logits fake_logits in
              gp <- gradient_penalty self batch_size real_images
                      fake_images ;;
              ret (d_cost + gp * gp_weight self)%R) ;;
         let '(d_loss, d_gradient) := tape in
         apply_gradients_d d_gradient ;;;
         ret (Some d_loss))
      None ;;
  random_latent_vectors <-
    random_normal2 (batch_size, latent_dim self) 0 1 ;;
  tape <-
    gradient_tape_g
      (generated_images <- call_generator random_latent_vectors ;;
       gen_img_logits <- call_discriminator generated_images ;;
       ret (g_loss_fn self gen_img_logits)) ;;
  let '(g_loss, gen_gradient) := tape in
  apply_gradients_g gen_gradient ;;;
  d_loss <- lift d_loss ;;
  ret (d_loss, g_loss).

(** *** The two phases of a training step, as the description words them *)

(** The first [n] standard-normal draws from a state of the random source,
    and the state they leave. *)
Fixpoint normal_draws (n : nat) (r : Rng) : list R * Rng :=
  match n with
  | O => ([], r)
  | S n' =>
      let (z, r1) := standard_normal r in
      let (zs, r2) := normal_draws n' r1 in
      (z :: zs, r2)
  end.

(** The penalty of a batch of gradients: the mean over the batch of the
    squared distance of the Euclidean norm from 1. *)
Definition penalty_of (grads : Batch) : R :=
  reduce_mean (map (fun g => ((l2_norm g - 1) ^ 2)%R) grads).

(** Base critic loss: mean score of the fake batch minus mean score of the
    real batch. *)
Definition critic_loss (real_score fake_score : Vector) : R :=
  (reduce_mean fake_score - reduce_mean real_score)%R.

(** Discriminator phase: fresh latent noise, fake images, scores of the
    real and of the fake batch, base critic loss plus weighted gradient
    penalty, one optimizer update of the discriminator on that sum. *)
Definition discriminator_phase (self : WGAN) (real : Batch) : M R :=
  noise <- random_normal2 (length real, latent_dim self) 0 1 ;;
  tape <-
    gradient_tape_d
      (fake <- call_generator noise ;;
       fake_score <- call_discriminator fake ;;
       real_score <- call_discriminator real ;;
       penalty <- gradient_penalty self (length real) real fake ;;
       ret (critic_loss real_score fake_score
            + penalty * gp_weight self)%R) ;;
  apply_gradients_d (snd tape) ;;;
  ret (fst tape).

(** Generator phase: fresh latent noise, fake images, their scores, the
    negated mean score, one optimizer update of the generator. *)
Definition generator_phase (self : WGAN) (batch_size : nat) : M R :=
  noise <- random_normal2 (batch_size, latent_dim self) 0 1 ;;
  tape <-
    gradient_tape_g
      (fake <- call_generator noise ;;
       fake_score <- call_discriminator fake ;;
       ret (- reduce_mean fake_score)%R) ;;
  apply_gradients_g (snd tape) ;;;
  ret (fst tape).

(** A computation that always returns. *)
Definition total {A : Type} (m : M A) : Prop :=
  forall w, exists a w', m w = Some (a, w').

(** Two states with the same trainable variables of both networks. *)
Definition same_variables (w w' : World) : Prop :=
  d_vars w' = d_vars w /\ g_vars w' = g_vars w.

(** Two states that differ at most in the random source. *)
Definition same_model (w w' : World) : Prop :=
  same_variables w w' /\ d_opt w' = d_opt w /\ g_opt w' = g_opt w.

(** A computation whose every returning run relates the state before to
    the state after by [P]. *)
Definition preserves {A : Type} (P : World -> World -> Prop) (m : M A)
    : Prop :=
  forall w a w', m w = Some (a, w') -> P w w'.

(** An optimizer that leaves the variables it is given as they are. *)
Definition inert_optimizers : Prop :=
  (forall o g v, fst (d_apply_gradients o g v) = v) /\
  (forall o g v, fst (g_apply_gradients o g v) = v).

(** The generator returns one image of a fixed shape per latent vector. *)
Definition generator_shape (h w c : nat) : Prop :=
  forall (gv : GVars) (z : list Vector),
    batch_shape (length z) h w c (generator gv z).

(** *** One update of each network, in terms of the collaborators alone

    The description of a training step, written over the networks,
    automatic differentiation, the optimizers and the random source
    directly: none of the definitions that embed the code above takes part
    in it. *)

(** Latent noise: [b] vectors of [l] standard-normal draws each, and the
    state of the random source after them. *)
Fixpoint normal_rows (b l : nat) (r : Rng) : list Vector * Rng :=
  match b with
  | O => ([], r)
  | S b' =>
      let (row, r1) := normal_draws l r in
      let (rows, r2) := normal_rows b' l r1 in
      (row :: rows, r2)
  end.

(** [x] is the batch between [real] and [fake] with the coefficient of
    each batch element: [real + alpha * (fake - real)] at every entry. *)
Definition interpolation (b h wd c : nat) (alphas : list R)
    (real fake x : Batch) : Prop :=
  batch_shape b h wd c x /\
  forall i r j k,
    (i < b)%nat -> (r < h)%nat -> (j < wd)%nat -> (k < c)%nat ->
    pixel (nth i x []) r j k =
    (pixel (nth i real []) r j k +
     nth i alphas 0 *
       (pixel (nth i fake []) r j k - pixel (nth i real []) r j k))%R.

(** One discriminator update from the state [w]: new latent noise, the
    fake batch of the generator, the scores of the fake and of the real
    batch, the coefficients and the interpolated batch of the penalty;
    [d_loss] is the base loss plus [gp_weight] times the penalty of the
    input gradient at the interpolated batch, the gradient is the one of
    this sum as a function of the discriminator's variables, and [w'] is
    [w] after one application of the discriminator's optimizer to it. *)
Definition discriminator_update (loss_fn : Vector -> Vector -> R)
    (self : WGAN) (h wd c : nat) (real : Batch) (w : World) (d_loss : R)
    (w' : World) : Prop :=
  let b := length real in
  let noise := normal_rows b (latent_dim self) (rng w) in
  let fake := generator (g_vars w) (fst noise) in
  let fake_masks := dropout_masks (snd noise) in
  let real_masks := dropout_masks (snd fake_masks) in
  let alpha := normal_draws b (snd real_masks) in
  let penalty_masks := dropout_masks (snd alpha) in
  exists (interpolated : Batch) (loss_of : DVars -> option R),
    interpolation b h wd c (fst alpha) real fake interpolated /\
    (forall v,
       loss_of v =
       Some (loss_fn (discriminator v (fst real_masks) real)
               (discriminator v (fst fake_masks) fake)
             + penalty_of
                 (input_gradient (discriminator v (fst penalty_masks))
                    interpolated)
               * gp_weight self)%R) /\
    loss_of (d_vars w) = Some d_loss /\
    let updated :=
      d_apply_gradients (d_opt w) (d_gradient loss_of (d_vars w))
        (d_vars w) in
    w' = {| d_vars := fst updated; g_vars := g_vars w;
            d_opt := snd updated; g_opt := g_opt w;
            rng := snd penalty_masks |}.

(** One generator update from the state [w]: new latent noise, the fake
    batch and its scores; [g_loss] is the loss of the scores, the gradient
    is the one of this loss as a function of the generator's variables,
    and [w'] is [w] after one application of the generator's optimizer. *)
Definition generator_update (loss_fn : Vector -> R) (self : WGAN)
    (batch_size : nat) (w : World) (g_loss : R) (w' : World) : Prop :=
  let noise := normal_rows batch_size (latent_dim self) (rng w) in
  let masks := dropout_masks (snd noise) in
  exists loss_of : GVars -> option R,
    (forall v,
       loss_of v =
       Some (loss_fn
               (discriminator (d_vars w) (fst masks)
                  (generator v (fst noise))))) /\
    loss_of (g_vars w) = Some g_loss /\
    let updated :=
      g_apply_gradients (g_opt w) (g_gradient loss_of (g_vars w))
        (g_vars w) in
    w' = {| d_vars := d_vars w; g_vars := fst updated;
            d_opt := d_opt w; g_opt := snd updated;
            rng := snd masks |}.

(** [n] discriminator updates in a row, each from the state the previous
    one left; [d_loss] is the loss of the last one, or [last] when there
    is none. *)
Fixpoint discriminator_updates (loss_fn : Vector -> Vector -> R)
    (self : WGAN) (h wd c : nat) (real : Batch) (n : nat) (w : World)
    (last d_loss : option R) (w' : World) : Prop :=
  match n with
  | O => d_loss = last /\ w' = w
  | S n' =>
      exists d1 w1,
        discriminator_update loss_fn self h wd c real w d1 w1 /\
        discriminator_updates loss_fn self h wd c real n' w1 (Some d1)
          d_loss w'
  end.

End Model.

(** *** A small backend

    A critic with one variable, a bias added to the sum of the pixels of an
    image, and a generator with one variable, the single pixel of the 1x1
    images it returns.  The gradient of a critic score with respect to its
    input is 1 at every entry; the critic loss does not depend on the bias
    (gradient 0) and the generator loss falls with the generator's pixel
    (gradient -1).  The optimizers take plain gradient steps; the random
    source counts its draws. *)
Definition toy : Backend := {|
  DVars := R;
  GVars := R;
  DGrads := R;
  GGrads := R;
  DOpt := unit;
  GOpt := unit;
  Rng := nat;
  standard_normal := fun n => (INR n, S n);
  Mask := unit;
  dropout_masks := fun n => (tt, S n);
  generator := fun gv z => map (fun _ => [[[gv]]]) z;
  discriminator := fun dv _ x => map (fun img => (dv + reduce_sum3 img)%R) x;
  input_gradient := fun _ x => map (map (map (map (fun _ => 1%R)))) x;
  d_gradient := fun _ _ => 0%R;
  g_gradient := fun _ _ => (- 1)%R;
  d_apply_gradients := fun o g v => ((v - g / 10)%R, o);
  g_apply_gradients := fun o g v => ((v - g / 10)%R, o)
|}.

(** The same backend with optimizers that do nothing. *)
Definition frozen_toy : Backend := {|
  DVars := R;
  GVars := R;
  DGrads := R;
  GGrads := R;
  DOpt := unit;
  GOpt := unit;
  Rng := nat;
  standard_normal := fun n => (INR n, S n);
  Mask := unit;
  dropout_masks := fun n => (tt, S n);
  generator := fun gv z => map (fun _ => [[[gv]]]) z;
  discriminator := fun dv _ x => map (fun img => (dv + reduce_sum3 img)%R) x;
  input_gradient := fun _ x => map (map (map (map (fun _ => 1%R)))) x;
  d_gradient := fun _ _ => 0%R;
  g_gradient := fun _ _ => (- 1)%R;
  d_apply_gradients := fun o _ v => (v, o);
  g_apply_gradients := fun o _ v => (v, o)
|}.

Definition frozen_world : @World frozen_toy :=
  @Build_World frozen_toy 0%R 0%R tt tt 0%nat.

Definition toy_world : @World toy :=
  @Build_World toy 0%R 0%R tt tt 0%nat.

(** Two real 1x1 images and two generated ones. *)
Definition toy_real : Batch := [[[[1%R]]]; [[[2%R]]]].
Definition toy_fake : Batch := [[[[0%R]]]; [[[0%R]]]].


End WGAN_GP.

(** ** Further sample inputs *)

Module Samples.

Import CutMix.

(** A draw with mixing ratio 1: nothing is to be cut. *)
Definition degenerate_draws : draws :=
  {| gamma_1_sample := 1; gamma_2_sample := 0; cut_x := 7; cut_y := 30 |}.

End Samples.

(** ** The rest of the WGAN-GP training loop *)

Module WGAN_More.

Import Stdlib.Strings.String.
Import Tensor WGAN_GP.

(** The pixel normalisation applied to the training images,
    [(train_images - 127.5) / 127.5], and the rescaling [GANMonitor]
    applies to generated images, [(generated_images * 127.5) + 127.5]. *)
Definition normalize (x : R) : R := ((x - 127.5) / 127.5)%R.
Definition denormalize (y : R) : R := (y * 127.5 + 127.5)%R.

(** A function applied to every entry of a batch. *)
Definition map4 (f : R -> R) (x : Batch) : Batch :=
  map (map (map (map f))) x.

(** [str(n)] of a non-negative integer. *)
Definition decimal (n : nat) : String.string :=
  DecimalString.NilEmpty.string_of_uint (Nat.to_uint n).

(** ["generated_img_{i}_{epoch}.png".format(i=i, epoch=epoch)]. *)
Definition generated_img_name (i epoch : nat) : String.string :=
  String.append "generated_img_"%string
    (String.append (decimal i)
       (String.append "_"%string
          (String.append (decimal epoch) ".png"%string))).

(** Strings of decimal digits. *)
Definition is_digit (c : Ascii.ascii) : bool :=
  (48 <=? Ascii.nat_of_ascii c)%nat && (Ascii.nat_of_ascii c <=? 57)%nat.

Fixpoint digits (s : String.string) : Prop :=
  match s with
  | String.EmptyString => True
  | String.String c s' => is_digit c = true /\ digits s'
  end.

(** The attributes set by [GANMonitor.__init__]. *)
Record GANMonitor : Type := {
  num_img : nat;
  monitor_latent_dim : nat
}.

(** [GANMonitor(num_img=3, latent_dim=noise_dim)]. *)
Definition cbk : GANMonitor := {| num_img := 3; monitor_latent_dim := 128 |}.

Section Model.

Context {backend : Backend}.

(** [n] applications of the discriminator's optimizer in a row lead from
    the variables and slots [(v, o)] to [(v', o')]. *)
Fixpoint d_updated (n : nat) (v : DVars) (o : DOpt) (v' : DVars)
    (o' : DOpt) : Prop :=
  match n with
  | O => v' = v /\ o' = o
  | S n' =>
      exists g,
        d_updated n' (fst (d_apply_gradients o g v))
          (snd (d_apply_gradients o g v)) v' o'
  end.

Fixpoint g_updated (n : nat) (v : GVars) (o : GOpt) (v' : GVars)
    (o' : GOpt) : Prop :=
  match n with
  | O => v' = v /\ o' = o
  | S n' =>
      exists g,
        g_updated n' (fst (g_apply_gradients o g v))
          (snd (g_apply_gradients o g v)) v' o'
  end.

(** The state [w'] comes from [w] by [nd] updates of the discriminator and
    [ng] updates of the generator. *)
Definition updates (nd ng : nat) (w w' : World) : Prop :=
  d_updated nd (d_vars w) (d_opt w) (d_vars w') (d_opt w') /\
  g_updated ng (g_vars w) (g_opt w) (g_vars w') (g_opt w').

(** Every returning run of [m] makes [nd] and [ng] such updates. *)
Definition runs {A : Type} (nd ng : nat) (m : M A) : Prop :=
  forall w a w', m w = Some (a, w') -> updates nd ng w w'.

(** *** [GANMonitor.on_epoch_end] *)

(** The generator called without [training=True] (its batch
    normalisation layers then use their moving statistics, which are not
    part of the state here), the conversion of an array to an image, and
    the files written, in order, as the result. *)
Variable generator_inference : GVars -> list Vector -> Batch.
Variable PNG : Type.
Variable array_to_img : Image -> PNG.

Definition on_epoch_end (self : GANMonitor) (epoch : nat)
    : M (list (String.string * PNG)) :=
  bind (random_normal2 (num_img self, monitor_latent_dim self) 0 1)
    (fun random_latent_vectors =>
  bind (fun w => Some (generator_inference (g_vars w)
                         random_latent_vectors, w))
    (fun generated_images =>
  let generated_images := map4 denormalize generated_images in
  for_range (num_img self)
    (fun i saved =>
       bind (lift (nth_error generated_images i)) (fun img =>
       let img := array_to_img img in
       ret (saved ++ [(generated_img_name i epoch, img)])))
    [])).

End Model.

End WGAN_More.

(** ** Network architectures as shapes

    A Keras layer is read through the shape of its output; building a
    model is a computation that collects the layers it calls and raises
    when a layer rejects the shape it is given. *)

Module Keras.

Import Stdlib.Strings.String.
Import Stdlib.Lists.List.
Import ListNotations.

(** The shape of a symbolic tensor, without the batch axis. *)
Definition shape : Type := list nat.

Inductive padding : Type := Same | Valid.

Inductive layer : Type :=
| Conv2D (filters : nat) (kernel_size strides : nat * nat) (pad : padding)
    (use_bias : bool)
| BatchNormalization
| Activation (name : string)
| LeakyReLU (alpha : R)
| Dropout (rate : R)
| ZeroPadding2D (amount : nat * nat)
| Cropping2D (amount : nat * nat)
| UpSampling2D (size : nat * nat)
| AveragePooling2D (pool_size : nat)
| Flatten
| Reshape (target : shape)
| Dense (units : nat) (use_bias : bool) (activation : option string)
| Add.

(** Quotient rounded up. *)
Definition cdiv (a b : nat) : nat := (a + b - 1) / b.

(** Output length of a convolution or pooling window along one axis. *)
Definition window (pad : padding) (size kernel stride : nat) : option nat :=
  if (stride =? 0)%nat then None
  else
    match pad with
    | Same => Some (cdiv size stride)
    | Valid =>
        if (size <? kernel)%nat then None
        else Some ((size - kernel) / stride + 1)%nat
    end.

Definition product (s : shape) : nat := fold_right Nat.mul 1%nat s.

(** The shape a layer returns on an input of shape [s]; [Add] takes its
    two inputs through [add] below. *)
Definition output_shape (l : layer) (s : shape) : option shape :=
  match l, s with
  | Conv2D filters (kh, kw) (sh, sw) pad _, [h; w; _] =>
      match window pad h kh sh, window pad w kw sw with
      | Some h', Some w' => Some [h'; w'; filters]
      | _, _ => None
      end
  | BatchNormalization, _ => Some s
  | Activation _, _ => Some s
  | LeakyReLU _, _ => Some s
  | Dropout _, _ => Some s
  | ZeroPadding2D (a, b), [h; w; c] => Some [h + 2 * a; w + 2 * b; c]%nat
  | Cropping2D (a, b), [h; w; c] =>
      if ((2 * a <? h) && (2 * b <? w))%nat
      then Some [h - 2 * a; w - 2 * b; c]%nat else None
  | UpSampling2D (a, b), [h; w; c] => Some [h * a; w * b; c]%nat
  | AveragePooling2D p, [h; w; c] =>
      match window Valid h p p, window Valid w p p with
      | Some h', Some w' => Some [h'; w'; c]
      | _, _ => None
      end
  | Flatten, _ => Some [product s]
  | Reshape target, _ =>
      if (product s =? product target)%nat then Some target else None
  | Dense units _ _, _ =>
      match rev s with
      | _ :: rest => Some (rev (units :: rest))
      | [] => None
      end
  | _, _ => None
  end.

(** Model building: the layers called so far are the state. *)
Definition B (A : Type) : Type := list layer -> option (A * list layer).

Definition ret {A : Type} (a : A) : B A := fun log => Some (a, log).

Definition bind {A C : Type} (m : B A) (k : A -> B C) : B C :=
  fun log =>
    match m log with
    | Some (a, log') => k a log'
    | None => None
    end.

Definition raise {A : Type} : B A := fun _ => None.

(** [layer(x)]. *)
Definition call (l : layer) (x : shape) : B shape :=
  fun log =>
    match output_shape l x with
    | Some s => Some (s, log ++ [l])
    | None => None
    end.

(** [keras.layers.add([x, y])] on two inputs of one shape; inputs of
    different shapes, some of which Keras would broadcast, are refused. *)
Definition add (x y : shape) : B shape :=
  fun log =>
    if list_eq_dec Nat.eq_dec x y then Some (x, log ++ [Add]) else None.

Fixpoint for_each {I S : Type} (items : list I) (body : I -> S -> B S)
    (s : S) : B S :=
  match items with
  | [] => ret s
  | i :: rest => bind (body i s) (for_each rest body)
  end.

(** How many layers of a kind a model has. *)
Definition count (p : layer -> bool) (log : list layer) : nat :=
  List.length (filter p log).

Definition is_conv (k : nat) (l : layer) : bool :=
  match l with
  | Conv2D _ (kh, kw) _ _ _ => ((kh =? k) && (kw =? k))%nat
  | _ => false
  end.

Definition is_dense (l : layer) : bool :=
  match l with Dense _ _ _ => true | _ => false end.

Definition is_add (l : layer) : bool :=
  match l with Add => true | _ => false end.

Definition is_batch_normalization (l : layer) : bool :=
  match l with BatchNormalization => true | _ => false end.

Definition is_dropout (l : layer) : bool :=
  match l with Dropout _ => true | _ => false end.

End Keras.

(** ** The ResNet of the CutMix notebook *)

Module ResNet.

Import Stdlib.Strings.String.
Import Stdlib.Lists.List.
Import ListNotations.
Import Keras.

Declare Scope build_scope.
Delimit Scope build_scope with build.
Notation "x <- m ;; k" := (bind m (fun x => k))
  (at level 61, m at next level, right associativity) : build_scope.
Local Open Scope build_scope.

(** [resnet_layer]; the initializer and the regularizer of the convolution
    do not bear on shapes and are left out. *)
Definition resnet_layer (inputs : shape) (num_filters kernel_size
    strides : nat) (activation : option string)
    (batch_normalization conv_first : bool) : B shape :=
  let conv :=
    Conv2D num_filters (kernel_size, kernel_size) (strides, strides) Same
      true in
  let x := inputs in
  if conv_first then
    x <- call conv x ;;
    x <- (if batch_normalization then call BatchNormalization x
          else ret x) ;;
    x <- (match activation with
          | Some a => call (Activation a) x
          | None => ret x
          end) ;;
    ret x
  else
    x <- (if batch_normalization then call BatchNormalization x
          else ret x) ;;
    x <- (match activation with
          | Some a => call (Activation a) x
          | None => ret x
          end) ;;
    x <- call conv x ;;
    ret x.

(** [resnet_v20].  [depth] is any Python integer; [int((depth - 2) / 6)] is
    reached for multiples of 6 only, and a negative count gives an empty
    [range]. *)
Definition resnet_v20 (input_shape : shape) (depth : Z) (num_classes : nat)
    : B shape :=
  if negb ((depth - 2) mod 6 =? 0)%Z then raise
  else
    let num_filters := 16%nat in
    let num_res_blocks := Z.to_nat (Z.quot (depth - 2) 6) in
    let inputs := input_shape in
    x <- resnet_layer inputs 16 3 1 (Some "relu"%string) true true ;;
    state <-
      for_each (seq 0 3)
        (fun stack (state : shape * nat) =>
           let '(x, num_filters) := state in
           x <-
             for_each (seq 0 num_res_blocks)
               (fun res_block (x : shape) =>
                  let strides := 1%nat in
                  let strides :=
                    if ((0 <? stack) && (res_block =? 0))%nat then 2%nat
                    else strides in
                  y <- resnet_layer x num_filters 3 strides
                         (Some "relu"%string) true true ;;
                  y <- resnet_layer y num_filters 3 1 None true true ;;
                  x <- (if ((0 <? stack) && (res_block =? 0))%nat then
                          resnet_layer x num_filters 1 strides None false
                            true
                        else ret x) ;;
                  x <- add x y ;;
                  x <- call (Activation "relu"%string) x ;;
                  ret x)
               x ;;
           ret (x, (num_filters * 2)%nat))
        (x, num_filters) ;;
    let '(x, _) := state in
    x <- call (AveragePooling2D 8) x ;;
    y <- call Flatten x ;;
    outputs <- call (Dense num_classes true (Some "softmax"%string)) y ;;
    ret outputs.

(** [training_model]. *)
Definition training_model : B shape := resnet_v20 [32; 32; 3]%nat 20 10.

End ResNet.

(** ** The two networks of the WGAN-GP notebook *)

Module Networks.

Import Stdlib.Strings.String.
Import Stdlib.Lists.List.
Import ListNotations.
Import Keras.

Declare Scope net_scope.
Delimit Scope net_scope with net.
Notation "x <- m ;; k" := (bind m (fun x => k))
  (at level 61, m at next level, right associativity) : net_scope.
Local Open Scope net_scope.

Definition IMG_SHAPE : shape := [28; 28; 1]%nat.
Definition noise_dim : nat := 128.

(** [conv_block]; [activation] is a layer object. *)
Definition conv_block (x : shape) (filters : nat) (activation : layer)
    (kernel_size strides : nat * nat) (pad : padding)
    (use_bias use_bn use_dropout : bool) (drop_value : R) : B shape :=
  x <- call (Conv2D filters kernel_size strides pad use_bias) x ;;
  x <- (if use_bn then call BatchNormalization x else ret x) ;;
  x <- call activation x ;;
  x <- (if use_dropout then call (Dropout drop_value) x else ret x) ;;
  ret x.

(** [get_discriminator_model], for the image shape [IMG_SHAPE] given as
    argument. *)
Definition get_discriminator_model (IMG_SHAPE : shape) : B shape :=
  let img_input := IMG_SHAPE in
  x <- call (ZeroPadding2D (2, 2)%nat) img_input ;;
  x <- conv_block x 64 (LeakyReLU 0.2) (5, 5)%nat (2, 2)%nat Same
         true false false 0.3 ;;
  x <- conv_block x 128 (LeakyReLU 0.2) (5, 5)%nat (2, 2)%nat Same
         true false true 0.3 ;;
  x <- conv_block x 256 (LeakyReLU 0.2) (5, 5)%nat (2, 2)%nat Same
         true false true 0.3 ;;
  x <- conv_block x 512 (LeakyReLU 0.2) (5, 5)%nat (2, 2)%nat Same
         true false false 0.3 ;;
  x <- call Flatten x ;;
  x <- call (Dropout 0.2) x ;;
  x <- call (Dense 1 true None) x ;;
  ret x.

(** [upsample_block]; [activation] may be [None]. *)
Definition upsample_block (x : shape) (filters : nat)
    (activation : option layer) (kernel_size strides up_size : nat * nat)
    (pad : padding) (use_bn use_bias use_dropout : bool) (drop_value : R)
    : B shape :=
  x <- call (UpSampling2D up_size) x ;;
  x <- call (Conv2D filters kernel_size strides pad use_bias) x ;;
  x <- (if use_bn then call BatchNormalization x else ret x) ;;
  x <- (match activation with
        | Some a => call a x
        | None => ret x
        end) ;;
  x <- (if use_dropout then call (Dropout drop_value) x else ret x) ;;
  ret x.

(** [get_generator_model], for the latent dimension [noise_dim] given as
    argument. *)
Definition get_generator_model (noise_dim : nat) : B shape :=
  let noise := [noise_dim] in
  x <- call (Dense (4 * 4 * 256) false None) noise ;;
  x <- call BatchNormalization x ;;
  x <- call (LeakyReLU 0.2) x ;;
  x <- call (Reshape [4; 4; 256]%nat) x ;;
  x <- upsample_block x 128 (Some (LeakyReLU 0.2)) (3, 3)%nat (1, 1)%nat
         (2, 2)%nat Same true false false 0.3 ;;
  x <- upsample_block x 64 (Some (LeakyReLU 0.2)) (3, 3)%nat (1, 1)%nat
         (2, 2)%nat Same true false false 0.3 ;;
  x <- upsample_block x 1 (Some (Activation "tanh"%string)) (3, 3)%nat
         (1, 1)%nat (2, 2)%nat Same true false false 0.3 ;;
  x <- call (Cropping2D (2, 2)%nat) x ;;
  ret x.

End Networks.

(** * Properties *)

(** ** Integers and casts *)

Module Int32Facts.

Import Int32.
Local Open Scope Z_scope.

Lemma wrap_in_range (z : Z) : in_range z -> wrap z = z.
Proof.
  unfold in_range, min_int, max_int, wrap. intros Hz.
  rewrite Z.mod_small; lia.
Qed.

Lemma wrap_range (z : Z) : in_range (wrap z).
Proof.
  unfold in_range, min_int, max_int, wrap.
  pose proof (Z.mod_pos_bound (z + 2 ^ 31) (2 ^ 32)). lia.
Qed.

End Int32Facts.

Module ScalarFacts.

Import Scalar.

Lemma cast_int32_nonneg (x : R) :
  (0 <= x)%R -> (IZR (cast_int32 x) <= x < IZR (cast_int32 x) + 1)%R.
Proof.
  intros Hx. unfold cast_int32.
  destruct (Rle_dec 0 x) as [_|Hn]; [|contradiction].
  destruct (base_Int_part x) as [H1 H2]. lra.
Qed.

Lemma cast_int32_bounds (x : R) (lo hi : Z) :
  (0 <= IZR lo)%R -> (IZR lo <= x <= IZR hi)%R ->
  (lo <= cast_int32 x <= hi)%Z.
Proof.
  intros Hlo [Hl Hh].
  destruct (cast_int32_nonneg x) as [H1 H2]; [lra|].
  split.
  - apply Z.lt_succ_r. apply lt_IZR. rewrite succ_IZR. lra.
  - apply le_IZR. lra.
Qed.

Lemma cast_int32_eq (x : R) (z : Z) :
  (0 <= IZR z)%R -> (IZR z <= x < IZR z + 1)%R -> cast_int32 x = z.
Proof.
  intros Hz [Hl Hh].
  destruct (cast_int32_nonneg x) as [H1 H2]; [lra|].
  assert (cast_int32 x < z + 1)%Z
    by (apply lt_IZR; rewrite plus_IZR; lra).
  assert (z < cast_int32 x + 1)%Z
    by (apply lt_IZR; rewrite plus_IZR; lra).
  lia.
Qed.

End ScalarFacts.

(** ** Tensors *)

Module TensorFacts.

Import Tensor Int32Facts.

Section ZipWith.

Context {A B C : Type} (f : A -> B -> option C).

Lemma zip_with_length (xs : list A) : forall (ys : list B) (zs : list C),
  zip_with f xs ys = Some zs ->
  length xs = length zs /\ length ys = length zs.
Proof.
  induction xs as [|x xs IH]; intros [|y ys] zs H; simpl in H;
    try discriminate.
  - injection H as <-. split; reflexivity.
  - destruct (f x y) as [z|]; simpl in H; [|discriminate].
    destruct (zip_with f xs ys) as [zs'|] eqn:E; simpl in H; [|discriminate].
    injection H as <-. destruct (IH ys zs' E) as [H1 H2].
    simpl. split; congruence.
Qed.

Lemma zip_with_nth (xs : list A) : forall (ys : list B) (zs : list C),
  zip_with f xs ys = Some zs ->
  forall (i : nat) (dx : A) (dy : B) (dz : C), (i < length zs)%nat ->
  f (nth i xs dx) (nth i ys dy) = Some (nth i zs dz).
Proof.
  induction xs as [|x xs IH]; intros [|y ys] zs H; simpl in H;
    try discriminate.
  - injection H as <-. simpl. intros; lia.
  - destruct (f x y) as [z|] eqn:Ez; simpl in H; [|discriminate].
    destruct (zip_with f xs ys) as [zs'|] eqn:E; simpl in H; [|discriminate].
    injection H as <-. intros [|i] dx dy dz Hi; simpl in *.
    + exact Ez.
    + apply (IH ys zs' E). lia.
Qed.

(** The combination succeeds on lists of one length whose elements
    combine. *)
Lemma zip_with_total (P : A -> Prop) (Q : B -> Prop) (S : C -> Prop) :
  (forall x y, P x -> Q y -> exists z, f x y = Some z /\ S z) ->
  forall (xs : list A) (ys : list B),
  length xs = length ys -> Forall P xs -> Forall Q ys ->
  exists zs, zip_with f xs ys = Some zs /\ Forall S zs.
Proof.
  intros Hf. induction xs as [|x xs IH]; intros [|y ys] Hlen HP HQ;
    simpl in Hlen; try discriminate.
  - exists []. split; [reflexivity|constructor].
  - inversion HP as [|? ? Px HPs]; subst.
    inversion HQ as [|? ? Qy HQs]; subst.
    destruct (Hf x y Px Qy) as (z & Ez & Sz).
    destruct (IH ys ltac:(lia) HPs HQs) as (zs & Ezs & Szs).
    exists (z :: zs). simpl. rewrite Ez. simpl. rewrite Ezs. simpl.
    split; [reflexivity|constructor; assumption].
Qed.

End ZipWith.

Lemma has_shape_nth (h w d : nat) (t : Image) (r : nat) :
  has_shape h w d t -> (r < h)%nat -> row_shape w d (nth r t []).
Proof.
  intros [Hl HF] Hr. rewrite Forall_nth in HF. apply HF. lia.
Qed.

Lemma row_shape_nth (w d : nat) (row : list (list R)) (c : nat) :
  row_shape w d row -> (c < w)%nat -> length (nth c row []) = d.
Proof.
  intros [Hl HF] Hc. rewrite Forall_nth in HF. apply HF. lia.
Qed.

Lemma elementwise1_total (f : R -> R -> R) (d : nat) (a b : Vector) :
  length a = d -> length b = d ->
  exists c, elementwise1 f a b = Some c /\ length c = d.
Proof.
  intros Ha Hb.
  destruct (zip_with_total (fun a b => Some (f a b))
              (fun _ => True) (fun _ => True) (fun _ => True)) with
    (xs := a) (ys := b) as (c & Ec & _).
  - intros x y _ _. exists (f x y). split; [reflexivity|exact I].
  - exact (eq_trans Ha (eq_sym Hb)).
  - apply Forall_forall. intros; exact I.
  - apply Forall_forall. intros; exact I.
  - exists c. split; [exact Ec|].
    apply zip_with_length in Ec. lia.
Qed.

Lemma elementwise2_total (f : R -> R -> R) (w d : nat)
    (a b : list (list R)) :
  row_shape w d a -> row_shape w d b ->
  exists c, elementwise2 f a b = Some c /\ row_shape w d c.
Proof.
  intros [Ha Fa] [Hb Fb].
  destruct (zip_with_total (elementwise1 f)
              (fun px => length px = d) (fun px => length px = d)
              (fun px => length px = d)) with
    (xs := a) (ys := b) as (c & Ec & Fc); try assumption.
  - intros x y Hx Hy. apply elementwise1_total; assumption.
  - exact (eq_trans Ha (eq_sym Hb)).
  - exists c. split; [exact Ec|]. split; [|exact Fc].
    apply zip_with_length in Ec. destruct Ec as [E1 _].
    exact (eq_trans (eq_sym E1) Ha).
Qed.

Lemma elementwise3_total (f : R -> R -> R) (h w d : nat) (a b : Image) :
  has_shape h w d a -> has_shape h w d b ->
  exists c, elementwise3 f a b = Some c /\ has_shape h w d c.
Proof.
  intros [Ha Fa] [Hb Fb].
  destruct (zip_with_total (elementwise2 f)
              (row_shape w d) (row_shape w d) (row_shape w d)) with
    (xs := a) (ys := b) as (c & Ec & Fc); try assumption.
  - intros x y Hx Hy. apply elementwise2_total; assumption.
  - exact (eq_trans Ha (eq_sym Hb)).
  - exists c. split; [exact Ec|]. split; [|exact Fc].
    apply zip_with_length in Ec. destruct Ec as [E1 _].
    exact (eq_trans (eq_sym E1) Ha).
Qed.

(** Entry by entry, the result of an elementwise operator is the operator
    applied to the entries of the operands. *)
Lemma elementwise3_pixel (f : R -> R -> R) (h w d : nat) (a b c : Image)
    (r j k : nat) :
  elementwise3 f a b = Some c -> has_shape h w d c ->
  (r < h)%nat -> (j < w)%nat -> (k < d)%nat ->
  pixel c r j k = f (pixel a r j k) (pixel b r j k).
Proof.
  intros E Hc Hr Hj Hk. unfold pixel.
  pose proof (has_shape_nth h w d c r Hc Hr) as Hrow.
  pose proof (row_shape_nth w d _ j Hrow Hj) as Hpx.
  destruct Hc as [Hlen _]. destruct Hrow as [Hlenr _].
  pose proof (zip_with_nth _ _ _ _ E r [] [] [] ltac:(lia)) as E2.
  pose proof (zip_with_nth _ _ _ _ E2 j [] [] [] ltac:(lia)) as E1.
  pose proof (zip_with_nth _ _ _ _ E1 k 0%R 0%R 0%R ltac:(lia)) as E0.
  simpl in E0. injection E0 as E0. symmetry. exact E0.
Qed.

(** Slices and zero padding. *)

Lemma Forall_slice {A : Type} (P : A -> Prop) (start size : Z)
    (l : list A) :
  Forall P l -> Forall P (slice start size l).
Proof.
  intros H. unfold slice.
  assert (H1 : Forall P (skipn (Z.to_nat start) l)).
  { rewrite <- (firstn_skipn (Z.to_nat start) l) in H.
    apply Forall_app in H. tauto. }
  rewrite <- (firstn_skipn (Z.to_nat size) (skipn (Z.to_nat start) l)) in H1.
  apply Forall_app in H1. tauto.
Qed.

Lemma length_slice {A : Type} (start size : Z) (l : list A) :
  (0 <= start)%Z -> (0 <= size)%Z ->
  (start + size <= Z.of_nat (length l))%Z ->
  length (slice start size l) = Z.to_nat size.
Proof.
  intros H0 H1 H2. unfold slice.
  rewrite length_firstn, length_skipn. lia.
Qed.

Lemma nth_slice {A : Type} (start size : Z) (l : list A) (i : nat)
    (d : A) :
  (i < Z.to_nat size)%nat ->
  nth i (slice start size l) d = nth (Z.to_nat start + i) l d.
Proof.
  intros Hi. unfold slice. rewrite nth_firstn.
  destruct (Nat.ltb_spec i (Z.to_nat size)); [|lia].
  apply nth_skipn.
Qed.

Lemma nth_padded {A : Type} (z d : A) (a b : nat) (l : list A)
    (i : nat) :
  nth i (repeat z a ++ l ++ repeat z b) d =
  if (i <? a)%nat then z
  else if (i <? a + length l)%nat then nth (i - a) l d
  else if (i <? a + length l + b)%nat then z
  else d.
Proof.
  destruct (Nat.ltb_spec i a) as [Ha|Ha].
  - rewrite app_nth1 by (rewrite repeat_length; lia).
    apply nth_repeat_lt. lia.
  - rewrite app_nth2 by (rewrite repeat_length; lia).
    rewrite repeat_length.
    destruct (Nat.ltb_spec i (a + length l)) as [Hl|Hl].
    + apply app_nth1. lia.
    + rewrite app_nth2 by lia.
      destruct (Nat.ltb_spec i (a + length l + b)) as [Hb|Hb].
      * apply nth_repeat_lt. lia.
      * apply nth_overflow. rewrite repeat_length. lia.
Qed.

Lemma nth_zero_pixel (d k : nat) : nth k (zero_pixel d) 0%R = 0%R.
Proof. apply nth_repeat. Qed.

Lemma nth_nil_R (k : nat) : nth k (@nil R) 0%R = 0%R.
Proof. destruct k; reflexivity. Qed.

Lemma pixel_zero_row (d w j k : nat) :
  nth k (nth j (repeat (zero_pixel d) w) []) 0%R = 0%R.
Proof.
  destruct (Nat.ltb_spec j w) as [Hj|Hj].
  - rewrite nth_repeat_lt by lia. apply nth_zero_pixel.
  - rewrite (nth_overflow (repeat (zero_pixel d) w))
      by (rewrite repeat_length; lia).
    apply nth_nil_R.
Qed.

Lemma has_shape_dims (h w d : nat) (t : Image) :
  has_shape h w d t -> (0 < h)%nat ->
  height t = Z.of_nat h /\ width t = Z.of_nat w /\
  ((0 < w)%nat -> depth t = d).
Proof.
  intros [Hl HF] Hh. unfold height, width, depth.
  destruct t as [|row t]; simpl in *; [lia|].
  inversion HF as [|? ? [Hw Hpx] _]; subst.
  repeat split; try reflexivity.
  intros Hw. destruct row as [|px row]; simpl in *; [lia|].
  inversion Hpx; subst. reflexivity.
Qed.

Ltac int32_range :=
  unfold Int32.in_range, Int32.min_int, Int32.max_int; lia.

(** A bounding box that lies inside the image is cropped without error;
    the crop has the size of the box and holds the pixels of the image at
    the box. *)
Lemma crop_to_bounding_box_spec (h w d : nat) (image : Image)
    (oh ow th tw : Z) :
  has_shape h w d image ->
  (0 <= oh)%Z -> (0 <= ow)%Z -> (0 < th)%Z -> (0 < tw)%Z ->
  (oh + th <= Z.of_nat h)%Z -> (ow + tw <= Z.of_nat w)%Z ->
  (Z.of_nat h <= Int32.max_int)%Z -> (Z.of_nat w <= Int32.max_int)%Z ->
  exists crop,
    crop_to_bounding_box image oh ow th tw = Some crop /\
    has_shape (Z.to_nat th) (Z.to_nat tw) d crop /\
    forall r j k, (r < Z.to_nat th)%nat -> (j < Z.to_nat tw)%nat ->
      pixel crop r j k = pixel image (Z.to_nat oh + r) (Z.to_nat ow + j) k.
Proof.
  intros Hs Hoh How Hth Htw Hh Hw Mh Mw.
  unfold Int32.max_int in Mh, Mw.
  destruct (has_shape_dims h w d image Hs ltac:(lia)) as (Eh & Ew & _).
  destruct Hs as [Hl HF].
  exists (map (slice ow tw) (slice oh th image)).
  split; [|split].
  - unfold crop_to_bounding_box, Int32.add.
    rewrite !wrap_in_range by int32_range. rewrite Eh, Ew.
    destruct (Z.leb_spec 0 ow); [|lia].
    destruct (Z.leb_spec 0 oh); [|lia].
    destruct (Z.ltb_spec 0 tw); [|lia].
    destruct (Z.ltb_spec 0 th); [|lia].
    destruct (Z.leb_spec (tw + ow) (Z.of_nat w)); [|lia].
    destruct (Z.leb_spec (th + oh) (Z.of_nat h)); [|lia].
    reflexivity.
  - split.
    + rewrite length_map. apply length_slice; lia.
    + apply Forall_map. apply Forall_slice.
      apply Forall_impl with (2 := HF).
      intros row [Hrl Hrf]. split.
      * apply length_slice; lia.
      * apply Forall_slice. exact Hrf.
  - intros r j k Hr Hj. unfold pixel.
    assert (Hlen : length (slice oh th image) = Z.to_nat th)
      by (apply length_slice; lia).
    rewrite (nth_indep (map (slice ow tw) (slice oh th image)) []
               (slice ow tw [])) by (rewrite length_map; lia).
    rewrite map_nth. rewrite nth_slice by lia.
    rewrite nth_slice by lia. reflexivity.
Qed.

(** A non-empty patch that fits the target at its offset is padded
    without error; the result has the target size, holds the patch at the
    offset and zeros elsewhere. *)
Lemma pad_to_bounding_box_spec (h w d : nat) (patch : Image)
    (oh ow th tw : Z) :
  has_shape h w d patch -> (0 < h)%nat -> (0 < w)%nat ->
  (0 <= oh)%Z -> (0 <= ow)%Z ->
  (oh + Z.of_nat h <= th)%Z -> (ow + Z.of_nat w <= tw)%Z ->
  (th <= Int32.max_int)%Z -> (tw <= Int32.max_int)%Z ->
  exists padded,
    pad_to_bounding_box patch oh ow th tw = Some padded /\
    has_shape (Z.to_nat th) (Z.to_nat tw) d padded /\
    forall r j k,
      pixel padded r j k =
      if ((Z.to_nat oh <=? r) && (r <? Z.to_nat oh + h) &&
          (Z.to_nat ow <=? j) && (j <? Z.to_nat ow + w))%nat
      then pixel patch (r - Z.to_nat oh) (j - Z.to_nat ow) k
      else 0%R.
Proof.
  intros Hs Hh Hw Hoh How Fh Fw Mh Mw.
  unfold Int32.max_int in Mh, Mw.
  destruct (has_shape_dims h w d patch Hs Hh) as (Eh & Ew & Ed).
  specialize (Ed Hw). destruct Hs as [Hl HF].
  unfold pad_to_bounding_box, Int32.sub.
  rewrite Eh, Ew.
  rewrite (wrap_in_range (tw - ow)), (wrap_in_range (th - oh))
    by int32_range.
  rewrite !wrap_in_range by int32_range.
  destruct (Z.leb_spec 0 oh); [|lia].
  destruct (Z.leb_spec 0 ow); [|lia].
  destruct (Z.leb_spec 0 (tw - ow - Z.of_nat w)); [|lia].
  destruct (Z.leb_spec 0 (th - oh - Z.of_nat h)); [|lia].
  simpl. eexists. split; [reflexivity|].
  unfold pad. rewrite Ed, Ew.
  replace (Z.to_nat ow + Z.to_nat (Z.of_nat w)
           + Z.to_nat (tw - ow - Z.of_nat w))%nat
    with (Z.to_nat tw) by lia.
  set (top := Z.to_nat oh). set (left := Z.to_nat ow).
  set (bottom := Z.to_nat (th - oh - Z.of_nat h)).
  set (right := Z.to_nat (tw - ow - Z.of_nat w)).
  assert (Hzr : row_shape (Z.to_nat tw) d
                  (repeat (zero_pixel d) (Z.to_nat tw))).
  { split; [apply repeat_length|].
    apply Forall_forall. intros px Hin. apply repeat_spec in Hin.
    subst px. apply repeat_length. }
  split; [split|].
  - rewrite !length_app, !repeat_length, length_map. lia.
  - apply Forall_app. split; [|apply Forall_app; split].
    + apply Forall_forall. intros row Hin. apply repeat_spec in Hin.
      subst row. exact Hzr.
    + apply Forall_map. apply Forall_impl with (2 := HF).
      intros row [Hrl Hrf]. unfold pad_row. split.
      * rewrite !length_app, !repeat_length. lia.
      * apply Forall_app. split; [|apply Forall_app; split]; try exact Hrf;
          apply Forall_forall; intros px Hin; apply repeat_spec in Hin;
          subst px; apply repeat_length.
    + apply Forall_forall. intros row Hin. apply repeat_spec in Hin.
      subst row. exact Hzr.
  - intros r j k. unfold pixel.
    rewrite nth_padded, length_map, Hl.
    destruct (Nat.ltb_spec r top) as [Hr|Hr].
    { destruct (Nat.leb_spec top r); [lia|]. simpl.
      apply pixel_zero_row. }
    destruct (Nat.leb_spec top r) as [_|]; [|lia].
    destruct (Nat.ltb_spec r (top + h)) as [Hr'|Hr']; simpl.
    2:{ destruct (Nat.ltb_spec r (top + h + bottom)).
        - apply pixel_zero_row.
        - destruct j; simpl; apply nth_nil_R. }
    rewrite (nth_indep (map (pad_row d left right) patch) []
               (pad_row d left right [])) by (rewrite length_map; lia).
    rewrite map_nth. unfold pad_row at 1. rewrite nth_padded.
    assert (Hrow : length (nth (r - top) patch []) = w).
    { rewrite Forall_nth in HF. apply HF. lia. }
    rewrite Hrow.
    destruct (Nat.ltb_spec j left) as [Hj|Hj].
    { destruct (Nat.leb_spec left j); [lia|]. simpl.
      apply nth_zero_pixel. }
    destruct (Nat.leb_spec left j) as [_|]; [|lia].
    destruct (Nat.ltb_spec j (left + w)) as [Hj'|Hj']; simpl.
    + reflexivity.
    + destruct (Nat.ltb_spec j (left + w + right)).
      * apply nth_zero_pixel.
      * apply nth_nil_R.
Qed.

End TensorFacts.

(** ** CutMix *)

Module CutMixSpec.

Import Scalar Tensor CutMix Int32Facts ScalarFacts TensorFacts.

(** *** Properties of [get_box] *)

Lemma cut_rat_range (l : R) : (0 <= l <= 1)%R -> (0 <= cut_rat l <= 1)%R.
Proof.
  intros [H0 H1]. unfold cut_rat. split; [apply sqrt_pos|].
  rewrite <- sqrt_1 at 2. apply sqrt_le_1_alt. lra.
Qed.

Lemma cut_size_range (n : Z) (l : R) :
  (0 <= n)%Z -> (0 <= l <= 1)%R -> (0 <= cut_size n l <= n)%Z.
Proof.
  intros Hn Hl. unfold cut_size.
  pose proof (cut_rat_range l Hl) as [Hr0 Hr1].
  pose proof (IZR_le _ _ Hn) as Hn'.
  apply cast_int32_bounds; [lra|]. nra.
Qed.

(** One axis of the box: the clipped edges around a centre [c] with a
    non-negative half-width [h]. *)
Lemma axis_bounds (n c h : Z) :
  (0 < n <= 2 ^ 30)%Z -> (0 <= c < n)%Z -> (0 <= 2 * h <= n)%Z ->
  let lo := clip_by_value (Int32.sub c h) 0 n in
  let hi := clip_by_value (Int32.add c h) 0 n in
  let t := Int32.sub hi lo in
  let t' := if (t =? 0)%Z then Int32.add t 1 else t in
  (lo = Z.max (c - h) 0 /\ hi = Z.min (c + h) n /\
   0 <= lo /\ lo + t' <= n /\ 1 <= t' /\
   t' = if (h =? 0)%Z then 1 else hi - lo)%Z.
Proof.
  intros Hn Hc Hh lo hi t t'.
  assert (Hlo : lo = Z.max (c - h) 0).
  { subst lo. unfold Int32.sub, clip_by_value.
    rewrite wrap_in_range
      by (unfold Int32.in_range, Int32.min_int, Int32.max_int; lia).
    lia. }
  assert (Hhi : hi = Z.min (c + h) n).
  { subst hi. unfold Int32.add, clip_by_value.
    rewrite wrap_in_range
      by (unfold Int32.in_range, Int32.min_int, Int32.max_int; lia).
    lia. }
  assert (Ht : t = (hi - lo)%Z).
  { subst t. unfold Int32.sub.
    rewrite wrap_in_range
      by (unfold Int32.in_range, Int32.min_int, Int32.max_int; lia).
    reflexivity. }
  assert (Ht' : t' = if (h =? 0)%Z then 1%Z else (hi - lo)%Z).
  { subst t'. rewrite Ht.
    destruct (Z.eqb_spec h 0) as [->|Hne].
    - replace (hi - lo)%Z with 0%Z by lia. reflexivity.
    - destruct (Z.eqb_spec (hi - lo) 0); [lia|reflexivity]. }
  repeat split; try assumption; try lia.
  - rewrite Ht'. destruct (Z.eqb_spec h 0); lia.
  - rewrite Ht'. destruct (Z.eqb_spec h 0); lia.
Qed.

Lemma half_cut_size (n : Z) (l : R) :
  (0 < n <= 2 ^ 30)%Z -> (0 <= l <= 1)%R ->
  (Int32.floordiv (cut_size n l) 2 = cut_size n l / 2 /\
   0 <= 2 * (cut_size n l / 2) <= n)%Z.
Proof.
  intros Hn Hl.
  assert (H : (0 <= cut_size n l <= n)%Z)
    by (apply cut_size_range; [lia|assumption]).
  pose proof (Z.mul_div_le (cut_size n l) 2 ltac:(lia)).
  pose proof (Z.div_pos (cut_size n l) 2 ltac:(lia) ltac:(lia)).
  split; [|lia].
  unfold Int32.floordiv. apply wrap_in_range.
  unfold Int32.in_range, Int32.min_int, Int32.max_int. lia.
Qed.

(** C1. For every mixing ratio in [0,1], every side length and every
    outcome of the two centre draws in [0, IMG_SIZE), the box of [get_box]
    lies inside the image and has a width and a height of at least 1.  The
    side length ranges over the sizes whose box arithmetic stays inside
    [tf.int32]. *)
Theorem get_box_inside_image (n : Z) (l : R) (cx cy : Z) :
  (0 < n <= 2 ^ 30)%Z -> (0 <= l <= 1)%R ->
  (0 <= cx < n)%Z -> (0 <= cy < n)%Z ->
  let '(x, y, height, width) := get_box n l cx cy in
  (0 <= x /\ x <= x + width /\ x + width <= n /\
   0 <= y /\ y <= y + height /\ y + height <= n /\
   1 <= width /\ 1 <= height)%Z.
Proof.
  intros Hn Hl Hx Hy. unfold get_box.
  destruct (half_cut_size n l Hn Hl) as [-> Hh].
  pose proof (axis_bounds n cx _ Hn Hx Hh) as Ax.
  pose proof (axis_bounds n cy _ Hn Hy Hh) as Ay.
  cbv zeta in Ax, Ay. lia.
Qed.

Lemma get_box_inside_image_witness :
  let '(x, y, height, width) := get_box 32 (1 / 2) 16 16 in
  (0 <= x /\ x <= x + width /\ x + width <= 32 /\
   0 <= y /\ y <= y + height /\ y + height <= 32 /\
   1 <= width /\ 1 <= height)%Z.
Proof.
  apply (get_box_inside_image 32 (1 / 2) 16 16); try lia; lra.
Defined.

Lemma cut_rat_half : (707 / 1000 < cut_rat (1 / 2) < 708 / 1000)%R.
Proof.
  unfold cut_rat. replace (1 - 1 / 2)%R with (1 / 2)%R by lra.
  split.
  - rewrite <- (sqrt_square (707 / 1000)) by lra.
    apply sqrt_lt_1_alt. lra.
  - rewrite <- (sqrt_square (708 / 1000)) by lra.
    apply sqrt_lt_1_alt. lra.
Qed.

Lemma cut_size_half : cut_size IMG_SIZE (1 / 2) = 22%Z.
Proof.
  unfold cut_size, IMG_SIZE. pose proof cut_rat_half as [Hl Hu].
  apply cast_int32_eq; lra.
Qed.

(** C8. With [IMG_SIZE = 32] and a mixing ratio of 0.5 the cut ratio is
    [sqrt 0.5], between 0.707 and 0.708, the truncated cut width and height
    are 22, and for the centre draw (16,16) [get_box] returns the box
    [(x, y, height, width) = (5, 5, 22, 22)]. *)
Theorem get_box_example :
  (707 / 1000 < cut_rat (1 / 2) < 708 / 1000)%R /\
  cut_rat (1 / 2) = sqrt (1 / 2) /\
  cut_size IMG_SIZE (1 / 2) = 22%Z /\
  get_box IMG_SIZE (1 / 2) 16 16 = (5, 5, 22, 22)%Z.
Proof.
  split; [exact cut_rat_half|]. split.
  { unfold cut_rat. f_equal. lra. }
  split; [exact cut_size_half|].
  unfold get_box. rewrite cut_size_half. reflexivity.
Qed.

(** *** Properties of [cutmix] *)

Lemma sample_beta_distribution_range (n : Z) (rnd : draws) (a b : R) :
  valid_draws n rnd -> (0 <= sample_beta_distribution rnd a b <= 1)%R.
Proof.
  intros (H1 & H2 & H3 & _). unfold sample_beta_distribution.
  set (g1 := gamma_1_sample rnd) in *. set (g2 := gamma_2_sample rnd) in *.
  split.
  - apply Rmult_le_pos; [exact H1|].
    apply Rlt_le. apply Rinv_0_lt_compat. exact H3.
  - apply Rmult_le_reg_r with (g1 + g2)%R; [exact H3|].
    unfold Rdiv. rewrite Rmult_assoc, Rinv_l by lra. lra.
Qed.

(** The box of a call with valid draws lies inside the image. *)
Lemma sampled_box_inside (n : Z) (rnd : draws) (x y h w : Z) :
  (0 < n <= 2 ^ 30)%Z -> valid_draws n rnd ->
  sampled_box n rnd = (x, y, h, w) ->
  (0 <= x /\ x + w <= n /\ 0 <= y /\ y + h <= n /\ 1 <= w /\ 1 <= h)%Z.
Proof.
  intros Hn Hv Hb.
  pose proof (sample_beta_distribution_range n rnd (1 / 4) (1 / 4) Hv) as Hl.
  destruct Hv as (_ & _ & _ & Hx & Hy).
  unfold sampled_box, get_box in Hb.
  destruct (half_cut_size n _ Hn Hl) as [Eh Hh]. rewrite Eh in Hb.
  pose proof (axis_bounds n _ _ Hn Hx Hh) as Ax.
  pose proof (axis_bounds n _ _ Hn Hy Hh) as Ay.
  cbv zeta in Ax, Ay. injection Hb as <- <- <- <-. lia.
Qed.

Lemma inside_box_nat (x y h w : Z) (r j : nat) :
  (0 <= x)%Z -> (0 <= y)%Z -> (0 <= h)%Z -> (0 <= w)%Z ->
  inside_box (x, y, h, w) r j =
  ((Z.to_nat y <=? r) && (r <? Z.to_nat y + Z.to_nat h) &&
   (Z.to_nat x <=? j) && (j <? Z.to_nat x + Z.to_nat w))%nat.
Proof.
  intros Hx Hy Hh Hw. unfold inside_box.
  apply Bool.eq_iff_eq_true.
  rewrite !andb_true_iff, !Z.leb_le, !Z.ltb_lt, !Nat.leb_le, !Nat.ltb_lt.
  lia.
Qed.

(** Cropping an image at a box and padding the crop back at the same
    offset keeps the pixels inside the box and zeroes the others. *)
Lemma crop_then_pad (n : Z) (d : nat) (image : Image) (x y h w : Z) :
  (0 < n <= Int32.max_int)%Z ->
  has_shape (Z.to_nat n) (Z.to_nat n) d image ->
  (0 <= x /\ x + w <= n /\ 0 <= y /\ y + h <= n /\ 1 <= w /\ 1 <= h)%Z ->
  exists crop padded,
    crop_to_bounding_box image y x h w = Some crop /\
    pad_to_bounding_box crop y x n n = Some padded /\
    has_shape (Z.to_nat n) (Z.to_nat n) d padded /\
    forall r j k,
      pixel padded r j k =
      if inside_box (x, y, h, w) r j then pixel image r j k else 0%R.
Proof.
  intros Hn Hs Hb.
  destruct (crop_to_bounding_box_spec _ _ d image y x h w Hs)
    as (crop & Ec & Sc & Pc); try lia.
  destruct (pad_to_bounding_box_spec _ _ d crop y x n n Sc)
    as (padded & Ep & Sp & Pp); try lia.
  exists crop, padded. repeat split; try assumption; try apply Sp.
  intros r j k. rewrite Pp, inside_box_nat by lia.
  match goal with |- (if ?b then _ else _) = _ => destruct b eqn:E end;
    [|reflexivity].
  apply andb_prop in E. destruct E as [E E4].
  apply andb_prop in E. destruct E as [E E3].
  apply andb_prop in E. destruct E as [E1 E2].
  apply Nat.leb_le in E1, E3. apply Nat.ltb_lt in E2, E4.
  rewrite Pc by lia. f_equal; lia.
Qed.

Lemma elementwise1_blend (ratio : R) (label1 label2 : Label) :
  length label1 = length label2 ->
  elementwise1 Rplus (scale1 ratio label1) (scale1 (1 - ratio) label2) =
  Some (blend ratio label1 label2).
Proof.
  revert label2. induction label1 as [|a l1 IH]; intros [|b l2] Hlen;
    simpl in Hlen; try discriminate; [reflexivity|].
  unfold elementwise1, blend, scale1 in *. simpl.
  rewrite IH by lia. reflexivity.
Qed.

Lemma reduce_sum1_blend (ratio : R) (label1 label2 : Label) :
  length label1 = length label2 ->
  reduce_sum1 (blend ratio label1 label2) =
  (ratio * reduce_sum1 label1 + (1 - ratio) * reduce_sum1 label2)%R.
Proof.
  revert label2. induction label1 as [|a l1 IH]; intros [|b l2] Hlen;
    simpl in Hlen; try discriminate.
  - unfold blend, reduce_sum1. simpl. lra.
  - unfold blend, reduce_sum1 in *. simpl. rewrite IH by lia. lra.
Qed.

Lemma nth_blend (ratio : R) (label1 label2 : Label) (i : nat) :
  length label1 = length label2 -> (i < length label1)%nat ->
  nth i (blend ratio label1 label2) 0%R =
  (ratio * nth i label1 0 + (1 - ratio) * nth i label2 0)%R.
Proof.
  revert label2 i. induction label1 as [|a l1 IH]; intros [|b l2] i Hlen Hi;
    simpl in *; try lia.
  destruct i as [|i]; [reflexivity|]. apply IH; lia.
Qed.

Lemma length_blend (ratio : R) (label1 label2 : Label) :
  length label1 = length label2 ->
  length (blend ratio label1 label2) = length label1.
Proof.
  intros H. unfold blend. rewrite length_map, length_combine. lia.
Qed.

(** The run of [cutmix] on two images of the side length, written out:
    the call returns, the label is the blend at the realized area ratio,
    and each pixel comes from [image2] inside the box and from [image1]
    outside it. *)
Lemma cutmix_run (n : Z) (d : nat) (rnd : draws)
    (image1 image2 : Image) (label1 label2 : Label) (x y h w : Z) :
  (0 < n)%Z -> (n * n <= Int32.max_int)%Z -> valid_draws n rnd ->
  has_shape (Z.to_nat n) (Z.to_nat n) d image1 ->
  has_shape (Z.to_nat n) (Z.to_nat n) d image2 ->
  length label1 = length label2 ->
  sampled_box n rnd = (x, y, h, w) ->
  exists image,
    cutmix n rnd (image1, label1) (image2, label2) =
      Some (image,
            blend (1 - IZR (h * w) / IZR (n * n)) label1 label2) /\
    has_shape (Z.to_nat n) (Z.to_nat n) d image /\
    forall r j k,
      (r < Z.to_nat n)%nat -> (j < Z.to_nat n)%nat -> (k < d)%nat ->
      pixel image r j k =
      if inside_box (x, y, h, w) r j then pixel image2 r j k
      else pixel image1 r j k.
Proof.
  intros Hn Hnn Hv S1 S2 Hlen Hbox.
  assert (Hn30 : (0 < n <= 2 ^ 30)%Z).
  { unfold Int32.max_int in Hnn. split; [lia|]. nia. }
  assert (Hmax : (0 < n <= Int32.max_int)%Z).
  { unfold Int32.max_int in *. lia. }
  pose proof (sampled_box_inside n rnd x y h w Hn30 Hv Hbox) as Hin.
  destruct (crop_then_pad n d image2 x y h w Hmax S2 Hin)
    as (crop2 & pad2 & Ec2 & Ep2 & Sp2 & Pp2).
  destruct (crop_then_pad n d image1 x y h w Hmax S1 Hin)
    as (crop1 & img1 & Ec1 & Ep1 & Sp1 & Pp1).
  destruct (elementwise3_total Rminus _ _ d image1 img1 S1 Sp1)
    as (rest & Er & Sr).
  destruct (elementwise3_total Rplus _ _ d rest pad2 Sr Sp2)
    as (image & Ei & Si).
  exists image. split; [|split; [exact Si|]].
  - unfold cutmix. unfold sampled_box in Hbox. rewrite Hbox.
    rewrite Ec2. cbn [obind]. rewrite Ep2. cbn [obind].
    rewrite Ec1. cbn [obind]. rewrite Ep1. cbn [obind].
    rewrite Er. cbn [obind]. rewrite Ei. cbn [obind].
    assert (Ea : Int32.of_python_int (n * n) = Some (n * n)%Z).
    { unfold Int32.of_python_int, Int32.min_int.
      destruct (Z.leb_spec (- 2 ^ 31) (n * n)); [|nia].
      destruct (Z.leb_spec (n * n) Int32.max_int); [|lia]. reflexivity. }
    rewrite Ea. cbn [obind].
    assert (Em : Int32.mul w h = (h * w)%Z).
    { unfold Int32.mul. rewrite wrap_in_range; [lia|].
      unfold Int32.in_range, Int32.min_int. split; nia. }
    rewrite Em, elementwise1_blend by exact Hlen. reflexivity.
  - intros r j k Hr Hj Hk.
    rewrite (elementwise3_pixel Rplus _ _ d rest pad2 image r j k Ei Si)
      by assumption.
    rewrite (elementwise3_pixel Rminus _ _ d image1 img1 rest r j k Er Sr)
      by assumption.
    rewrite Pp1, Pp2. destruct (inside_box (x, y, h, w) r j); lra.
Qed.

Lemma blend_zero (label1 label2 : Label) :
  length label1 = length label2 -> blend 0 label1 label2 = label2.
Proof.
  revert label2. induction label1 as [|a l1 IH]; intros [|b l2] Hlen;
    simpl in Hlen; try discriminate; [reflexivity|].
  unfold blend in *. simpl. rewrite IH by lia. f_equal. lra.
Qed.

(** Two images of one shape with the same pixels are equal. *)
Lemma image_ext (h w d : nat) (a b : Image) :
  has_shape h w d a -> has_shape h w d b ->
  (forall r j k, (r < h)%nat -> (j < w)%nat -> (k < d)%nat ->
     pixel a r j k = pixel b r j k) ->
  a = b.
Proof.
  intros Sa Sb Hpx.
  apply (nth_ext a b [] []); [destruct Sa, Sb; congruence|].
  intros r Hr. replace (length a) with h in Hr by (destruct Sa; congruence).
  pose proof (has_shape_nth h w d a r Sa Hr) as Ra.
  pose proof (has_shape_nth h w d b r Sb Hr) as Rb.
  apply (nth_ext _ _ [] []); [destruct Ra, Rb; congruence|].
  intros j Hj.
  replace (length (nth r a [])) with w in Hj by (destruct Ra; congruence).
  pose proof (row_shape_nth w d _ j Ra Hj) as Pa.
  pose proof (row_shape_nth w d _ j Rb Hj) as Pb.
  apply (nth_ext _ _ 0%R 0%R); [congruence|].
  intros k Hk. rewrite Pa in Hk. apply (Hpx r j k); assumption.
Qed.

Lemma has_shape_constant_image (v : R) :
  has_shape 32 32 3 (constant_image v).
Proof.
  unfold constant_image. split; [apply repeat_length|].
  apply Forall_forall. intros row Hrow. apply repeat_spec in Hrow.
  subst row. split; [apply repeat_length|].
  apply Forall_forall. intros px Hpx. apply repeat_spec in Hpx.
  subst px. apply repeat_length.
Qed.

Lemma valid_sample_draws : valid_draws IMG_SIZE sample_draws.
Proof.
  unfold valid_draws, IMG_SIZE, sample_draws. simpl.
  repeat split; try lra; lia.
Qed.

Lemma valid_full_box_draws : valid_draws IMG_SIZE full_box_draws.
Proof.
  unfold valid_draws, IMG_SIZE, full_box_draws. simpl.
  repeat split; try lra; lia.
Qed.

Lemma sampled_box_full : sampled_box IMG_SIZE full_box_draws = (0, 0, 32, 32)%Z.
Proof.
  unfold sampled_box, get_box, full_box_draws, IMG_SIZE. simpl.
  assert (E : cut_size 32 (sample_beta_distribution
                {| gamma_1_sample := 0; gamma_2_sample := 1;
                   cut_x := 16; cut_y := 16 |} (1 / 4) (1 / 4)) = 32%Z).
  { unfold cut_size, cut_rat, sample_beta_distribution. simpl.
    replace (1 - 0 / (0 + 1))%R with 1%R by lra.
    rewrite sqrt_1. apply cast_int32_eq; lra. }
  rewrite E. reflexivity.
Qed.

(** C5. For two images of the side length and every box the draws can
    produce, [cutmix] returns an image of the input shape that equals
    [image2] at every pixel inside the box and [image1] at every pixel
    outside it. *)
Theorem cutmix_image_crop_and_paste (n : Z) (d : nat) (rnd : draws)
    (image1 image2 : Image) (label1 label2 : Label) :
  (0 < n)%Z -> (n * n <= Int32.max_int)%Z -> valid_draws n rnd ->
  has_shape (Z.to_nat n) (Z.to_nat n) d image1 ->
  has_shape (Z.to_nat n) (Z.to_nat n) d image2 ->
  length label1 = length label2 ->
  exists image label,
    cutmix n rnd (image1, label1) (image2, label2) = Some (image, label) /\
    has_shape (Z.to_nat n) (Z.to_nat n) d image /\
    forall r j k,
      (r < Z.to_nat n)%nat -> (j < Z.to_nat n)%nat -> (k < d)%nat ->
      pixel image r j k =
      if inside_box (sampled_box n rnd) r j then pixel image2 r j k
      else pixel image1 r j k.
Proof.
  intros Hn Hnn Hv S1 S2 Hlen.
  destruct (sampled_box n rnd) as [[[x y] h] w] eqn:Hbox.
  destruct (cutmix_run n d rnd image1 image2 label1 label2 x y h w
              Hn Hnn Hv S1 S2 Hlen Hbox) as (image & E & Si & Px).
  eauto.
Qed.

Lemma cutmix_image_crop_and_paste_witness :
  exists image label,
    cutmix IMG_SIZE sample_draws (constant_image 0, one_hot 0)
      (constant_image 1, one_hot 1) = Some (image, label) /\
    has_shape 32 32 3 image /\
    forall r j k,
      (r < 32)%nat -> (j < 32)%nat -> (k < 3)%nat ->
      pixel image r j k =
      if inside_box (sampled_box IMG_SIZE sample_draws) r j
      then pixel (constant_image 1) r j k
      else pixel (constant_image 0) r j k.
Proof.
  apply (cutmix_image_crop_and_paste IMG_SIZE 3 sample_draws
           (constant_image 0) (constant_image 1) (one_hot 0) (one_hot 1)).
  - reflexivity.
  - discriminate.
  - exact valid_sample_draws.
  - exact (has_shape_constant_image 0).
  - exact (has_shape_constant_image 1).
  - reflexivity.
Defined.

(** C3. [cutmix] blends the labels with the weight
    [1 - (height * width) / (IMG_SIZE * IMG_SIZE)] of the realized box on
    [label1] and the complement on [label2]; when the entries of each
    input label sum to 1, so do the entries of the output label. *)
Theorem cutmix_label_convex (n : Z) (d : nat) (rnd : draws)
    (image1 image2 : Image) (label1 label2 : Label) :
  (0 < n)%Z -> (n * n <= Int32.max_int)%Z -> valid_draws n rnd ->
  has_shape (Z.to_nat n) (Z.to_nat n) d image1 ->
  has_shape (Z.to_nat n) (Z.to_nat n) d image2 ->
  length label1 = length label2 ->
  exists image label,
    cutmix n rnd (image1, label1) (image2, label2) = Some (image, label) /\
    let '(_, _, height, width) := sampled_box n rnd in
    let ratio := (1 - IZR (height * width) / IZR (n * n))%R in
    length label = length label1 /\
    (forall i, (i < length label1)%nat ->
       nth i label 0%R =
       (ratio * nth i label1 0 + (1 - ratio) * nth i label2 0)%R) /\
    (reduce_sum1 label1 = 1%R -> reduce_sum1 label2 = 1%R ->
     reduce_sum1 label = 1%R).
Proof.
  intros Hn Hnn Hv S1 S2 Hlen.
  destruct (sampled_box n rnd) as [[[x y] h] w] eqn:Hbox.
  destruct (cutmix_run n d rnd image1 image2 label1 label2 x y h w
              Hn Hnn Hv S1 S2 Hlen Hbox) as (image & E & _).
  exists image. eexists. split; [exact E|].
  cbv zeta. split; [apply length_blend; exact Hlen|]. split.
  - intros i Hi. apply nth_blend; assumption.
  - intros H1 H2. rewrite reduce_sum1_blend by exact Hlen.
    rewrite H1, H2. lra.
Qed.

Lemma reduce_sum1_one_hot_0 : reduce_sum1 (one_hot 0) = 1%R.
Proof. unfold reduce_sum1, one_hot. simpl. lra. Qed.

Lemma reduce_sum1_one_hot_1 : reduce_sum1 (one_hot 1) = 1%R.
Proof. unfold reduce_sum1, one_hot. simpl. lra. Qed.

Lemma cutmix_label_convex_witness :
  exists image label,
    cutmix IMG_SIZE sample_draws (constant_image 0, one_hot 0)
      (constant_image 1, one_hot 1) = Some (image, label) /\
    reduce_sum1 label = 1%R.
Proof.
  destruct (cutmix_label_convex IMG_SIZE 3 sample_draws
              (constant_image 0) (constant_image 1) (one_hot 0) (one_hot 1))
    as (image & label & E & H).
  - reflexivity.
  - discriminate.
  - exact valid_sample_draws.
  - exact (has_shape_constant_image 0).
  - exact (has_shape_constant_image 1).
  - reflexivity.
  - exists image, label. split; [exact E|].
    destruct (sampled_box IMG_SIZE sample_draws) as [[[x y] h] w].
    destruct H as (_ & _ & Hsum).
    exact (Hsum reduce_sum1_one_hot_0 reduce_sum1_one_hot_1).
Defined.

(** C7. When the sampled box is the whole image (offset (0,0), width and
    height equal to the side length), [cutmix] returns [image2] and
    [label2] unchanged. *)
Theorem cutmix_full_box (n : Z) (d : nat) (rnd : draws)
    (image1 image2 : Image) (label1 label2 : Label) :
  (0 < n)%Z -> (n * n <= Int32.max_int)%Z -> valid_draws n rnd ->
  has_shape (Z.to_nat n) (Z.to_nat n) d image1 ->
  has_shape (Z.to_nat n) (Z.to_nat n) d image2 ->
  length label1 = length label2 ->
  sampled_box n rnd = (0, 0, n, n)%Z ->
  cutmix n rnd (image1, label1) (image2, label2) = Some (image2, label2).
Proof.
  intros Hn Hnn Hv S1 S2 Hlen Hbox.
  destruct (cutmix_run n d rnd image1 image2 label1 label2 0 0 n n
              Hn Hnn Hv S1 S2 Hlen Hbox) as (image & E & Si & Px).
  rewrite E. f_equal. f_equal.
  - apply (image_ext _ _ d image image2 Si S2).
    intros r j k Hr Hj Hk. rewrite (Px r j k Hr Hj Hk).
    replace (inside_box (0, 0, n, n)%Z r j) with true; [reflexivity|].
    symmetry. unfold inside_box.
    rewrite !andb_true_iff, !Z.leb_le, !Z.ltb_lt. lia.
  - replace (1 - IZR (n * n) / IZR (n * n))%R with 0%R.
    + apply blend_zero. exact Hlen.
    + assert (IZR (n * n) <> 0%R) by (apply not_0_IZR; nia).
      field. assumption.
Qed.

Lemma cutmix_full_box_witness :
  cutmix IMG_SIZE full_box_draws (constant_image 0, one_hot 0)
    (constant_image 1, one_hot 1) = Some (constant_image 1, one_hot 1).
Proof.
  apply (cutmix_full_box IMG_SIZE 3).
  - reflexivity.
  - discriminate.
  - exact valid_full_box_draws.
  - exact (has_shape_constant_image 0).
  - exact (has_shape_constant_image 1).
  - reflexivity.
  - exact sampled_box_full.
Defined.

End CutMixSpec.

(** ** WGAN-GP *)

Module WGANSpec.

Import Tensor WGAN_GP TensorFacts.

(** *** Sums, norms and means *)

Lemma reduce_sum1_app (a b : Vector) :
  reduce_sum1 (a ++ b) = (reduce_sum1 a + reduce_sum1 b)%R.
Proof.
  unfold reduce_sum1. induction a as [|x a IH]; simpl; [lra|].
  rewrite IH. lra.
Qed.

Lemma reduce_sum2_flat (f : R -> R) (row : list Vector) :
  reduce_sum2 (map (map f) row) = reduce_sum1 (map f (concat row)).
Proof.
  unfold reduce_sum2. induction row as [|px row IH]; simpl; [reflexivity|].
  rewrite map_app, reduce_sum1_app. unfold reduce_sum1 at 1. simpl.
  fold (reduce_sum1 (map reduce_sum1 (map (map f) row))).
  rewrite IH. reflexivity.
Qed.

Lemma reduce_sum3_flat (f : R -> R) (g : Image) :
  reduce_sum3 (map (map (map f)) g) =
  reduce_sum1 (map f (concat (concat g))).
Proof.
  unfold reduce_sum3. induction g as [|row g IH]; simpl; [reflexivity|].
  rewrite concat_app, map_app, reduce_sum1_app. unfold reduce_sum1 at 1.
  simpl.
  fold (reduce_sum1 (map reduce_sum2 (map (map (map f)) g))).
  rewrite IH, reduce_sum2_flat. reflexivity.
Qed.

(** The norm the code computes, a sum over the three axes of an image, is
    the Euclidean norm of the flattened image. *)
Lemma norm_is_l2_norm (g : Image) :
  sqrt (reduce_sum3 (square3 g)) = l2_norm g.
Proof. unfold square3, l2_norm. rewrite reduce_sum3_flat. reflexivity. Qed.

Lemma reduce_sum1_nonneg (l : Vector) :
  Forall (fun x => 0 <= x)%R l -> (0 <= reduce_sum1 l)%R.
Proof.
  unfold reduce_sum1. induction 1 as [|x l Hx _ IH]; simpl; lra.
Qed.

Lemma reduce_sum1_zero (l : Vector) :
  Forall (fun x => 0 <= x)%R l ->
  reduce_sum1 l = 0%R <-> Forall (fun x => x = 0%R) l.
Proof.
  induction 1 as [|x l Hx Hl IH].
  - split; [constructor|reflexivity].
  - pose proof (reduce_sum1_nonneg l Hl) as Hs.
    change (reduce_sum1 (x :: l)) with (x + reduce_sum1 l)%R.
    split.
    + intros H. constructor; [lra|]. apply IH. lra.
    + intros H. inversion H as [|? ? Hx0 Hl0]; subst.
      apply IH in Hl0. lra.
Qed.

Lemma reduce_mean_zero (l : Vector) :
  l <> [] -> Forall (fun x => 0 <= x)%R l ->
  reduce_mean l = 0%R <-> Forall (fun x => x = 0%R) l.
Proof.
  intros Hne Hl. rewrite <- (reduce_sum1_zero l Hl). unfold reduce_mean.
  assert (Hlen : (0 < INR (length l))%R).
  { apply lt_0_INR. destruct l; [contradiction|simpl; lia]. }
  split.
  - intros H. apply (Rmult_eq_compat_r (INR (length l))) in H.
    unfold Rdiv in H. rewrite Rmult_assoc, Rinv_l in H by lra. lra.
  - intros ->. unfold Rdiv. lra.
Qed.

(** The penalty of a non-empty batch of gradients vanishes exactly when
    every gradient has norm 1. *)
Lemma penalty_of_zero (grads : Batch) :
  grads <> [] ->
  penalty_of grads = 0%R <-> Forall (fun g => l2_norm g = 1%R) grads.
Proof.
  intros Hne. unfold penalty_of. rewrite reduce_mean_zero.
  - rewrite Forall_map, !Forall_forall.
    split; intros H g Hg; specialize (H g Hg); simpl in *.
    + assert (E : ((l2_norm g - 1) * (l2_norm g - 1) = 0)%R) by lra.
      destruct (Rmult_integral _ _ E); lra.
    + rewrite H. ring.
  - destruct grads; [contradiction|discriminate].
  - rewrite Forall_map. apply Forall_forall. intros g _.
    apply pow2_ge_0.
Qed.

(** *** Batches *)

Lemma elementwise4_total (f : R -> R -> R) (b h w c : nat) (x y : Batch) :
  batch_shape b h w c x -> batch_shape b h w c y ->
  exists z, elementwise4 f x y = Some z /\ batch_shape b h w c z.
Proof.
  intros [Hx Fx] [Hy Fy].
  destruct (zip_with_total (elementwise3 f)
              (has_shape h w c) (has_shape h w c) (has_shape h w c)) with
    (xs := x) (ys := y) as (z & Ez & Fz); try assumption.
  - intros a a' Ha Ha'. apply elementwise3_total; assumption.
  - exact (eq_trans Hx (eq_sym Hy)).
  - exists z. split; [exact Ez|]. split; [|exact Fz].
    apply zip_with_length in Ez. destruct Ez as [E1 _].
    exact (eq_trans (eq_sym E1) Hx).
Qed.

Lemma batch_shape_nth (b h w c : nat) (x : Batch) (i : nat) :
  batch_shape b h w c x -> (i < b)%nat -> has_shape h w c (nth i x []).
Proof.
  intros [Hl HF] Hi. rewrite Forall_nth in HF. apply HF. lia.
Qed.

Lemma elementwise4_pixel (f : R -> R -> R) (b h w c : nat) (x y z : Batch)
    (i r j k : nat) :
  elementwise4 f x y = Some z -> batch_shape b h w c z ->
  (i < b)%nat -> (r < h)%nat -> (j < w)%nat -> (k < c)%nat ->
  pixel (nth i z []) r j k =
  f (pixel (nth i x []) r j k) (pixel (nth i y []) r j k).
Proof.
  intros E Sz Hi Hr Hj Hk.
  pose proof (batch_shape_nth b h w c z i Sz Hi) as Si.
  destruct Sz as [Hl _].
  pose proof (zip_with_nth _ _ _ _ E i [] [] [] ltac:(lia)) as E3.
  apply (elementwise3_pixel f h w c _ _ _ r j k E3 Si); assumption.
Qed.

Lemma has_shape_scale3 (a : R) (h w c : nat) (x : Image) :
  has_shape h w c x -> has_shape h w c (scale3 a x).
Proof.
  intros [Hl HF]. unfold scale3, scale1. split.
  - rewrite length_map. exact Hl.
  - apply Forall_map. apply Forall_impl with (2 := HF).
    intros row [Hr Hp]. split.
    + rewrite length_map. exact Hr.
    + apply Forall_map. apply Forall_impl with (2 := Hp).
      intros px Hpx. rewrite length_map. exact Hpx.
Qed.

Lemma nth_scale1 (a : R) (v : Vector) (k : nat) :
  nth k (scale1 a v) 0%R = (a * nth k v 0)%R.
Proof.
  unfold scale1. revert k. induction v as [|x v IH]; intros [|k]; simpl;
    try lra; try reflexivity. apply IH.
Qed.

Lemma nth_map_nil {A B : Type} (f : list A -> list B) (l : list (list A))
    (i : nat) :
  f [] = [] -> nth i (map f l) [] = f (nth i l []).
Proof.
  intros Hf. revert i. induction l as [|x l IH]; intros [|i]; simpl;
    auto.
Qed.

Lemma pixel_scale3 (a : R) (x : Image) (r j k : nat) :
  pixel (scale3 a x) r j k = (a * pixel x r j k)%R.
Proof.
  unfold pixel, scale3.
  rewrite (nth_map_nil (map (scale1 a))) by reflexivity.
  rewrite (nth_map_nil (scale1 a)) by reflexivity.
  apply nth_scale1.
Qed.

(** The coefficient of a batch element scales the whole image of that
    element. *)
Lemma broadcast_mul_alpha (zs : list R) (b h w c : nat) (diff : Batch) :
  length zs = b -> batch_shape b h w c diff ->
  exists scaled,
    broadcast_mul (map (fun z => [[[z]]]) zs) diff = Some scaled /\
    batch_shape b h w c scaled /\
    forall i, (i < b)%nat ->
      nth i scaled [] = scale3 (nth i zs 0%R) (nth i diff []).
Proof.
  intros Hz [Hd Fd]. unfold broadcast_mul.
  set (g := fun (a : Image) (x : Image) =>
              match a with
              | [[[c0]]] => Some (scale3 c0 x)
              | _ => None
              end).
  destruct (zip_with_total g
              (fun a => exists z, a = [[[z]]]) (has_shape h w c)
              (has_shape h w c)) with
    (xs := map (fun z : R => [[[z]]]) zs) (ys := diff)
    as (scaled & Es & Fs).
  - intros a x [z ->] Hx. exists (scale3 z x). split; [reflexivity|].
    apply has_shape_scale3. exact Hx.
  - rewrite length_map. exact (eq_trans Hz (eq_sym Hd)).
  - apply Forall_map. apply Forall_forall. intros z _. exists z.
    reflexivity.
  - exact Fd.
  - exists scaled. split; [exact Es|].
    pose proof (zip_with_length _ _ _ _ Es) as [_ Hl].
    split; [split; [exact (eq_trans (eq_sym Hl) Hd)|exact Fs]|].
    intros i Hi.
    pose proof (zip_with_nth _ _ _ _ Es i [[[0%R]]] [] []
                  ltac:(rewrite <- Hl; lia)) as En.
    change [[[0%R]]] with ((fun z : R => [[[z]]]) 0%R) in En.
    rewrite map_nth in En. simpl in En. injection En as En.
    symmetry. exact En.
Qed.

(** *** Runs of the monadic operations *)

Section WithBackend.

Context {backend : Backend}.

Lemma set_rng_same (w : World) : set_rng (rng w) w = w.
Proof. destruct w; reflexivity. Qed.

Lemma bind_some {A B : Type} (m : M A) (k : A -> M B) (w w' : World)
    (a : A) :
  m w = Some (a, w') -> bind m k w = k a w'.
Proof. intros E. unfold bind. rewrite E. reflexivity. Qed.

Lemma normal_scalar_total (mean stddev : R) :
  total (normal_scalar mean stddev).
Proof.
  intros w. unfold normal_scalar.
  destruct (standard_normal (rng w)) as [z r]. eauto.
Qed.

Lemma replicate_total {A : Type} (m : M A) (n : nat) :
  total m ->
  forall w, exists l w', replicate n m w = Some (l, w') /\ length l = n.
Proof.
  intros Hm. induction n as [|n IH]; intros w; simpl.
  - exists [], w. split; reflexivity.
  - destruct (Hm w) as (a & w1 & E1).
    destruct (IH w1) as (l & w2 & E2 & Hl).
    exists (a :: l), w2. split; [|simpl; congruence].
    rewrite (bind_some _ _ _ _ _ E1), (bind_some _ _ _ _ _ E2).
    reflexivity.
Qed.

Lemma random_normal2_total (b l : nat) (mean stddev : R) (w : World) :
  exists z w', random_normal2 (b, l) mean stddev w = Some (z, w') /\
               length z = b.
Proof.
  unfold random_normal2. apply replicate_total.
  intros w0. destruct (replicate_total (normal_scalar mean stddev) l
                         (normal_scalar_total mean stddev) w0)
    as (v & w1 & E & _).
  eauto.
Qed.

(** The coefficients drawn by [gradient_penalty]: one standard-normal draw
    per batch element, in a tensor of shape [batch_size, 1, 1, 1]. *)
Lemma random_normal4_alpha (b : nat) : forall w,
  random_normal4 (b, 1, 1, 1)%nat 0 1 w =
  Some (map (fun z => [[[z]]]) (fst (normal_draws b (rng w))),
        set_rng (snd (normal_draws b (rng w))) w).
Proof.
  unfold random_normal4.
  set (m := replicate 1 (replicate 1 (replicate 1 (normal_scalar 0 1)))).
  assert (Hm : forall w, m w =
            Some ([[[fst (standard_normal (rng w))]]],
                  set_rng (snd (standard_normal (rng w))) w)).
  { intros w. subst m. simpl. unfold bind, ret, normal_scalar.
    destruct (standard_normal (rng w)) as [z r]. simpl.
    repeat f_equal. lra. }
  clearbody m. induction b as [|b IH]; intros w; simpl.
  - unfold ret. rewrite set_rng_same. reflexivity.
  - rewrite (bind_some _ _ _ _ _ (Hm w)).
    rewrite (bind_some _ _ _ _ _ (IH _)). unfold ret. simpl.
    destruct (standard_normal (rng w)) as [z r]. simpl.
    destruct (normal_draws b r) as [zs r']. reflexivity.
Qed.

Lemma length_normal_draws (n : nat) : forall r,
  length (fst (normal_draws n r)) = n.
Proof.
  induction n as [|n IH]; intros r; simpl; [reflexivity|].
  destruct (standard_normal r) as [z r1]. specialize (IH r1).
  destruct (normal_draws n r1) as [zs r2]. simpl in *. congruence.
Qed.

Lemma bind_lift {A B : Type} (o : option A) (a : A) (k : A -> M B)
    (w : World) :
  o = Some a -> bind (lift o) k w = k a w.
Proof. intros ->. reflexivity. Qed.

(** *** The run of [gradient_penalty] *)

(** On a real and a fake batch of one shape, [gradient_penalty] returns.
    With the coefficients [alphas] drawn first and the dropout masks drawn
    second, the discriminator is evaluated at the batch [interpolated] and
    the result is the penalty of its input gradient there; only the state
    of the random source changes. *)
Lemma gradient_penalty_run (self : WGAN) (b h wd c : nat)
    (real fake : Batch) (w : World) :
  batch_shape b h wd c real -> batch_shape b h wd c fake ->
  let alphas := fst (normal_draws b (rng w)) in
  let r1 := snd (normal_draws b (rng w)) in
  let mask := fst (dropout_masks r1) in
  let r2 := snd (dropout_masks r1) in
  exists interpolated,
    batch_shape b h wd c interpolated /\
    (forall i r j k,
       (i < b)%nat -> (r < h)%nat -> (j < wd)%nat -> (k < c)%nat ->
       pixel (nth i interpolated []) r j k =
       (pixel (nth i real []) r j k +
        nth i alphas 0 *
          (pixel (nth i fake []) r j k - pixel (nth i real []) r j k))%R) /\
    gradient_penalty self b real fake w =
    Some (penalty_of
            (input_gradient (discriminator (d_vars w) mask) interpolated),
          set_rng r2 w).
Proof.
  intros Sr Sf alphas r1 mask r2.
  destruct (elementwise4_total Rminus b h wd c fake real Sf Sr)
    as (diff & Ed & Sd).
  destruct (broadcast_mul_alpha alphas b h wd c diff
              (length_normal_draws b (rng w)) Sd)
    as (scaled & Es & Ss & Ns).
  destruct (elementwise4_total Rplus b h wd c real scaled Sr Ss)
    as (interpolated & Ei & Si).
  exists interpolated. split; [exact Si|]. split.
  - intros i r j k Hi Hr Hj Hk.
    rewrite (elementwise4_pixel Rplus b h wd c real scaled interpolated
               i r j k Ei Si Hi Hr Hj Hk).
    rewrite (Ns i Hi), pixel_scale3.
    rewrite (elementwise4_pixel Rminus b h wd c fake real diff
               i r j k Ed Sd Hi Hr Hj Hk).
    reflexivity.
  - unfold gradient_penalty.
    rewrite (bind_some _ _ _ _ _ (random_normal4_alpha b w)).
    fold alphas. fold r1.
    rewrite (bind_lift _ _ _ _ Ed), (bind_lift _ _ _ _ Es),
      (bind_lift _ _ _ _ Ei).
    unfold bind, watched_discriminator, ret. simpl.
    subst mask r2. destruct (dropout_masks r1) as [m r]. simpl.
    unfold penalty_of. rewrite map_map. f_equal. f_equal. f_equal.
    apply map_ext. intros g. rewrite norm_is_l2_norm. reflexivity.
Qed.

(** *** What a computation leaves unchanged *)

Lemma same_model_refl (w : World) : same_model w w.
Proof. repeat split. Qed.

Lemma same_model_trans (w1 w2 w3 : World) :
  same_model w1 w2 -> same_model w2 w3 -> same_model w1 w3.
Proof.
  unfold same_model, same_variables.
  intros ((A1 & A2) & A3 & A4) ((B1 & B2) & B3 & B4).
  repeat split; congruence.
Qed.

Lemma same_variables_refl (w : World) : same_variables w w.
Proof. split; reflexivity. Qed.

Lemma same_variables_trans (w1 w2 w3 : World) :
  same_variables w1 w2 -> same_variables w2 w3 -> same_variables w1 w3.
Proof. unfold same_variables. intros [A1 A2] [B1 B2]. split; congruence. Qed.

Lemma same_model_variables (w w' : World) :
  same_model w w' -> same_variables w w'.
Proof. intros [H _]. exact H. Qed.

Section Preservation.

Variable P : World -> World -> Prop.
Hypothesis P_refl : forall w, P w w.
Hypothesis P_trans : forall w1 w2 w3, P w1 w2 -> P w2 w3 -> P w1 w3.

Lemma preserves_ret {A : Type} (a : A) : preserves P (ret a).
Proof. intros w a' w' H. injection H as _ <-. apply P_refl. Qed.

Lemma preserves_lift {A : Type} (o : option A) : preserves P (lift o).
Proof.
  intros w a w' H. unfold lift in H. destruct o; [|discriminate].
  injection H as _ <-. apply P_refl.
Qed.

Lemma preserves_bind {A B : Type} (m : M A) (k : A -> M B) :
  preserves P m -> (forall a, preserves P (k a)) -> preserves P (bind m k).
Proof.
  intros Hm Hk w b w' H. unfold bind in H.
  destruct (m w) as [[a w1]|] eqn:E; [|discriminate].
  apply P_trans with w1; [exact (Hm _ _ _ E)|exact (Hk _ _ _ _ H)].
Qed.

Lemma preserves_replicate {A : Type} (m : M A) (n : nat) :
  preserves P m -> preserves P (replicate n m).
Proof.
  intros Hm. induction n as [|n IH]; simpl.
  - apply preserves_ret.
  - apply preserves_bind; [exact Hm|]. intros a.
    apply preserves_bind; [exact IH|]. intros l. apply preserves_ret.
Qed.

Lemma preserves_for_each {I S : Type} (body : I -> S -> M S)
    (items : list I) :
  (forall i s, preserves P (body i s)) ->
  forall s, preserves P (for_each items body s).
Proof.
  intros Hb. induction items as [|i items IH]; intros s; simpl.
  - apply preserves_ret.
  - apply preserves_bind; [apply Hb|]. exact IH.
Qed.

Lemma preserves_gradient_tape_d (body : M R) :
  preserves P body -> preserves P (gradient_tape_d body).
Proof.
  intros Hb w a w' H. unfold gradient_tape_d in H.
  destruct (body w) as [[l w1]|] eqn:E; [|discriminate].
  injection H as _ <-. exact (Hb _ _ _ E).
Qed.

Lemma preserves_gradient_tape_g (body : M R) :
  preserves P body -> preserves P (gradient_tape_g body).
Proof.
  intros Hb w a w' H. unfold gradient_tape_g in H.
  destruct (body w) as [[l w1]|] eqn:E; [|discriminate].
  injection H as _ <-. exact (Hb _ _ _ E).
Qed.

End Preservation.

(** The operations that only advance the random source. *)
Lemma preserves_normal_scalar (mean stddev : R) :
  preserves same_model (normal_scalar mean stddev).
Proof.
  intros w a w' H. unfold normal_scalar in H.
  destruct (standard_normal (rng w)) as [z r]. injection H as _ <-.
  repeat split.
Qed.

Lemma preserves_call_generator (z : list Vector) :
  preserves same_model (call_generator z).
Proof.
  intros w a w' H. unfold call_generator in H. injection H as _ <-.
  apply same_model_refl.
Qed.

Lemma preserves_call_discriminator (x : Batch) :
  preserves same_model (call_discriminator x).
Proof.
  intros w a w' H. unfold call_discriminator in H.
  destruct (dropout_masks (rng w)) as [m r]. injection H as _ <-.
  repeat split.
Qed.

Lemma preserves_watched_discriminator (x : Batch) :
  preserves same_model (watched_discriminator x).
Proof.
  intros w a w' H. unfold watched_discriminator in H.
  destruct (dropout_masks (rng w)) as [m r]. injection H as _ <-.
  repeat split.
Qed.

Ltac model_frame :=
  repeat first
    [ exact same_model_refl
    | exact same_model_trans
    | apply preserves_normal_scalar
    | apply preserves_call_generator
    | apply preserves_call_discriminator
    | apply preserves_watched_discriminator
    | apply preserves_lift
    | apply preserves_ret
    | apply preserves_replicate
    | apply preserves_bind
    | intro ].

Lemma preserves_random_normal2 (shape : nat * nat) (mean stddev : R) :
  preserves same_model (random_normal2 shape mean stddev).
Proof. destruct shape as [b l]. unfold random_normal2. model_frame. Qed.

Lemma preserves_random_normal4 (shape : nat * nat * nat * nat)
    (mean stddev : R) :
  preserves same_model (random_normal4 shape mean stddev).
Proof.
  destruct shape as [[[b h] w] c]. unfold random_normal4. model_frame.
Qed.

Lemma preserves_gradient_penalty (self : WGAN) (batch_size : nat)
    (real fake : Batch) :
  preserves same_model (gradient_penalty self batch_size real fake).
Proof.
  unfold gradient_penalty.
  apply preserves_bind; [exact same_model_trans| |intros alpha].
  { apply preserves_random_normal4. }
  apply preserves_bind; [exact same_model_trans| |intros diff].
  { model_frame. }
  apply preserves_bind; [exact same_model_trans| |intros scaled].
  { model_frame. }
  apply preserves_bind; [exact same_model_trans| |intros interpolated].
  { model_frame. }
  apply preserves_bind; [exact same_model_trans| |intros [pred gp_tape]].
  { model_frame. }
  model_frame.
Qed.

Lemma preserves_weaken {A : Type} (m : M A) :
  preserves same_model m -> preserves same_variables m.
Proof. intros H w a w' E. apply same_model_variables. exact (H w a w' E). Qed.

Lemma preserves_apply_gradients_d (g : DGrads) :
  inert_optimizers -> preserves same_variables (apply_gradients_d g).
Proof.
  intros [Hd _] w a w' H. unfold apply_gradients_d in H.
  specialize (Hd (d_opt w) g (d_vars w)).
  destruct (d_apply_gradients (d_opt w) g (d_vars w)) as [v o].
  injection H as _ <-. simpl in *. split; [exact Hd|reflexivity].
Qed.

Lemma preserves_apply_gradients_g (g : GGrads) :
  inert_optimizers -> preserves same_variables (apply_gradients_g g).
Proof.
  intros [_ Hg] w a w' H. unfold apply_gradients_g in H.
  specialize (Hg (g_opt w) g (g_vars w)).
  destruct (g_apply_gradients (g_opt w) g (g_vars w)) as [v o].
  injection H as _ <-. simpl in *. split; [reflexivity|exact Hg].
Qed.

(** With optimizers that leave the variables alone, a training step
    leaves them alone. *)
Lemma preserves_train_step (self : WGAN) (real_images : data) :
  inert_optimizers ->
  preserves same_variables (train_step self real_images).
Proof.
  intros Hi. unfold train_step, for_range.
  repeat first
    [ exact same_variables_refl
    | exact same_variables_trans
    | apply preserves_apply_gradients_d; exact Hi
    | apply preserves_apply_gradients_g; exact Hi
    | apply preserves_weaken;
      first [ apply preserves_random_normal2
            | apply preserves_call_generator
            | apply preserves_call_discriminator
            | apply preserves_gradient_penalty ]
    | apply preserves_lift
    | apply preserves_ret
    | apply preserves_for_each
    | apply preserves_gradient_tape_d
    | apply preserves_gradient_tape_g
    | apply preserves_bind
    | match goal with
      | |- preserves _ (let '(_, _) := ?t in _) => destruct t
      end
    | intro ].
Qed.

(** *** The phases of a training step *)

Lemma call_discriminator_run (x : Batch) (w : World) :
  call_discriminator x w =
  Some (discriminator (d_vars w) (fst (dropout_masks (rng w))) x,
        set_rng (snd (dropout_masks (rng w))) w).
Proof.
  unfold call_discriminator. destruct (dropout_masks (rng w)); reflexivity.
Qed.

Lemma apply_gradients_d_total (g : DGrads) : total (apply_gradients_d g).
Proof.
  intros w. unfold apply_gradients_d.
  destruct (d_apply_gradients (d_opt w) g (d_vars w)). eauto.
Qed.

Lemma apply_gradients_g_total (g : GGrads) : total (apply_gradients_g g).
Proof.
  intros w. unfold apply_gradients_g.
  destruct (g_apply_gradients (g_opt w) g (g_vars w)). eauto.
Qed.

(** On a real batch of the shape the generator produces, the
    discriminator phase returns. *)
Lemma discriminator_phase_total (self : WGAN) (b h wd c : nat)
    (real : Batch) :
  batch_shape b h wd c real -> generator_shape h wd c ->
  total (discriminator_phase self real).
Proof.
  intros Sr Hg w. unfold discriminator_phase.
  destruct (random_normal2_total (length real) (latent_dim self) 0 1 w)
    as (z & w1 & E1 & Hz).
  rewrite (bind_some _ _ _ _ _ E1).
  assert (Sf : forall gv, batch_shape b h wd c (generator gv z)).
  { intros gv. pose proof (Hg gv z) as H. rewrite Hz in H.
    destruct Sr as [Hl _]. rewrite Hl in H. exact H. }
  assert (Hb : length real = b) by (destruct Sr; assumption).
  match goal with
  | |- exists a w', bind (gradient_tape_d ?body) _ _ = _ =>
      assert (Eb : exists l w2, body w1 = Some (l, w2))
  end.
  { unfold call_generator.
    erewrite bind_some by reflexivity.
    erewrite bind_some by apply call_discriminator_run.
    erewrite bind_some by apply call_discriminator_run.
    rewrite Hb.
    match goal with
    | |- exists l w2, bind (gradient_penalty _ _ _ ?fake) _ ?w0 = _ =>
        destruct (gradient_penalty_run self b h wd c real fake w0 Sr
                    (Sf _)) as (x & _ & _ & E)
    end.
    rewrite (bind_some _ _ _ _ _ E). unfold ret. eauto. }
  destruct Eb as (l & w2 & Eb).
  erewrite bind_some by (unfold gradient_tape_d; rewrite Eb; reflexivity).
  simpl snd. simpl fst.
  match goal with
  | |- exists a w', bind (apply_gradients_d ?g) _ _ = _ =>
      destruct (apply_gradients_d_total g w2) as ([] & w3 & E3)
  end.
  rewrite (bind_some _ _ _ _ _ E3). unfold ret. eauto.
Qed.

Lemma generator_phase_total (self : WGAN) (batch_size : nat) :
  total (generator_phase self batch_size).
Proof.
  intros w. unfold generator_phase.
  destruct (random_normal2_total batch_size (latent_dim self) 0 1 w)
    as (z & w1 & E1 & Hz).
  rewrite (bind_some _ _ _ _ _ E1).
  match goal with
  | |- exists a w', bind (gradient_tape_g ?body) _ _ = _ =>
      assert (Eb : exists l w2, body w1 = Some (l, w2))
  end.
  { unfold call_generator.
    erewrite bind_some by reflexivity.
    erewrite bind_some by apply call_discriminator_run.
    unfold ret. eauto. }
  destruct Eb as (l & w2 & Eb).
  erewrite bind_some by (unfold gradient_tape_g; rewrite Eb; reflexivity).
  simpl snd. simpl fst.
  match goal with
  | |- exists a w', bind (apply_gradients_g ?g) _ _ = _ =>
      destruct (apply_gradients_g_total g w2) as ([] & w3 & E3)
  end.
  rewrite (bind_some _ _ _ _ _ E3). unfold ret. eauto.
Qed.

(** A training step with three discriminator steps and the loss functions
    of the notebook is three discriminator phases followed by one
    generator phase; it returns the loss of the last discriminator phase
    and the loss of the generator phase. *)
Lemma train_step_run (self : WGAN) (real : Batch)
    (w w1 w2 w3 w4 : World) (d1 d2 d3 g : R) :
  d_steps self = 3%nat ->
  d_loss_fn self = discriminator_loss ->
  g_loss_fn self = generator_loss ->
  discriminator_phase self real w = Some (d1, w1) ->
  discriminator_phase self real w1 = Some (d2, w2) ->
  discriminator_phase self real w2 = Some (d3, w3) ->
  generator_phase self (length real) w3 = Some (g, w4) ->
  train_step self (Bare (Images real)) w = Some ((d3, g), w4).
Proof.
  intros H3 Hd Hg E1 E2 E3 E4.
  unfold train_step. rewrite H3, Hd, Hg.
  erewrite bind_lift by reflexivity.
  erewrite bind_lift by reflexivity.
  match goal with
  | |- bind (for_range 3 ?body None) _ _ = _ =>
      assert (Hbody : forall i s w0 d w',
                discriminator_phase self real w0 = Some (d, w') ->
                body i s w0 = Some (Some d, w'))
  end.
  { intros i s w0 d w' E. unfold discriminator_phase in E.
    unfold bind in E |- *.
    destruct (random_normal2 (length real, latent_dim self) 0 1 w0)
      as [[z wz]|]; [|discriminate].
    unfold critic_loss in E. unfold discriminator_loss. cbv zeta.
    match type of E with
    | match ?t with _ => _ end = _ =>
        destruct t as [[[l gr] wt]|]; [|discriminate]
    end.
    simpl in E.
    destruct (apply_gradients_d gr wt) as [[[] wa]|]; [|discriminate].
    unfold ret in *. injection E as <- <-. reflexivity. }
  assert (Eloop : forall body,
            (forall i s w0 d w',
               discriminator_phase self real w0 = Some (d, w') ->
               body i s w0 = Some (Some d, w')) ->
            for_range 3 body None w = Some (Some d3, w3)).
  { intros body Hb. unfold for_range. simpl.
    rewrite (bind_some _ _ _ _ _ (Hb _ _ _ _ _ E1)).
    rewrite (bind_some _ _ _ _ _ (Hb _ _ _ _ _ E2)).
    rewrite (bind_some _ _ _ _ _ (Hb _ _ _ _ _ E3)).
    reflexivity. }
  rewrite (bind_some _ _ _ _ _ (Eloop _ Hbody)).
  unfold generator_phase in E4. unfold bind in E4 |- *.
  destruct (random_normal2 (length real, latent_dim self) 0 1 w3)
    as [[z wz]|]; [|discriminate].
  unfold generator_loss.
  match type of E4 with
  | match ?t with _ => _ end = _ =>
      destruct t as [[[l gr] wt]|]; [|discriminate]
  end.
  simpl in E4.
  destruct (apply_gradients_g gr wt) as [[[] wa]|]; [|discriminate].
  unfold ret in *. injection E4 as <- <-. reflexivity.
Qed.

Lemma train_step_returns (self : WGAN) (b h wd c : nat) (real : Batch)
    (w : World) :
  d_steps self = 3%nat ->
  d_loss_fn self = discriminator_loss ->
  g_loss_fn self = generator_loss ->
  batch_shape b h wd c real -> generator_shape h wd c ->
  exists losses w', train_step self (Bare (Images real)) w = Some (losses, w').
Proof.
  intros H3 Hd Hg Sr Hs.
  pose proof (discriminator_phase_total self b h wd c real Sr Hs) as HD.
  destruct (HD w) as (d1 & w1 & E1).
  destruct (HD w1) as (d2 & w2 & E2).
  destruct (HD w2) as (d3 & w3 & E3).
  destruct (generator_phase_total self (length real) w3) as (g & w4 & E4).
  exists (d3, g), w4.
  exact (train_step_run self real w w1 w2 w3 w4 d1 d2 d3 g
           H3 Hd Hg E1 E2 E3 E4).
Qed.

(** *** A training step as updates of the two networks *)

Lemma set_d_vars_same (w : World) : set_d_vars (d_vars w) w = w.
Proof. destruct w; reflexivity. Qed.

Lemma set_g_vars_same (w : World) : set_g_vars (g_vars w) w = w.
Proof. destruct w; reflexivity. Qed.

Lemma replicate_normal_draws (l : nat) : forall w,
  replicate l (normal_scalar 0 1) w =
  Some (fst (normal_draws l (rng w)), set_rng (snd (normal_draws l (rng w))) w).
Proof.
  induction l as [|l IH]; intros w; simpl.
  - unfold ret. rewrite set_rng_same. reflexivity.
  - unfold bind at 1. unfold normal_scalar at 1.
    destruct (standard_normal (rng w)) as [z r] eqn:Ez.
    rewrite (bind_some _ _ _ _ _ (IH _)). unfold ret. simpl.
    destruct (normal_draws l r) as [zs r']. simpl.
    repeat f_equal. lra.
Qed.

(** The latent vectors of a phase: [b] rows of [l] consecutive draws. *)
Lemma random_normal2_rows (b l : nat) : forall w,
  random_normal2 (b, l) 0 1 w =
  Some (fst (normal_rows b l (rng w)),
        set_rng (snd (normal_rows b l (rng w))) w).
Proof.
  unfold random_normal2.
  induction b as [|b IH]; intros w; simpl.
  - unfold ret. rewrite set_rng_same. reflexivity.
  - rewrite (bind_some _ _ _ _ _ (replicate_normal_draws l w)).
    rewrite (bind_some _ _ _ _ _ (IH _)). unfold ret. simpl.
    destruct (normal_draws l (rng w)) as [row r1]. simpl.
    destruct (normal_rows b l r1) as [rows r2]. reflexivity.
Qed.

Lemma length_normal_rows (b l : nat) : forall r,
  length (fst (normal_rows b l r)) = b.
Proof.
  induction b as [|b IH]; intros r; simpl; [reflexivity|].
  destruct (normal_draws l r) as [row r1]. specialize (IH r1).
  destruct (normal_rows b l r1) as [rows r2]. simpl in *. congruence.
Qed.

(** The penalty from every state with a given state of the random source:
    the interpolated batch is the same whatever the variables of the
    discriminator are. *)
Lemma gradient_penalty_at (self : WGAN) (b h wd c : nat)
    (real fake : Batch) (r : Rng) :
  batch_shape b h wd c real -> batch_shape b h wd c fake ->
  exists interpolated,
    interpolation b h wd c (fst (normal_draws b r)) real fake
      interpolated /\
    forall w, rng w = r ->
      gradient_penalty self b real fake w =
      Some (penalty_of
              (input_gradient
                 (discriminator (d_vars w)
                    (fst (dropout_masks (snd (normal_draws b r)))))
                 interpolated),
            set_rng (snd (dropout_masks (snd (normal_draws b r)))) w).
Proof.
  intros Sr Sf.
  destruct (elementwise4_total Rminus b h wd c fake real Sf Sr)
    as (diff & Ed & Sd).
  destruct (broadcast_mul_alpha (fst (normal_draws b r)) b h wd c diff
              (length_normal_draws b r) Sd)
    as (scaled & Es & Ss & Ns).
  destruct (elementwise4_total Rplus b h wd c real scaled Sr Ss)
    as (interpolated & Ei & Si).
  exists interpolated. split; [split; [exact Si|]|].
  - intros i r0 j k Hi Hr Hj Hk.
    rewrite (elementwise4_pixel Rplus b h wd c real scaled interpolated
               i r0 j k Ei Si Hi Hr Hj Hk).
    rewrite (Ns i Hi), pixel_scale3.
    rewrite (elementwise4_pixel Rminus b h wd c fake real diff
               i r0 j k Ed Sd Hi Hr Hj Hk).
    reflexivity.
  - intros w Hw. subst r. unfold gradient_penalty.
    rewrite (bind_some _ _ _ _ _ (random_normal4_alpha b w)).
    rewrite (bind_lift _ _ _ _ Ed), (bind_lift _ _ _ _ Es),
      (bind_lift _ _ _ _ Ei).
    unfold bind, watched_discriminator, ret. simpl.
    destruct (dropout_masks (snd (normal_draws b (rng w)))) as [m r].
    simpl.
    unfold penalty_of. rewrite map_map. f_equal. f_equal. f_equal.
    apply map_ext. intros g. rewrite norm_is_l2_norm. reflexivity.
Qed.

(** The loss recorded on the tape of a discriminator step, as a function
    of the variables of the discriminator. *)
Lemma critic_tape_at (self : WGAN) (h wd c : nat) (real : Batch)
    (z : list Vector) (w1 : World) :
  batch_shape (length real) h wd c real ->
  batch_shape (length real) h wd c (generator (g_vars w1) z) ->
  let fake := generator (g_vars w1) z in
  let fake_masks := dropout_masks (rng w1) in
  let real_masks := dropout_masks (snd fake_masks) in
  let alpha := normal_draws (length real) (snd real_masks) in
  let penalty_masks := dropout_masks (snd alpha) in
  exists interpolated,
    interpolation (length real) h wd c (fst alpha) real fake interpolated /\
    forall v,
      bind (call_generator z) (fun fake_images =>
      bind (call_discriminator fake_images) (fun fake_logits =>
      bind (call_discriminator real) (fun real_logits =>
      let d_cost := d_loss_fn self real_logits fake_logits in
      bind (gradient_penalty self (length real) real fake_images) (fun gp =>
      ret (d_cost + gp * gp_weight self)%R)))) (set_d_vars v w1) =
      Some ((d_loss_fn self (discriminator v (fst real_masks) real)
               (discriminator v (fst fake_masks) fake)
             + penalty_of
                 (input_gradient (discriminator v (fst penalty_masks))
                    interpolated)
               * gp_weight self)%R,
            set_rng (snd penalty_masks) (set_d_vars v w1)).
Proof.
  intros Sr Sf fake fake_masks real_masks alpha penalty_masks.
  destruct (gradient_penalty_at self (length real) h wd c real fake
              (snd real_masks) Sr Sf) as (x & Hx & Hgp).
  exists x. split; [exact Hx|]. intros v.
  unfold call_generator.
  erewrite bind_some by reflexivity.
  erewrite bind_some by apply call_discriminator_run.
  erewrite bind_some by apply call_discriminator_run.
  cbv zeta.
  erewrite bind_some by (apply Hgp; reflexivity).
  reflexivity.
Qed.

(** One pass through the loop body of [train_step] is one discriminator
    update. *)
Lemma discriminator_step_update (self : WGAN) (h wd c : nat) (real : Batch)
    (w : World) :
  batch_shape (length real) h wd c real -> generator_shape h wd c ->
  exists d w',
    bind (random_normal2 (length real, latent_dim self) 0 1)
      (fun random_latent_vectors =>
       bind (gradient_tape_d
               (bind (call_generator random_latent_vectors)
                  (fun fake_images =>
                   bind (call_discriminator fake_images) (fun fake_logits =>
                   bind (call_discriminator real) (fun real_logits =>
                   let d_cost := d_loss_fn self real_logits fake_logits in
                   bind (gradient_penalty self (length real) real
                           fake_images) (fun gp =>
                   ret (d_cost + gp * gp_weight self)%R))))))
         (fun tape =>
            let '(d_loss, d_gradient) := tape in
            bind (apply_gradients_d d_gradient) (fun _ =>
            ret (Some d_loss)))) w = Some (Some d, w') /\
    discriminator_update (d_loss_fn self) self h wd c real w d w'.
Proof.
  intros Sr Hg.
  rewrite (bind_some _ _ _ _ _
             (random_normal2_rows (length real) (latent_dim self) w)).
  set (noise := normal_rows (length real) (latent_dim self) (rng w)).
  set (w1 := set_rng (snd noise) w).
  assert (Sf : batch_shape (length real) h wd c
                 (generator (g_vars w1) (fst noise))).
  { pose proof (Hg (g_vars w1) (fst noise)) as H.
    unfold noise in H at 1. rewrite length_normal_rows in H. exact H. }
  destruct (critic_tape_at self h wd c real (fst noise) w1 Sr Sf)
    as (x & Hx & Hbody).
  cbv zeta in Hbody.
  pose proof (Hbody (d_vars w1)) as E1. rewrite set_d_vars_same in E1.
  cbv zeta. unfold bind at 1. unfold gradient_tape_d at 1. rewrite E1.
  match goal with
  | |- context [d_gradient ?f (d_vars w1)] => set (loss_of := f)
  end.
  unfold bind at 1. unfold apply_gradients_d at 1. unfold ret.
  simpl d_opt. simpl d_vars.
  destruct (d_apply_gradients (d_opt w) (d_gradient loss_of (d_vars w))
              (d_vars w)) as [v' o'] eqn:Eu.
  eexists. eexists. split; [reflexivity|].
  unfold discriminator_update. cbv zeta. fold noise.
  exists x, loss_of. split; [exact Hx|]. split; [|split].
  - intros v. unfold loss_of. rewrite (Hbody v). reflexivity.
  - unfold loss_of.
    change (d_vars w) with (d_vars w1). rewrite (Hbody (d_vars w1)).
    reflexivity.
  - rewrite Eu. reflexivity.
Qed.

(** The tail of [train_step] is one generator update. *)
Lemma generator_step_update (self : WGAN) (batch_size : nat) (w : World) :
  exists g w',
    generator_update (g_loss_fn self) self batch_size w g w' /\
    forall (A : Type) (k : R -> M A),
      bind (random_normal2 (batch_size, latent_dim self) 0 1)
        (fun random_latent_vectors =>
         bind (gradient_tape_g
                 (bind (call_generator random_latent_vectors)
                    (fun generated_images =>
                     bind (call_discriminator generated_images)
                       (fun gen_img_logits =>
                        ret (g_loss_fn self gen_img_logits)))))
           (fun tape =>
              let '(g_loss, gen_gradient) := tape in
              bind (apply_gradients_g gen_gradient) (fun _ => k g_loss))) w
      = k g w'.
Proof.
  set (noise := normal_rows batch_size (latent_dim self) (rng w)).
  set (w1 := set_rng (snd noise) w).
  assert (Hbody : forall v,
            bind (call_generator (fst noise))
              (fun generated_images =>
               bind (call_discriminator generated_images)
                 (fun gen_img_logits =>
                  ret (g_loss_fn self gen_img_logits)))
              (set_g_vars v w1) =
            Some (g_loss_fn self
                    (discriminator (d_vars w)
                       (fst (dropout_masks (snd noise)))
                       (generator v (fst noise))),
                  set_rng (snd (dropout_masks (snd noise)))
                    (set_g_vars v w1))).
  { intros v. unfold call_generator.
    erewrite bind_some by reflexivity.
    erewrite bind_some by apply call_discriminator_run.
    reflexivity. }
  pose proof (Hbody (g_vars w1)) as E1. rewrite set_g_vars_same in E1.
  set (loss_of := fun v : GVars =>
         option_map fst
           (bind (call_generator (fst noise))
              (fun generated_images =>
               bind (call_discriminator generated_images)
                 (fun gen_img_logits =>
                  ret (g_loss_fn self gen_img_logits)))
              (set_g_vars v w1))).
  destruct (g_apply_gradients (g_opt w) (g_gradient loss_of (g_vars w))
              (g_vars w)) as [v' o'] eqn:Eu.
  eexists. eexists. split.
  - unfold generator_update. cbv zeta. fold noise.
    exists loss_of. split; [|split].
    + intros v. unfold loss_of. rewrite (Hbody v). reflexivity.
    + unfold loss_of. change (g_vars w) with (g_vars w1).
      rewrite (Hbody (g_vars w1)). reflexivity.
    + rewrite Eu. reflexivity.
  - intros A k.
    rewrite (bind_some _ _ _ _ _
               (random_normal2_rows batch_size (latent_dim self) w)).
    fold noise. fold w1.
    unfold bind at 1. unfold gradient_tape_g at 1. rewrite E1.
    fold loss_of.
    unfold bind at 1. unfold apply_gradients_g at 1.
    simpl g_opt. simpl g_vars. rewrite Eu. reflexivity.
Qed.

Lemma discriminator_loop_updates (self : WGAN) (h wd c : nat)
    (real : Batch) (body : nat -> option R -> M (option R)) :
  (forall i s w0, exists d w',
     body i s w0 = Some (Some d, w') /\
     discriminator_update (d_loss_fn self) self h wd c real w0 d w') ->
  forall items last w, exists d_loss w',
    for_each items body last w = Some (d_loss, w') /\
    discriminator_updates (d_loss_fn self) self h wd c real (length items)
      w last d_loss w'.
Proof.
  intros Hbody items. induction items as [|i items IH]; intros last w.
  - exists last, w. simpl. repeat split.
  - destruct (Hbody i last w) as (d1 & w1 & E1 & U1).
    destruct (IH (Some d1) w1) as (d_loss & w' & E & U).
    exists d_loss, w'. split.
    + cbn [for_each]. rewrite (bind_some _ _ _ _ _ E1). exact E.
    + cbn [length discriminator_updates]. exists d1, w1. split; assumption.
Qed.

(** After at least one update the last loss is known. *)
Lemma discriminator_updates_last (loss_fn : Vector -> Vector -> R)
    (self : WGAN) (h wd c : nat) (real : Batch) (n : nat) :
  forall w last d_loss w',
    discriminator_updates loss_fn self h wd c real n w last d_loss w' ->
    (last <> None \/ (1 <= n)%nat) -> exists d, d_loss = Some d.
Proof.
  induction n as [|n IH]; intros w last d_loss w' U Hn.
  - destruct U as [-> _]. destruct Hn as [Hl|Hn]; [|lia].
    destruct last as [a|]; [eauto|contradiction].
  - destruct U as (d1 & w1 & _ & U).
    apply (IH _ _ _ _ U). left. discriminate.
Qed.

(** A training step on an image batch: [d_steps] discriminator updates in
    a row, then one generator update from the state they leave; the losses
    returned are the one of the last discriminator update and the one of
    the generator update. *)
Lemma train_step_trains (self : WGAN) (h wd c : nat) (real : Batch)
    (w : World) :
  (1 <= d_steps self)%nat ->
  batch_shape (length real) h wd c real -> generator_shape h wd c ->
  exists d g wn w',
    discriminator_updates (d_loss_fn self) self h wd c real (d_steps self)
      w None (Some d) wn /\
    generator_update (g_loss_fn self) self (length real) wn g w' /\
    train_step self (Bare (Images real)) w = Some ((d, g), w').
Proof.
  intros Hn Sr Hg. unfold train_step.
  erewrite bind_lift by reflexivity.
  erewrite bind_lift by reflexivity.
  cbv zeta. unfold for_range.
  match goal with
  | |- exists d g wn w', _ /\ _ /\
         bind (for_each _ ?body None) _ _ = _ =>
      destruct (discriminator_loop_updates self h wd c real body
                  (fun i s w0 =>
                     discriminator_step_update self h wd c real w0 Sr Hg)
                  (seq 0 (d_steps self)) None w)
        as (d_loss & wn & Eloop & U)
  end.
  rewrite length_seq in U.
  destruct (discriminator_updates_last _ _ _ _ _ _ _ _ _ _ _ U
              (or_intror Hn)) as (d & ->).
  destruct (generator_step_update self (length real) wn)
    as (g & w' & G & Hk).
  exists d, g, wn, w'. split; [exact U|]. split; [exact G|].
  rewrite (bind_some _ _ _ _ _ Eloop).
  pose proof (Hk (R * R)%type
                (fun g_loss =>
                   bind (lift (Some d)) (fun d_loss =>
                   ret (d_loss, g_loss)))) as E.
  cbv beta in E. etransitivity; [exact E|]. reflexivity.
Qed.

(** *** The statements about [gradient_penalty] and [train_step] *)

(** C2. On a real and a fake batch of one shape, [gradient_penalty]
    returns the mean over the batch of [(norm - 1)^2], where [norm] is the
    Euclidean norm, over the flattened non-batch axes, of the gradient of
    the discriminator with respect to its input at the interpolated batch;
    on a non-empty batch the result is 0 exactly when every one of these
    norms is 1. *)
Theorem gradient_penalty_value (self : WGAN) (b h wd c : nat)
    (real fake : Batch) (w : World) :
  batch_shape b h wd c real -> batch_shape b h wd c fake ->
  exists interpolated mask w',
    let grads :=
      input_gradient (discriminator (d_vars w) mask) interpolated in
    let gp := reduce_mean (map (fun g => ((l2_norm g - 1) ^ 2)%R) grads) in
    batch_shape b h wd c interpolated /\
    (forall i r j k,
       (i < b)%nat -> (r < h)%nat -> (j < wd)%nat -> (k < c)%nat ->
       pixel (nth i interpolated []) r j k =
       (pixel (nth i real []) r j k +
        nth i (fst (normal_draws b (rng w))) 0 *
          (pixel (nth i fake []) r j k - pixel (nth i real []) r j k))%R) /\
    gradient_penalty self b real fake w = Some (gp, w') /\
    (grads <> [] ->
     gp = 0%R <-> Forall (fun g => l2_norm g = 1%R) grads).
Proof.
  intros Sr Sf.
  destruct (gradient_penalty_run self b h wd c real fake w Sr Sf)
    as (interpolated & Si & Hp & E).
  exists interpolated. eexists. eexists. cbv zeta.
  split; [exact Si|]. split; [exact Hp|]. split; [exact E|].
  intros Hne. apply penalty_of_zero. exact Hne.
Qed.

(** C6. [gradient_penalty] draws one coefficient per batch element from
    the standard normal source, as a tensor of shape [batch_size, 1, 1, 1],
    and evaluates the discriminator at the batch whose entries are
    [real + alpha * (fake - real)] with the coefficient of their batch
    element. *)
Theorem gradient_penalty_interpolation (self : WGAN) (b h wd c : nat)
    (real fake : Batch) (w : World) :
  batch_shape b h wd c real -> batch_shape b h wd c fake ->
  let alphas := fst (normal_draws b (rng w)) in
  let r1 := snd (normal_draws b (rng w)) in
  length alphas = b /\
  random_normal4 (b, 1, 1, 1)%nat 0 1 w =
    Some (map (fun a => [[[a]]]) alphas, set_rng r1 w) /\
  exists interpolated,
    (forall i r j k,
       (i < b)%nat -> (r < h)%nat -> (j < wd)%nat -> (k < c)%nat ->
       pixel (nth i interpolated []) r j k =
       (pixel (nth i real []) r j k +
        nth i alphas 0 *
          (pixel (nth i fake []) r j k - pixel (nth i real []) r j k))%R) /\
    gradient_penalty self b real fake w =
    Some (penalty_of
            (input_gradient
               (discriminator (d_vars w) (fst (dropout_masks r1)))
               interpolated),
          set_rng (snd (dropout_masks r1)) w).
Proof.
  intros Sr Sf alphas r1.
  split; [apply length_normal_draws|].
  split; [apply random_normal4_alpha|].
  destruct (gradient_penalty_run self b h wd c real fake w Sr Sf)
    as (interpolated & _ & Hp & E).
  exists interpolated. split; [exact Hp|exact E].
Qed.

(** C9. A batch handed over as a tuple is trained on as its first
    component alone.  With a batch of images first, and whatever the other
    components are, the step is the step on that batch as a bare tensor:
    [d_steps] discriminator updates on it in a row, then one generator
    update for its batch size, none of which reads the other components;
    the losses returned are those of the last discriminator update and of
    the generator update. *)
Theorem train_step_tuple_first (self : WGAN) (b h wd c : nat)
    (real : Batch) (rest : list tensor) (w : World) :
  (1 <= d_steps self)%nat -> (1 <= b)%nat ->
  batch_shape b h wd c real -> generator_shape h wd c ->
  exists d g wn w',
    discriminator_updates (d_loss_fn self) self h wd c real (d_steps self)
      w None (Some d) wn /\
    generator_update (g_loss_fn self) self b wn g w' /\
    train_step self (Tuple (Images real :: rest)) w = Some ((d, g), w') /\
    train_step self (Tuple (Images real :: rest)) w =
    train_step self (Bare (Images real)) w.
Proof.
  intros Hn _ Sr Hg.
  assert (Hb : length real = b) by (destruct Sr; assumption).
  subst b.
  destruct (train_step_trains self h wd c real w Hn Sr Hg)
    as (d & g & wn & w' & U & G & E).
  exists d, g, wn, w'. split; [exact U|]. split; [exact G|].
  split; [|reflexivity].
  change (train_step self (Tuple (Images real :: rest)) w)
    with (train_step self (Bare (Images real)) w).
  exact E.
Qed.

(** C10. [gradient_penalty] leaves the trainable variables of both
    networks and the optimizer slots as they were; and with optimizers
    whose [apply_gradients] leaves the variables alone, a whole training
    step leaves them alone: every update of a variable is made by an
    [apply_gradients] call. *)
Theorem gradient_penalty_frame :
  (forall (self : WGAN) (batch_size : nat) (real fake : Batch)
          (w w' : World) (gp : R),
     gradient_penalty self batch_size real fake w = Some (gp, w') ->
     d_vars w' = d_vars w /\ g_vars w' = g_vars w /\
     d_opt w' = d_opt w /\ g_opt w' = g_opt w) /\
  (inert_optimizers ->
   forall (self : WGAN) (real_images : data) (w w' : World)
          (losses : R * R),
     train_step self real_images w = Some (losses, w') ->
     d_vars w' = d_vars w /\ g_vars w' = g_vars w).
Proof.
  split.
  - intros self batch_size real fake w w' gp E.
    destruct (preserves_gradient_penalty self batch_size real fake
                w gp w' E) as ((H1 & H2) & H3 & H4).
    repeat split; assumption.
  - intros Hi self real_images w w' losses E.
    exact (preserves_train_step self real_images Hi w losses w' E).
Qed.

(** C4. A training step with three discriminator steps and the loss
    functions of the notebook makes three discriminator updates, each from
    the state the previous one left and so with latent noise drawn anew,
    and only then one generator update.  A discriminator update applies
    the discriminator's optimizer once to the gradient, with respect to
    the discriminator's variables, of [mean(fake_score) - mean(real_score)]
    plus [gp_weight] times the gradient penalty; the generator update
    applies the generator's optimizer once to the gradient, with respect
    to the generator's variables, of [- mean(fake_score)].  The step
    returns the loss of the last discriminator update and the loss of the
    generator update. *)
Theorem train_step_phases (self : WGAN) (b h wd c : nat) (real : Batch)
    (w : World) :
  d_steps self = 3%nat ->
  d_loss_fn self = discriminator_loss ->
  g_loss_fn self = generator_loss ->
  (1 <= b)%nat -> batch_shape b h wd c real -> generator_shape h wd c ->
  exists d1 d2 d3 g w1 w2 w3 w4,
    discriminator_update critic_loss self h wd c real w d1 w1 /\
    discriminator_update critic_loss self h wd c real w1 d2 w2 /\
    discriminator_update critic_loss self h wd c real w2 d3 w3 /\
    generator_update (fun fake_score => (- reduce_mean fake_score)%R) self
      b w3 g w4 /\
    train_step self (Bare (Images real)) w = Some ((d3, g), w4).
Proof.
  intros H3 Hd Hg _ Sr Hs.
  assert (Hb : length real = b) by (destruct Sr; assumption).
  subst b.
  destruct (train_step_trains self h wd c real w ltac:(lia) Sr Hs)
    as (d & g & wn & w' & U & G & E).
  rewrite H3, Hd in U. rewrite Hg in G.
  cbn [discriminator_updates] in U.
  destruct U as (d1 & w1 & U1 & d2 & w2 & U2 & d3 & w3 & U3 & Hl & ->).
  injection Hl as ->.
  exists d1, d2, d3, g, w1, w2, w3, w'.
  split; [exact U1|]. split; [exact U2|]. split; [exact U3|].
  split; [exact G|exact E].
Qed.

End WithBackend.

(** *** The statements on the small backend *)

Lemma toy_real_shape : batch_shape 2 1 1 1 toy_real.
Proof. split; [reflexivity|]. repeat constructor. Qed.

Lemma toy_fake_shape : batch_shape 2 1 1 1 toy_fake.
Proof. split; [reflexivity|]. repeat constructor. Qed.

Lemma toy_generator_shape : @generator_shape toy 1 1 1.
Proof.
  intros gv z. simpl. split; [apply length_map|].
  apply Forall_map. apply Forall_forall. intros v _. repeat constructor.
Qed.

Lemma frozen_inert : @inert_optimizers frozen_toy.
Proof. split; intros; reflexivity. Qed.

Lemma frozen_generator_shape : @generator_shape frozen_toy 1 1 1.
Proof.
  intros gv z. simpl. split; [apply length_map|].
  apply Forall_map. apply Forall_forall. intros v _. repeat constructor.
Qed.

Lemma toy_gradient_norm (x : Image) :
  has_shape 1 1 1 x ->
  l2_norm (map (map (map (fun _ : R => 1%R))) x) = 1%R.
Proof.
  intros [Hl HF].
  destruct x as [|row [|]]; try discriminate.
  inversion HF as [|? ? [Hr Hp] _]; subst.
  destruct row as [|px [|]]; try discriminate.
  inversion Hp as [|? ? Hpx _]; subst.
  destruct px as [|v [|]]; try discriminate.
  unfold l2_norm, reduce_sum1. simpl.
  replace (1 * 1 + 0)%R with 1%R by lra. apply sqrt_1.
Qed.

(** On the small backend every input gradient has norm 1 and the penalty
    is 0. *)
Lemma gradient_penalty_value_witness :
  exists w',
    @gradient_penalty toy wgan 2 toy_real toy_fake toy_world
    = Some (0%R, w').
Proof.
  pose proof (@gradient_penalty_value toy wgan 2 1 1 1 toy_real toy_fake
                toy_world toy_real_shape toy_fake_shape) as H.
  cbv zeta in H. destruct H as (x & mask & w' & Sx & _ & E & Hz).
  exists w'. rewrite E. f_equal. f_equal. apply Hz.
  - destruct Sx as [Hl _]. simpl. destruct x; [discriminate|discriminate].
  - simpl. apply Forall_map. destruct Sx as [_ HF].
    apply Forall_impl with (2 := HF). exact toy_gradient_norm.
Defined.

Lemma gradient_penalty_interpolation_witness :
  exists interpolated gp w',
    pixel (nth 0 interpolated []) 0 0 0 = 1%R /\
    pixel (nth 1 interpolated []) 0 0 0 = 0%R /\
    @gradient_penalty toy wgan 2 toy_real toy_fake toy_world
    = Some (gp, w').
Proof.
  pose proof (@gradient_penalty_interpolation toy wgan 2 1 1 1 toy_real
                toy_fake toy_world toy_real_shape toy_fake_shape) as H.
  cbv zeta in H. destruct H as (_ & _ & x & Hp & E).
  exists x. eexists. eexists. split; [|split; [|exact E]].
  - rewrite (Hp 0 0 0 0)%nat by lia. unfold pixel. simpl. lra.
  - rewrite (Hp 1 0 0 0)%nat by lia. unfold pixel. simpl. lra.
Defined.

Lemma train_step_phases_witness :
  exists d_loss g_loss w',
    @train_step toy wgan (Bare (Images toy_real)) toy_world
    = Some ((d_loss, g_loss), w').
Proof.
  destruct (@train_step_phases toy wgan 2 1 1 1 toy_real toy_world
              eq_refl eq_refl eq_refl ltac:(lia) toy_real_shape
              toy_generator_shape)
    as (d1 & d2 & d3 & g & w1 & w2 & w3 & w4 & _ & _ & _ & _ & E).
  exists d3, g, w4. exact E.
Defined.

(** A tuple of two images and their labels. *)
Lemma train_step_tuple_first_witness :
  exists d_loss g_loss w',
    @train_step toy wgan (Tuple [Images toy_real; Labels [3; 7]%Z])
      toy_world
    = Some ((d_loss, g_loss), w').
Proof.
  destruct (@train_step_tuple_first toy wgan 2 1 1 1 toy_real
              [Labels [3; 7]%Z] toy_world ltac:(simpl; lia) ltac:(lia)
              toy_real_shape toy_generator_shape)
    as (d & g & wn & w' & _ & _ & E & _).
  exists d, g, w'. exact E.
Defined.

(** With the optimizers switched off, the variables after a penalty and
    after a whole training step are the initial ones. *)
Lemma gradient_penalty_frame_witness :
  (exists gp w',
     @gradient_penalty frozen_toy wgan 2 toy_real toy_fake frozen_world
     = Some (gp, w') /\
     @d_vars frozen_toy w' = 0%R /\ @g_vars frozen_toy w' = 0%R) /\
  (exists losses w',
     @train_step frozen_toy wgan (Bare (Images toy_real)) frozen_world
     = Some (losses, w') /\
     @d_vars frozen_toy w' = 0%R /\ @g_vars frozen_toy w' = 0%R).
Proof.
  destruct (@gradient_penalty_frame frozen_toy) as [Hgp Hstep].
  split.
  - destruct (@gradient_penalty_run frozen_toy wgan 2 1 1 1 toy_real
                toy_fake frozen_world toy_real_shape toy_fake_shape)
      as (x & _ & _ & E).
    eexists. eexists. split; [exact E|].
    destruct (Hgp _ _ _ _ _ _ _ E) as (H1 & H2 & _).
    split; [exact H1|exact H2].
  - destruct (@train_step_returns frozen_toy wgan 2 1 1 1 toy_real
                frozen_world eq_refl eq_refl eq_refl toy_real_shape
                frozen_generator_shape) as (losses & w' & E).
    exists losses, w'. split; [exact E|].
    exact (Hstep frozen_inert _ _ _ _ _ E).
Defined.

End WGANSpec.

(** ** More about CutMix *)

Module CutMixExtra.

Import Scalar Tensor CutMix Samples Int32Facts ScalarFacts TensorFacts
  CutMixSpec.

(** *** The ratio drawn by [sample_beta_distribution] *)

(** X1. For non-negative gamma samples that are not both zero the ratio of
    [sample_beta_distribution] lies in [0,1], the domain of [get_box];
    exchanging the two samples gives the complementary ratio. *)
Theorem sample_beta_distribution_unit_interval (n : Z) (rnd rnd' : draws)
    (a b : R) :
  valid_draws n rnd ->
  gamma_1_sample rnd' = gamma_2_sample rnd ->
  gamma_2_sample rnd' = gamma_1_sample rnd ->
  (0 <= sample_beta_distribution rnd a b <= 1)%R /\
  sample_beta_distribution rnd' a b =
  (1 - sample_beta_distribution rnd a b)%R.
Proof.
  intros Hv E1 E2.
  split; [exact (sample_beta_distribution_range n rnd a b Hv)|].
  destruct Hv as (H1 & H2 & H3 & _).
  unfold sample_beta_distribution. rewrite E1, E2. field. lra.
Qed.

Lemma sample_beta_distribution_unit_interval_witness :
  (0 <= sample_beta_distribution sample_draws (1 / 4) (1 / 4) <= 1)%R /\
  sample_beta_distribution sample_draws (1 / 4) (1 / 4) =
  (1 - sample_beta_distribution sample_draws (1 / 4) (1 / 4))%R.
Proof.
  apply (sample_beta_distribution_unit_interval IMG_SIZE sample_draws
           sample_draws).
  - exact valid_sample_draws.
  - reflexivity.
  - reflexivity.
Defined.

(** *** The extent of the box *)

Lemma cut_size_small (n : Z) (l : R) :
  (0 <= n)%Z -> (0 <= l <= 1)%R -> (IZR n * cut_rat l < 2)%R ->
  (cut_size n l / 2 = 0)%Z.
Proof.
  intros Hn Hl Hs.
  pose proof (cut_rat_range l Hl) as [Hr0 Hr1].
  pose proof (IZR_le _ _ Hn) as Hn'.
  assert (Hp : (0 <= IZR n * cut_rat l)%R) by nra.
  assert (H : (0 <= cut_size n l <= n)%Z) by (apply cut_size_range; auto).
  assert (H2 : (cut_size n l < 2)%Z).
  { unfold cut_size in *. destruct (cast_int32_nonneg _ Hp) as [Hc _].
    apply lt_IZR. lra. }
  apply Z.div_small. lia.
Qed.

Lemma get_box_small_cut (n : Z) (l : R) (cx cy : Z) :
  (0 < n <= 2 ^ 30)%Z -> (0 <= l <= 1)%R -> (IZR n * cut_rat l < 2)%R ->
  (0 <= cx < n)%Z -> (0 <= cy < n)%Z ->
  get_box n l cx cy = (cx, cy, 1, 1)%Z.
Proof.
  intros Hn Hl Hs Hx Hy. unfold get_box.
  destruct (half_cut_size n l Hn Hl) as [-> Hh].
  rewrite (cut_size_small n l ltac:(lia) Hl Hs) in *.
  pose proof (axis_bounds n cx 0 Hn Hx Hh) as Ax.
  pose proof (axis_bounds n cy 0 Hn Hy Hh) as Ay.
  cbv zeta in Ax, Ay.
  destruct Ax as (Ax1 & _ & _ & _ & _ & Ax2).
  destruct Ay as (Ay1 & _ & _ & _ & _ & Ay2).
  rewrite Ax2, Ay2, Ax1, Ay1. simpl. repeat f_equal; lia.
Qed.

(** X2. When the truncated cut size is 0 or 1, as for a mixing ratio of 1,
    both clipped edges of an axis coincide with the centre and the
    zero extent is forced to 1: the box is the single pixel at the drawn
    centre. *)
Theorem get_box_forced_minimum (n : Z) (l : R) (cx cy : Z) :
  (0 < n <= 2 ^ 30)%Z -> (0 <= l <= 1)%R -> (IZR n * cut_rat l < 2)%R ->
  (0 <= cx < n)%Z -> (0 <= cy < n)%Z ->
  get_box n l cx cy = (cx, cy, 1, 1)%Z.
Proof. exact (get_box_small_cut n l cx cy). Qed.

Lemma cut_rat_one : cut_rat 1 = 0%R.
Proof. unfold cut_rat. replace (1 - 1)%R with 0%R by lra. apply sqrt_0. Qed.

Lemma get_box_forced_minimum_witness :
  get_box IMG_SIZE 1 7 30 = (7, 30, 1, 1)%Z.
Proof.
  apply get_box_forced_minimum; unfold IMG_SIZE; try lia; try lra.
  rewrite cut_rat_one. lra.
Defined.

(** X3. When the half cut size [cut_w // 2] is at least 1, the box spans
    from [max (centre - half) 0] to [min (centre + half) IMG_SIZE] on each
    axis; its extent is at least the half cut size and at most twice it,
    hence never more than the truncated cut size, and it is exactly twice
    the half cut size when the centre is at least that far from both
    borders. *)
Theorem get_box_extent (n : Z) (l : R) (cx cy : Z) :
  (0 < n <= 2 ^ 30)%Z -> (0 <= l <= 1)%R ->
  (0 <= cx < n)%Z -> (0 <= cy < n)%Z ->
  let half := (cut_size n l / 2)%Z in
  (1 <= half)%Z ->
  let '(x, y, height, width) := get_box n l cx cy in
  (x = Z.max (cx - half) 0 /\ x + width = Z.min (cx + half) n /\
   y = Z.max (cy - half) 0 /\ y + height = Z.min (cy + half) n /\
   half <= width <= 2 * half /\ half <= height <= 2 * half /\
   2 * half <= cut_size n l /\
   (half <= cx <= n - half -> x = cx - half /\ width = 2 * half) /\
   (half <= cy <= n - half -> y = cy - half /\ height = 2 * half))%Z.
Proof.
  intros Hn Hl Hx Hy half H1. unfold get_box.
  destruct (half_cut_size n l Hn Hl) as [-> Hh]. fold half in Hh |- *.
  pose proof (axis_bounds n cx half Hn Hx Hh) as Ax.
  pose proof (axis_bounds n cy half Hn Hy Hh) as Ay.
  cbv zeta in Ax, Ay.
  destruct Ax as (Ax1 & Ax2 & _ & _ & _ & Ax3).
  destruct Ay as (Ay1 & Ay2 & _ & _ & _ & Ay3).
  destruct (Z.eqb_spec half 0) as [E|_]; [lia|].
  rewrite Ax3, Ay3, Ax1, Ax2, Ay1, Ay2.
  pose proof (Z.mul_div_le (cut_size n l) 2 ltac:(lia)) as Hc.
  fold half in Hc. lia.
Qed.

Lemma get_box_extent_witness :
  let '(x, y, height, width) := get_box IMG_SIZE (1 / 2) 16 3 in
  (x = 5 /\ width = 22 /\ y = 0 /\ height = 14)%Z.
Proof.
  pose proof (get_box_extent IMG_SIZE (1 / 2) 16 3) as H.
  rewrite cut_size_half in H. unfold IMG_SIZE in *.
  specialize (H ltac:(lia) ltac:(lra) ltac:(lia) ltac:(lia)).
  cbv zeta in H. specialize (H ltac:(cbv; discriminate)).
  destruct (get_box 32 (1 / 2) 16 3) as [[[x y] h] w].
  change (22 / 2)%Z with 11%Z in H. lia.
Defined.

(** *** The mixed sample *)

Lemma blend_same (ratio : R) (label : Label) :
  blend ratio label label = label.
Proof.
  unfold blend. induction label as [|a l IH]; simpl; [reflexivity|].
  rewrite IH. f_equal. ring.
Qed.

(** The share of the box in the image is positive and at most 1. *)
Lemma area_share (n h w : Z) :
  (0 < n)%Z -> (1 <= w <= n)%Z -> (1 <= h <= n)%Z ->
  (1 / IZR (n * n) <= IZR (h * w) / IZR (n * n) <= 1)%R.
Proof.
  intros Hn Hw Hh.
  assert (Hnn : (0 < IZR (n * n))%R) by (apply IZR_lt; nia).
  assert (H1 : (1 <= IZR (h * w))%R) by (apply IZR_le; nia).
  assert (H2 : (IZR (h * w) <= IZR (n * n))%R) by (apply IZR_le; nia).
  split.
  - apply Rmult_le_compat_r; [|exact H1].
    apply Rlt_le, Rinv_0_lt_compat, Hnn.
  - apply Rmult_le_reg_r with (IZR (n * n)); [exact Hnn|].
    unfold Rdiv. rewrite Rmult_assoc, Rinv_l by lra. lra.
Qed.

(** X4. The weight [cutmix] puts on [label1] lies between 0 and
    [1 - 1/IMG_SIZE^2]: the box is never empty, so [label2] always keeps a
    positive weight and every entry of the output label is a convex
    combination of the two input entries. *)
Theorem cutmix_label_weight (n : Z) (d : nat) (rnd : draws)
    (image1 image2 : Image) (label1 label2 : Label) :
  (0 < n)%Z -> (n * n <= Int32.max_int)%Z -> valid_draws n rnd ->
  has_shape (Z.to_nat n) (Z.to_nat n) d image1 ->
  has_shape (Z.to_nat n) (Z.to_nat n) d image2 ->
  length label1 = length label2 ->
  exists image label ratio,
    cutmix n rnd (image1, label1) (image2, label2) = Some (image, label) /\
    (0 <= ratio <= 1 - 1 / IZR (n * n))%R /\
    forall i, (i < length label1)%nat ->
      nth i label 0%R =
      (ratio * nth i label1 0 + (1 - ratio) * nth i label2 0)%R /\
      (Rmin (nth i label1 0) (nth i label2 0) <= nth i label 0
       <= Rmax (nth i label1 0) (nth i label2 0))%R.
Proof.
  intros Hn Hnn Hv S1 S2 Hlen.
  destruct (sampled_box n rnd) as [[[x y] h] w] eqn:Hbox.
  destruct (cutmix_run n d rnd image1 image2 label1 label2 x y h w
              Hn Hnn Hv S1 S2 Hlen Hbox) as (image & E & _).
  assert (Hn30 : (0 < n <= 2 ^ 30)%Z).
  { unfold Int32.max_int in Hnn. split; [lia|]. nia. }
  pose proof (sampled_box_inside n rnd x y h w Hn30 Hv Hbox) as Hin.
  pose proof (area_share n h w Hn ltac:(lia) ltac:(lia)) as [Ha1 Ha2].
  exists image. eexists. exists (1 - IZR (h * w) / IZR (n * n))%R.
  split; [exact E|]. split; [lra|].
  intros i Hi. rewrite (nth_blend _ _ _ i Hlen Hi).
  split; [reflexivity|].
  set (r := (1 - IZR (h * w) / IZR (n * n))%R).
  assert (Hpos : (0 < 1 / IZR (n * n))%R).
  { apply Rdiv_lt_0_compat; [lra|]. apply IZR_lt. nia. }
  assert (Hr : (0 <= r <= 1)%R) by (unfold r; lra).
  set (a := nth i label1 0%R). set (b := nth i label2 0%R).
  unfold Rmin, Rmax. destruct (Rle_dec a b); nra.
Qed.

Lemma cutmix_label_weight_witness :
  exists image label ratio,
    cutmix IMG_SIZE sample_draws (constant_image 0, one_hot 0)
      (constant_image 1, one_hot 1) = Some (image, label) /\
    (0 <= ratio <= 1 - 1 / 1024)%R /\
    nth 0 label 0%R = ratio /\ nth 1 label 0%R = (1 - ratio)%R.
Proof.
  destruct (cutmix_label_weight IMG_SIZE 3 sample_draws
              (constant_image 0) (constant_image 1) (one_hot 0) (one_hot 1))
    as (image & label & ratio & E & Hr & Hl).
  - reflexivity.
  - discriminate.
  - exact valid_sample_draws.
  - exact (has_shape_constant_image 0).
  - exact (has_shape_constant_image 1).
  - reflexivity.
  - exists image, label, ratio. split; [exact E|]. split; [exact Hr|].
    destruct (Hl 0%nat ltac:(simpl; lia)) as [H0 _].
    destruct (Hl 1%nat ltac:(simpl; lia)) as [H1 _].
    simpl in H0, H1. split; lra.
Defined.

(** X5. No pixel is blended: when all channel values of both input images
    lie in an interval, so do all channel values of the image [cutmix]
    returns. *)
Theorem cutmix_pixel_range (n : Z) (d : nat) (rnd : draws)
    (image1 image2 : Image) (label1 label2 : Label) (lo hi : R) :
  (0 < n)%Z -> (n * n <= Int32.max_int)%Z -> valid_draws n rnd ->
  has_shape (Z.to_nat n) (Z.to_nat n) d image1 ->
  has_shape (Z.to_nat n) (Z.to_nat n) d image2 ->
  length label1 = length label2 ->
  (forall r j k,
     (r < Z.to_nat n)%nat -> (j < Z.to_nat n)%nat -> (k < d)%nat ->
     (lo <= pixel image1 r j k <= hi)%R /\
     (lo <= pixel image2 r j k <= hi)%R) ->
  exists image label,
    cutmix n rnd (image1, label1) (image2, label2) = Some (image, label) /\
    forall r j k,
      (r < Z.to_nat n)%nat -> (j < Z.to_nat n)%nat -> (k < d)%nat ->
      (lo <= pixel image r j k <= hi)%R.
Proof.
  intros Hn Hnn Hv S1 S2 Hlen Hrange.
  destruct (sampled_box n rnd) as [[[x y] h] w] eqn:Hbox.
  destruct (cutmix_run n d rnd image1 image2 label1 label2 x y h w
              Hn Hnn Hv S1 S2 Hlen Hbox) as (image & E & _ & Px).
  exists image. eexists. split; [exact E|].
  intros r j k Hr Hj Hk. rewrite (Px r j k Hr Hj Hk).
  destruct (Hrange r j k Hr Hj Hk) as [R1 R2].
  destruct (inside_box (x, y, h, w) r j); assumption.
Qed.

Lemma pixel_constant_image (v : R) (r j k : nat) :
  (r < 32)%nat -> (j < 32)%nat -> (k < 3)%nat ->
  pixel (constant_image v) r j k = v.
Proof.
  intros Hr Hj Hk. unfold pixel, constant_image.
  rewrite (nth_repeat_lt (repeat (repeat v 3) 32) [] Hr).
  rewrite (nth_repeat_lt (repeat v 3) [] Hj).
  exact (nth_repeat_lt v 0%R Hk).
Qed.

Lemma cutmix_pixel_range_witness :
  exists image label,
    cutmix IMG_SIZE sample_draws (constant_image 0, one_hot 0)
      (constant_image 1, one_hot 1) = Some (image, label) /\
    forall r j k,
      (r < 32)%nat -> (j < 32)%nat -> (k < 3)%nat ->
      (0 <= pixel image r j k <= 1)%R.
Proof.
  apply (cutmix_pixel_range IMG_SIZE 3 sample_draws (constant_image 0)
           (constant_image 1) (one_hot 0) (one_hot 1) 0 1).
  - reflexivity.
  - discriminate.
  - exact valid_sample_draws.
  - exact (has_shape_constant_image 0).
  - exact (has_shape_constant_image 1).
  - reflexivity.
  - intros r j k Hr Hj Hk. simpl in Hr, Hj.
    rewrite !pixel_constant_image by assumption. lra.
Defined.

(** X6. Mixing a sample with itself changes nothing: for equal images and
    equal labels [cutmix] returns that image and that label, whatever box
    is drawn. *)
Theorem cutmix_same_sample (n : Z) (d : nat) (rnd : draws)
    (image : Image) (label : Label) :
  (0 < n)%Z -> (n * n <= Int32.max_int)%Z -> valid_draws n rnd ->
  has_shape (Z.to_nat n) (Z.to_nat n) d image ->
  cutmix n rnd (image, label) (image, label) = Some (image, label).
Proof.
  intros Hn Hnn Hv S.
  destruct (sampled_box n rnd) as [[[x y] h] w] eqn:Hbox.
  destruct (cutmix_run n d rnd image image label label x y h w
              Hn Hnn Hv S S eq_refl Hbox) as (image' & E & S' & Px).
  rewrite E, blend_same. f_equal. f_equal.
  apply (image_ext _ _ d image' image S' S).
  intros r j k Hr Hj Hk. rewrite (Px r j k Hr Hj Hk).
  destruct (inside_box (x, y, h, w) r j); reflexivity.
Qed.

Lemma cutmix_same_sample_witness :
  cutmix IMG_SIZE sample_draws (constant_image 1, one_hot 1)
    (constant_image 1, one_hot 1) = Some (constant_image 1, one_hot 1).
Proof.
  apply (cutmix_same_sample IMG_SIZE 3).
  - reflexivity.
  - discriminate.
  - exact valid_sample_draws.
  - exact (has_shape_constant_image 1).
Defined.

(** X7. The degenerate draw: when the truncated cut size is 0 or 1,
    [cutmix] still returns; the output is [image1] with the single pixel
    at the drawn centre taken from [image2], and the weight of [label1] is
    [1 - 1/IMG_SIZE^2]. *)
Theorem cutmix_single_pixel (n : Z) (d : nat) (rnd : draws)
    (image1 image2 : Image) (label1 label2 : Label) :
  (0 < n)%Z -> (n * n <= Int32.max_int)%Z -> valid_draws n rnd ->
  has_shape (Z.to_nat n) (Z.to_nat n) d image1 ->
  has_shape (Z.to_nat n) (Z.to_nat n) d image2 ->
  length label1 = length label2 ->
  (IZR n * cut_rat (sample_beta_distribution rnd (1 / 4) (1 / 4)) < 2)%R ->
  exists image,
    cutmix n rnd (image1, label1) (image2, label2) =
      Some (image, blend (1 - 1 / IZR (n * n)) label1 label2) /\
    forall r j k,
      (r < Z.to_nat n)%nat -> (j < Z.to_nat n)%nat -> (k < d)%nat ->
      pixel image r j k =
      if ((Z.of_nat r =? cut_y rnd) && (Z.of_nat j =? cut_x rnd))%Z
      then pixel image2 r j k else pixel image1 r j k.
Proof.
  intros Hn Hnn Hv S1 S2 Hlen Hs.
  assert (Hn30 : (0 < n <= 2 ^ 30)%Z).
  { unfold Int32.max_int in Hnn. split; [lia|]. nia. }
  pose proof (sample_beta_distribution_range n rnd (1 / 4) (1 / 4) Hv) as Hl.
  assert (Hbox : sampled_box n rnd = (cut_x rnd, cut_y rnd, 1, 1)%Z).
  { destruct Hv as (_ & _ & _ & Hx & Hy).
    exact (get_box_small_cut n _ _ _ Hn30 Hl Hs Hx Hy). }
  destruct (cutmix_run n d rnd image1 image2 label1 label2 _ _ _ _
              Hn Hnn Hv S1 S2 Hlen Hbox) as (image & E & _ & Px).
  exists image. split; [exact E|].
  intros r j k Hr Hj Hk. rewrite (Px r j k Hr Hj Hk).
  replace (inside_box (cut_x rnd, cut_y rnd, 1, 1)%Z r j)
    with ((Z.of_nat r =? cut_y rnd) && (Z.of_nat j =? cut_x rnd))%Z;
    [reflexivity|].
  unfold inside_box. apply Bool.eq_iff_eq_true.
  rewrite !andb_true_iff, !Z.leb_le, !Z.ltb_lt, !Z.eqb_eq. lia.
Qed.

Lemma valid_degenerate_draws : valid_draws IMG_SIZE degenerate_draws.
Proof.
  unfold valid_draws, IMG_SIZE, degenerate_draws. simpl.
  repeat split; try lra; lia.
Qed.

Lemma cutmix_single_pixel_witness :
  exists image,
    cutmix IMG_SIZE degenerate_draws (constant_image 0, one_hot 0)
      (constant_image 1, one_hot 1) =
      Some (image, blend (1 - 1 / 1024) (one_hot 0) (one_hot 1)) /\
    pixel image 30 7 0 = 1%R /\ pixel image 30 8 0 = 0%R.
Proof.
  destruct (cutmix_single_pixel IMG_SIZE 3 degenerate_draws
              (constant_image 0) (constant_image 1) (one_hot 0) (one_hot 1))
    as (image & E & Px).
  - reflexivity.
  - discriminate.
  - exact valid_degenerate_draws.
  - exact (has_shape_constant_image 0).
  - exact (has_shape_constant_image 1).
  - reflexivity.
  - unfold sample_beta_distribution, degenerate_draws, IMG_SIZE. simpl.
    replace (1 / (1 + 0))%R with 1%R by lra. rewrite cut_rat_one. lra.
  - exists image. split; [exact E|].
    split.
    + rewrite (Px 30 7 0)%nat by (simpl; lia). simpl.
      apply pixel_constant_image; lia.
    + rewrite (Px 30 8 0)%nat by (simpl; lia). simpl.
      apply pixel_constant_image; lia.
Defined.

End CutMixExtra.

(** ** More about the WGAN-GP training loop *)

Module WGANExtra.

Import Tensor WGAN_GP WGAN_More TensorFacts WGANSpec.

(** *** The loss functions *)

Lemma reduce_sum1_shift (c : R) (l : Vector) :
  reduce_sum1 (map (fun s => s + c)%R l) =
  (reduce_sum1 l + INR (length l) * c)%R.
Proof.
  unfold reduce_sum1. induction l as [|x l IH].
  - simpl. lra.
  - cbn [map fold_right length]. rewrite IH, S_INR. lra.
Qed.

Lemma reduce_mean_shift (c : R) (l : Vector) :
  l <> [] -> reduce_mean (map (fun s => s + c)%R l) = (reduce_mean l + c)%R.
Proof.
  intros Hne. unfold reduce_mean.
  rewrite reduce_sum1_shift, length_map.
  assert (Hlen : (0 < INR (length l))%R).
  { apply lt_0_INR. destruct l; [contradiction|simpl; lia]. }
  field. lra.
Qed.

(** X8. The critic loss of [discriminator_loss] does not change when one
    constant is added to every score of both non-empty batches, and
    exchanging the two batches negates it. *)
Theorem discriminator_loss_shift (c : R) (real_img fake_img : Vector) :
  real_img <> [] -> fake_img <> [] ->
  discriminator_loss (map (fun s => s + c)%R real_img)
    (map (fun s => s + c)%R fake_img) =
  discriminator_loss real_img fake_img /\
  discriminator_loss fake_img real_img =
  (- discriminator_loss real_img fake_img)%R.
Proof.
  intros Hr Hf. unfold discriminator_loss. cbv zeta.
  rewrite !reduce_mean_shift by assumption. split; lra.
Qed.

Lemma discriminator_loss_shift_witness :
  discriminator_loss (map (fun s => s + 5)%R [1; 3]%R)
    (map (fun s => s + 5)%R [2; 6]%R) =
  discriminator_loss [1; 3]%R [2; 6]%R /\
  discriminator_loss [2; 6]%R [1; 3]%R =
  (- discriminator_loss [1; 3]%R [2; 6]%R)%R.
Proof.
  apply (discriminator_loss_shift 5 [1; 3]%R [2; 6]%R); discriminate.
Defined.

(** *** Pixel scaling *)

Lemma map4_map4 (f g : R -> R) (x : Batch) :
  map4 f (map4 g x) = map4 (fun v => f (g v)) x.
Proof.
  unfold map4. rewrite map_map. apply map_ext. intros img.
  rewrite map_map. apply map_ext. intros row.
  rewrite map_map. apply map_ext. intros px.
  apply map_map.
Qed.

Lemma map4_id (f : R -> R) (x : Batch) :
  (forall v, f v = v) -> map4 f x = x.
Proof.
  intros Hf. unfold map4.
  rewrite <- (map_id x) at 2. apply map_ext. intros img.
  rewrite <- (map_id img) at 2. apply map_ext. intros row.
  rewrite <- (map_id row) at 2. apply map_ext. intros px.
  rewrite <- (map_id px) at 2. apply map_ext. exact Hf.
Qed.

(** X9. The rescaling of [GANMonitor] undoes the normalisation of the
    training images and conversely, entry by entry on whole batches, and
    a value lies in [0,255] exactly when its normalisation lies in
    [-1,1]. *)
Theorem denormalize_normalize (x : Batch) (v : R) :
  map4 denormalize (map4 normalize x) = x /\
  map4 normalize (map4 denormalize x) = x /\
  ((0 <= v <= 255)%R <-> (-1 <= normalize v <= 1)%R) /\
  ((-1 <= v <= 1)%R <-> (0 <= denormalize v <= 255)%R).
Proof.
  split; [|split; [|split]].
  - rewrite map4_map4. apply map4_id. intros u.
    unfold denormalize, normalize. lra.
  - rewrite map4_map4. apply map4_id. intros u.
    unfold denormalize, normalize. lra.
  - unfold normalize. split; intros [H1 H2]; split; lra.
  - unfold denormalize. split; intros [H1 H2]; split; lra.
Qed.

(** *** The training step for any number of discriminator steps *)

Section WithBackend.

Context {backend : Backend}.

(** X12. For every number of discriminator steps from 1 on and every
    pair of loss functions, a training step on a non-empty image batch
    makes that many discriminator updates in a row, each from the state
    the previous one left, then one generator update from the state the
    last one left; each update applies the optimizer of its network once
    to the gradient of its loss with respect to the variables of that
    network.  The step returns the loss of the last discriminator update
    and the loss of the generator update. *)
Theorem train_step_updates (self : WGAN) (b h wd c : nat) (real : Batch)
    (w : World) :
  (1 <= d_steps self)%nat -> (1 <= b)%nat ->
  batch_shape b h wd c real -> generator_shape h wd c ->
  exists d g wn w',
    discriminator_updates (d_loss_fn self) self h wd c real (d_steps self)
      w None (Some d) wn /\
    generator_update (g_loss_fn self) self b wn g w' /\
    train_step self (Bare (Images real)) w = Some ((d, g), w').
Proof.
  intros Hn _ Sr Hg.
  assert (Hb : length real = b) by (destruct Sr; assumption).
  subst b. exact (train_step_trains self h wd c real w Hn Sr Hg).
Qed.

(** X13. With no discriminator step the local [d_loss] is never assigned
    and [train_step] raises, on every input and from every state. *)
Theorem train_step_without_discriminator_steps (self : WGAN)
    (real_images : data) (w : World) :
  d_steps self = 0%nat -> train_step self real_images w = None.
Proof.
  intros H0. unfold train_step. rewrite H0. unfold for_range.
  change (seq 0 0) with (@nil nat). cbn [for_each].
  unfold bind, lift, ret.
  repeat (try reflexivity;
          match goal with
          | |- match ?t with Some _ => _ | None => _ end = None =>
              destruct t as [[? ?]|]
          | |- (let '(_, _) := ?p in _) _ = None => destruct p
          end).
Qed.

(** *** How often the optimizers are applied *)

Lemma d_updated_app (a b : nat) : forall v o v1 o1 v2 o2,
  d_updated a v o v1 o1 -> d_updated b v1 o1 v2 o2 ->
  d_updated (a + b) v o v2 o2.
Proof.
  induction a as [|a IH]; intros v o v1 o1 v2 o2 H1 H2; simpl in *.
  - destruct H1 as [-> ->]. exact H2.
  - destruct H1 as [g H1]. exists g. exact (IH _ _ _ _ _ _ H1 H2).
Qed.

Lemma g_updated_app (a b : nat) : forall v o v1 o1 v2 o2,
  g_updated a v o v1 o1 -> g_updated b v1 o1 v2 o2 ->
  g_updated (a + b) v o v2 o2.
Proof.
  induction a as [|a IH]; intros v o v1 o1 v2 o2 H1 H2; simpl in *.
  - destruct H1 as [-> ->]. exact H2.
  - destruct H1 as [g H1]. exists g. exact (IH _ _ _ _ _ _ H1 H2).
Qed.

Lemma updates_trans (a b c d : nat) (w w1 w2 : World) :
  updates a b w w1 -> updates c d w1 w2 -> updates (a + c) (b + d) w w2.
Proof.
  intros [D1 G1] [D2 G2]. split.
  - exact (d_updated_app _ _ _ _ _ _ _ _ D1 D2).
  - exact (g_updated_app _ _ _ _ _ _ _ _ G1 G2).
Qed.

Lemma updates_same_model (w w' : World) :
  same_model w w' -> updates 0 0 w w'.
Proof.
  intros ((H1 & H2) & H3 & H4). split; simpl; split; assumption.
Qed.

Lemma runs_preserves {A : Type} (m : M A) :
  preserves same_model m -> runs 0 0 m.
Proof. intros H w a w' E. apply updates_same_model. exact (H w a w' E). Qed.

Lemma runs_bind {A B : Type} (a b c d nd ng : nat) (m : M A)
    (k : A -> M B) :
  runs a b m -> (forall x, runs c d (k x)) ->
  nd = (a + c)%nat -> ng = (b + d)%nat ->
  runs nd ng (bind m k).
Proof.
  intros Hm Hk -> -> w y w' H. unfold bind in H.
  destruct (m w) as [[x w1]|] eqn:E; [|discriminate].
  exact (updates_trans _ _ _ _ _ _ _ (Hm _ _ _ E) (Hk _ _ _ _ H)).
Qed.

Lemma runs_for_each {I S : Type} (body : I -> S -> M S) (items : list I) :
  (forall i s, runs 1 0 (body i s)) ->
  forall s, runs (length items) 0 (for_each items body s).
Proof.
  intros Hb. induction items as [|i items IH]; intros s; simpl.
  - apply runs_preserves. apply preserves_ret. exact same_model_refl.
  - apply (runs_bind 1 0 (length items) 0); auto.
Qed.

Lemma runs_apply_gradients_d (g : DGrads) : runs 1 0 (apply_gradients_d g).
Proof.
  intros w a w' H. unfold apply_gradients_d in H.
  destruct (d_apply_gradients (d_opt w) g (d_vars w)) as [v o] eqn:E.
  injection H as _ <-. split; simpl.
  - exists g. rewrite E. simpl. split; reflexivity.
  - split; reflexivity.
Qed.

Lemma runs_apply_gradients_g (g : GGrads) : runs 0 1 (apply_gradients_g g).
Proof.
  intros w a w' H. unfold apply_gradients_g in H.
  destruct (g_apply_gradients (g_opt w) g (g_vars w)) as [v o] eqn:E.
  injection H as _ <-. split; simpl.
  - split; reflexivity.
  - exists g. rewrite E. simpl. split; reflexivity.
Qed.

Ltac model_stage :=
  apply runs_preserves;
  repeat first
    [ exact same_model_refl
    | exact same_model_trans
    | apply preserves_random_normal2
    | apply preserves_gradient_penalty
    | apply preserves_call_generator
    | apply preserves_call_discriminator
    | apply preserves_lift
    | apply preserves_ret
    | apply preserves_gradient_tape_d
    | apply preserves_gradient_tape_g
    | apply preserves_bind
    | intro ].

Lemma runs_train_step (self : WGAN) (real_images : data) :
  runs (d_steps self) 1 (train_step self real_images).
Proof.
  unfold train_step.
  apply (runs_bind 0 0 (d_steps self) 1); [model_stage| |lia|lia].
  intros t.
  apply (runs_bind 0 0 (d_steps self) 1); [model_stage| |lia|lia].
  intros x.
  apply (runs_bind (d_steps self) 0 0 1); [| |lia|lia].
  - unfold for_range.
    rewrite <- (length_seq (d_steps self) 0) at 1.
    apply runs_for_each. intros i s.
    apply (runs_bind 0 0 1 0); [model_stage| |lia|lia]. intros z.
    apply (runs_bind 0 0 1 0); [model_stage| |lia|lia]. intros [l g].
    apply (runs_bind 1 0 0 0); [apply runs_apply_gradients_d| |lia|lia].
    intros _. model_stage.
  - intros d_loss.
    apply (runs_bind 0 0 0 1); [model_stage| |lia|lia]. intros z.
    apply (runs_bind 0 0 0 1); [model_stage| |lia|lia]. intros [l g].
    apply (runs_bind 0 1 0 0); [apply runs_apply_gradients_g| |lia|lia].
    intros _.
    apply (runs_bind 0 0 0 0); [model_stage| |lia|lia]. intros d.
    model_stage.
Qed.

(** X14. A training step that returns has applied the optimizer of the
    discriminator exactly [d_steps] times in a row, each time to the
    variables and slots the previous application left, and the optimizer
    of the generator exactly once, to the variables and slots the
    generator had before the step; this holds for every input and every
    pair of loss functions. *)
Theorem train_step_update_counts (self : WGAN) (real_images : data)
    (w w' : World) (losses : R * R) :
  train_step self real_images w = Some (losses, w') ->
  d_updated (d_steps self) (d_vars w) (d_opt w) (d_vars w') (d_opt w') /\
  exists g,
    g_apply_gradients (g_opt w) g (g_vars w) = (g_vars w', g_opt w').
Proof.
  intros E. destruct (runs_train_step self real_images w losses w' E)
    as [HD HG].
  split; [exact HD|].
  simpl in HG. destruct HG as (g & Hv & Ho). exists g.
  destruct (g_apply_gradients (g_opt w) g (g_vars w)) as [v o].
  simpl in *. congruence.
Qed.

(** *** The penalty between equal batches *)

Lemma batch_ext (b h wd c : nat) (x y : Batch) :
  batch_shape b h wd c x -> batch_shape b h wd c y ->
  (forall i r j k,
     (i < b)%nat -> (r < h)%nat -> (j < wd)%nat -> (k < c)%nat ->
     pixel (nth i x []) r j k = pixel (nth i y []) r j k) ->
  x = y.
Proof.
  intros Sx Sy H.
  apply (nth_ext x y [] []); [destruct Sx, Sy; congruence|].
  intros i Hi. replace (length x) with b in Hi by (destruct Sx; congruence).
  apply (CutMixSpec.image_ext h wd c).
  - exact (batch_shape_nth b h wd c x i Sx Hi).
  - exact (batch_shape_nth b h wd c y i Sy Hi).
  - intros r j k. apply H. exact Hi.
Qed.

(** X15. When the fake batch equals the real batch, the batch the
    discriminator is evaluated at is the real batch itself, whatever
    coefficients are drawn: [gradient_penalty] returns the penalty of the
    input gradient at the real images. *)
Theorem gradient_penalty_equal_batches (self : WGAN) (b h wd c : nat)
    (real : Batch) (w : World) :
  batch_shape b h wd c real ->
  let r1 := snd (normal_draws b (rng w)) in
  gradient_penalty self b real real w =
  Some (penalty_of
          (input_gradient
             (discriminator (d_vars w) (fst (dropout_masks r1))) real),
        set_rng (snd (dropout_masks r1)) w).
Proof.
  intros Sr r1.
  destruct (gradient_penalty_run self b h wd c real real w Sr Sr)
    as (x & Sx & Hp & E).
  assert (Hx : x = real).
  { apply (batch_ext b h wd c x real Sx Sr).
    intros i r j k Hi Hr Hj Hk. rewrite (Hp i r j k Hi Hr Hj Hk). ring. }
  rewrite E, Hx. reflexivity.
Qed.

End WithBackend.

(** Five discriminator steps on the small backend. *)
Lemma train_step_updates_witness :
  exists d_loss g_loss w',
    @train_step toy
      {| latent_dim := 2; d_steps := 5; gp_weight := 10;
         d_loss_fn := discriminator_loss; g_loss_fn := generator_loss |}
      (Bare (Images toy_real)) toy_world
    = Some ((d_loss, g_loss), w').
Proof.
  destruct (@train_step_updates toy
              {| latent_dim := 2; d_steps := 5; gp_weight := 10;
                 d_loss_fn := discriminator_loss;
                 g_loss_fn := generator_loss |}
              2 1 1 1 toy_real toy_world ltac:(simpl; lia) ltac:(lia)
              toy_real_shape toy_generator_shape)
    as (d & g & wn & w' & _ & _ & E).
  exists d, g, w'. exact E.
Defined.

Lemma train_step_without_discriminator_steps_witness :
  @train_step toy
    {| latent_dim := 128; d_steps := 0; gp_weight := 10;
       d_loss_fn := discriminator_loss; g_loss_fn := generator_loss |}
    (Bare (Images toy_real)) toy_world = None.
Proof.
  apply (@train_step_without_discriminator_steps toy). reflexivity.
Defined.

Lemma train_step_update_counts_witness :
  exists losses w' g1 g2 g3 g,
    @train_step toy wgan (Bare (Images toy_real)) toy_world
    = Some (losses, w') /\
    @d_vars toy w' = (0 - g1 / 10 - g2 / 10 - g3 / 10)%R /\
    @g_vars toy w' = (0 - g / 10)%R.
Proof.
  destruct (@train_step_returns toy wgan 2 1 1 1 toy_real toy_world
              eq_refl eq_refl eq_refl toy_real_shape toy_generator_shape)
    as (losses & w' & E).
  destruct (@train_step_update_counts toy wgan _ _ _ _ E)
    as [HD (g & HG)].
  simpl in HD. destruct HD as (g1 & g2 & g3 & HDv & _).
  simpl in HG. injection HG as HGv _.
  exists losses, w', g1, g2, g3, g.
  split; [exact E|]. split; [exact HDv|]. symmetry. exact HGv.
Defined.

Lemma gradient_penalty_equal_batches_witness :
  exists w',
    @gradient_penalty toy wgan 2 toy_real toy_real toy_world
    = Some (@penalty_of
              (@input_gradient toy (@discriminator toy 0%R tt) toy_real),
            w').
Proof.
  eexists.
  exact (@gradient_penalty_equal_batches toy wgan 2 1 1 1 toy_real
           toy_world toy_real_shape).
Defined.

End WGANExtra.

(** ** The monitor callback *)

Module MonitorExtra.

Import Stdlib.Strings.Ascii Stdlib.Strings.String.
Import Stdlib.Lists.List.
Import ListNotations.
Import Tensor WGAN_GP WGAN_More TensorFacts WGANSpec.

(** *** File names of the monitor *)

Lemma digits_string_of_uint (d : Decimal.uint) :
  digits (DecimalString.NilEmpty.string_of_uint d).
Proof. induction d; simpl; auto. Qed.

Lemma decimal_inj (i j : nat) : decimal i = decimal j -> i = j.
Proof.
  unfold decimal. intros H. apply DecimalNat.Unsigned.to_uint_inj.
  pose proof (DecimalString.NilEmpty.usu (Nat.to_uint i)) as Hi.
  pose proof (DecimalString.NilEmpty.usu (Nat.to_uint j)) as Hj.
  rewrite H in Hi. congruence.
Qed.

Lemma append_prefix_inj (p a b : String.string) :
  String.append p a = String.append p b -> a = b.
Proof.
  induction p as [|c p IH]; simpl; intros H; [exact H|].
  injection H as H. exact (IH H).
Qed.

(** Two digit strings followed by one separator that is no digit: the
    separator is found at the same place. *)
Lemma split_at_separator (sep : Ascii.ascii) :
  is_digit sep = false ->
  forall s1 s2 t1 t2 : String.string,
    digits s1 -> digits s2 ->
    String.append s1 (String.String sep t1) =
    String.append s2 (String.String sep t2) ->
    s1 = s2 /\ t1 = t2.
Proof.
  intros Hsep. induction s1 as [|c1 s1 IH]; intros [|c2 s2] t1 t2 D1 D2 H;
    simpl in *.
  - injection H as H. split; [reflexivity|exact H].
  - injection H as Hc _. destruct D2 as [D2 _]. congruence.
  - injection H as Hc _. destruct D1 as [D1 _]. congruence.
  - injection H as Hc H. destruct D1 as [_ D1]. destruct D2 as [_ D2].
    destruct (IH s2 t1 t2 D1 D2 H) as [-> ->]. subst c2.
    split; reflexivity.
Qed.

Lemma generated_img_name_inj (i e i' e' : nat) :
  generated_img_name i e = generated_img_name i' e' -> i = i' /\ e = e'.
Proof.
  unfold generated_img_name. intros H.
  apply append_prefix_inj in H.
  apply (split_at_separator "_"%char eq_refl) in H;
    try apply digits_string_of_uint.
  destruct H as [Hi He].
  apply (split_at_separator "."%char eq_refl _ _ "png"%string
           "png"%string) in He; try apply digits_string_of_uint.
  destruct He as [He _].
  split; apply decimal_inj; assumption.
Qed.

(** X10. The file name [generated_img_{i}_{epoch}.png] determines the
    sample index and the epoch: two names are equal only for the same
    index and the same epoch, so no saved image overwrites another. *)
Theorem generated_img_name_distinct (i e i' e' : nat) :
  generated_img_name i e = generated_img_name i' e' <-> i = i' /\ e = e'.
Proof.
  split; [apply generated_img_name_inj|].
  intros [-> ->]. reflexivity.
Qed.

(** *** The files written at the end of an epoch *)

Lemma NoDup_map_inj {A B : Type} (f : A -> B) (l : list A) :
  (forall x y, f x = f y -> x = y) -> NoDup l -> NoDup (map f l).
Proof.
  intros Hf. induction 1 as [|x l Hx _ IH]; simpl; constructor.
  - rewrite in_map_iff. intros (y & E & Hy). apply Hf in E. subst y.
    contradiction.
  - exact IH.
Qed.

Section Monitor.

Context {backend : Backend}.
Variable generator_inference : GVars -> list Vector -> Batch.
Variable PNG : Type.
Variable array_to_img : Image -> PNG.

Lemma save_loop (generated : Batch) (epoch : nat) (n : nat) :
  forall (k : nat) (saved files : list (string * PNG)) (w w' : World),
  for_each (seq k n)
    (fun i saved =>
       bind (lift (nth_error generated i)) (fun img =>
       ret (saved ++ [(generated_img_name i epoch, array_to_img img)])))
    saved w = Some (files, w') ->
  w' = w /\
  map fst files =
  map fst saved ++ map (fun i => generated_img_name i epoch) (seq k n).
Proof.
  remember (fun (i : nat) (saved : list (string * PNG)) =>
              bind (lift (nth_error generated i)) (fun img =>
              ret (saved ++ [(generated_img_name i epoch,
                              array_to_img img)]))) as body eqn:Hb.
  assert (Hbody : forall i saved w,
            body i saved w =
            match nth_error generated i with
            | Some img =>
                Some (saved ++ [(generated_img_name i epoch,
                                 array_to_img img)], w)
            | None => None
            end).
  { intros i saved w. subst body. unfold bind, lift, ret.
    destruct (nth_error generated i); reflexivity. }
  clear Hb.
  induction n as [|n IH]; intros k saved files w w' H; simpl in H.
  - injection H as <- <-. simpl. rewrite app_nil_r. split; reflexivity.
  - unfold bind at 1 in H. rewrite Hbody in H.
    destruct (nth_error generated k) as [img|]; [|discriminate].
    apply IH in H. destruct H as [-> H]. split; [reflexivity|].
    rewrite H, map_app, <- app_assoc. reflexivity.
Qed.

Lemma save_loop_total (generated : Batch) (epoch : nat) (n : nat) :
  forall (k : nat) (saved : list (string * PNG)) (w : World),
  (k + n <= length generated)%nat ->
  exists files,
    for_each (seq k n)
      (fun i saved =>
         bind (lift (nth_error generated i)) (fun img =>
         ret (saved ++ [(generated_img_name i epoch, array_to_img img)])))
      saved w = Some (files, w).
Proof.
  remember (fun (i : nat) (saved : list (string * PNG)) =>
              bind (lift (nth_error generated i)) (fun img =>
              ret (saved ++ [(generated_img_name i epoch,
                              array_to_img img)]))) as body eqn:Hb.
  assert (Hbody : forall i saved w,
            body i saved w =
            match nth_error generated i with
            | Some img =>
                Some (saved ++ [(generated_img_name i epoch,
                                 array_to_img img)], w)
            | None => None
            end).
  { intros i saved w. subst body. unfold bind, lift, ret.
    destruct (nth_error generated i); reflexivity. }
  clear Hb.
  induction n as [|n IH]; intros k saved w Hk; simpl.
  - exists saved. reflexivity.
  - destruct (nth_error generated k) as [img|] eqn:E.
    + unfold bind at 1. rewrite Hbody, E. apply IH. lia.
    + apply nth_error_None in E. lia.
Qed.

Lemma length_map4 (f : R -> R) (x : Batch) : length (map4 f x) = length x.
Proof. unfold map4. apply length_map. Qed.

Lemma on_epoch_end_returns (self : GANMonitor) (epoch : nat) (w : World) :
  (forall gv z, length (generator_inference gv z) = length z) ->
  exists files w',
    on_epoch_end generator_inference PNG array_to_img self epoch w
    = Some (files, w').
Proof.
  intros Hg. unfold on_epoch_end.
  destruct (random_normal2_total (num_img self) (monitor_latent_dim self)
              0 1 w) as (z & w1 & E1 & Hz).
  rewrite (bind_some _ _ _ _ _ E1).
  erewrite bind_some by reflexivity.
  unfold for_range.
  destruct (save_loop_total
              (map4 denormalize (generator_inference (g_vars w1) z))
              epoch (num_img self) 0 [] w1) as (files & E).
  { rewrite length_map4, Hg, Hz. lia. }
  exists files, w1. exact E.
Qed.

(** X11. When [on_epoch_end] returns, it has written exactly the files
    [generated_img_0_{epoch}.png] up to
    [generated_img_{num_img-1}_{epoch}.png], in this order and without
    writing one name twice, and it has changed neither the variables of
    the networks nor the slots of the optimizers. *)
Theorem on_epoch_end_files (self : GANMonitor) (epoch : nat)
    (w w' : World) (files : list (string * PNG)) :
  on_epoch_end generator_inference PNG array_to_img self epoch w
  = Some (files, w') ->
  map fst files =
    map (fun i => generated_img_name i epoch) (seq 0 (num_img self)) /\
  NoDup (map fst files) /\
  same_model w w'.
Proof.
  intros H. unfold on_epoch_end in H.
  unfold bind at 1 in H.
  destruct (random_normal2 (num_img self, monitor_latent_dim self) 0 1 w)
    as [[z w1]|] eqn:E1; [|discriminate].
  unfold bind at 1 in H. unfold for_range in H.
  apply save_loop in H. destruct H as [-> H]. simpl in H.
  split; [exact H|]. split.
  - rewrite H. apply NoDup_map_inj; [|apply seq_NoDup].
    intros i j Hij. apply generated_img_name_inj in Hij. tauto.
  - exact (preserves_random_normal2 _ _ _ _ _ _ E1).
Qed.

End Monitor.

(** On the small backend, with the training-mode generator standing in
    for the inference-mode one and arrays saved as they are. *)
Lemma on_epoch_end_files_witness :
  exists files w',
    @on_epoch_end toy (@generator toy) Image (fun img => img) cbk 19
      toy_world = Some (files, w') /\
    map fst files =
      ["generated_img_0_19.png"; "generated_img_1_19.png";
       "generated_img_2_19.png"]%string.
Proof.
  destruct (@on_epoch_end_returns toy (@generator toy) Image
              (fun img => img) cbk 19 toy_world) as (files & w' & E).
  { intros gv z. apply length_map. }
  exists files, w'. split; [exact E|].
  destruct (@on_epoch_end_files toy (@generator toy) Image
              (fun img => img) cbk 19 toy_world w' files E) as [H _].
  exact H.
Defined.

End MonitorExtra.

(** ** Architectures *)

Module KerasFacts.

Import Stdlib.Lists.List.
Import ListNotations.
Import Keras.

Lemma bind_returns {A C : Type} (m : B A) (k : A -> B C)
    (log log' : list layer) (a : A) :
  m log = Some (a, log') -> bind m k log = k a log'.
Proof. intros E. unfold bind. rewrite E. reflexivity. Qed.

Lemma call_some (l : layer) (x s : shape) (log : list layer) :
  output_shape l x = Some s -> call l x log = Some (s, log ++ [l]).
Proof. intros E. unfold call. rewrite E. reflexivity. Qed.

Lemma add_same (x : shape) (log : list layer) :
  add x x log = Some (x, log ++ [Add]).
Proof.
  unfold add. destruct (list_eq_dec Nat.eq_dec x x); [reflexivity|].
  contradiction.
Qed.

Lemma count_app (p : layer -> bool) (l1 l2 : list layer) :
  count p (l1 ++ l2) = (count p l1 + count p l2)%nat.
Proof. unfold count. rewrite filter_app, length_app. reflexivity. Qed.

Lemma cdiv_1 (a : nat) : cdiv a 1 = a.
Proof.
  unfold cdiv. replace (a + 1 - 1)%nat with a by lia. apply Nat.div_1_r.
Qed.

Lemma window_same (size kernel stride : nat) :
  stride <> 0%nat -> window Same size kernel stride = Some (cdiv size stride).
Proof.
  intros H. unfold window. destruct (Nat.eqb_spec stride 0); [contradiction|].
  reflexivity.
Qed.

Lemma conv_same_shape (filters k s : nat) (use_bias : bool) (h w c : nat) :
  s <> 0%nat ->
  output_shape (Conv2D filters (k, k) (s, s) Same use_bias) [h; w; c] =
  Some [cdiv h s; cdiv w s; filters].
Proof. intros H. simpl. rewrite !window_same by exact H. reflexivity. Qed.

End KerasFacts.

Module ResNetExtra.

Import Stdlib.Strings.String.
Import Stdlib.Lists.List.
Import ListNotations.
Import Keras ResNet KerasFacts.

(** The layers one call of [resnet_layer] adds when the convolution comes
    first. *)
Lemma resnet_layer_run (h w c f k s : nat)
    (act : option String.string) (bn : bool) (log : list layer) :
  s <> 0%nat ->
  resnet_layer [h; w; c] f k s act bn true log =
  Some ([cdiv h s; cdiv w s; f],
        log ++ [Conv2D f (k, k) (s, s) Same true]
            ++ (if bn then [BatchNormalization] else [])
            ++ (match act with Some a => [Activation a] | None => [] end)).
Proof.
  intros Hs. unfold resnet_layer.
  rewrite (bind_returns _ _ _ _ _
             (call_some _ _ _ log (conv_same_shape f k s true h w c Hs))).
  destruct bn, act as [a|]; unfold bind, call, ret; simpl;
    rewrite <- ?app_assoc; simpl; rewrite ?app_nil_r; reflexivity.
Qed.

Local Abbreviation relu := (Some "relu"%string).

(** The body of the loop over the residual blocks of a stack. *)
Local Abbreviation unit_body stack num_filters :=
  (fun (res_block : nat) (x : shape) =>
     let strides := 1%nat in
     let strides :=
       if ((0 <? stack) && (res_block =? 0))%nat then 2%nat else strides in
     bind (resnet_layer x num_filters 3 strides relu true true) (fun y =>
     bind (resnet_layer y num_filters 3 1 None true true) (fun y =>
     bind (if ((0 <? stack) && (res_block =? 0))%nat then
             resnet_layer x num_filters 1 strides None false true
           else ret x) (fun x =>
     bind (add x y) (fun x =>
     bind (call (Activation "relu"%string) x) (fun x => ret x)))))).

(** The layers of a block that keeps the shape, and of the first block of
    a later stack, which halves the resolution. *)
Local Abbreviation identity_unit nf :=
  [Conv2D nf (3, 3)%nat (1, 1)%nat Same true; BatchNormalization;
   Activation "relu"%string;
   Conv2D nf (3, 3)%nat (1, 1)%nat Same true; BatchNormalization;
   Add; Activation "relu"%string].

Local Abbreviation downsampling_unit nf :=
  [Conv2D nf (3, 3)%nat (2, 2)%nat Same true; BatchNormalization;
   Activation "relu"%string;
   Conv2D nf (3, 3)%nat (1, 1)%nat Same true; BatchNormalization;
   Conv2D nf (1, 1)%nat (2, 2)%nat Same true;
   Add; Activation "relu"%string].

Lemma identity_unit_run (stack rb h w nf : nat) (log : list layer) :
  ((0 <? stack) && (rb =? 0))%nat = false ->
  unit_body stack nf rb [h; w; nf] log =
  Some ([h; w; nf], log ++ identity_unit nf).
Proof.
  intros Hc. cbv beta zeta. rewrite Hc.
  rewrite (bind_returns _ _ _ _ _
             (resnet_layer_run h w nf nf 3 1 relu true log ltac:(lia))).
  rewrite !cdiv_1.
  rewrite (bind_returns _ _ _ _ _
             (resnet_layer_run h w nf nf 3 1 None true _ ltac:(lia))).
  rewrite !cdiv_1.
  unfold bind at 1. unfold ret at 1.
  rewrite (bind_returns _ _ _ _ _ (add_same _ _)).
  unfold bind, call, ret. simpl.
  rewrite <- !app_assoc. reflexivity.
Qed.

Lemma downsampling_unit_run (stack h w c nf : nat) (log : list layer) :
  (0 < stack)%nat ->
  unit_body stack nf 0%nat [h; w; c] log =
  Some ([cdiv h 2; cdiv w 2; nf], log ++ downsampling_unit nf).
Proof.
  intros Hs. cbv beta zeta.
  replace ((0 <? stack) && (0 =? 0))%nat with true
    by (symmetry; apply andb_true_iff; split;
        [apply Nat.ltb_lt; exact Hs|reflexivity]).
  rewrite (bind_returns _ _ _ _ _
             (resnet_layer_run h w c nf 3 2 relu true log ltac:(lia))).
  rewrite (bind_returns _ _ _ _ _
             (resnet_layer_run _ _ nf nf 3 1 None true _ ltac:(lia))).
  rewrite !cdiv_1.
  rewrite (bind_returns _ _ _ _ _
             (resnet_layer_run h w c nf 1 2 None false _ ltac:(lia))).
  rewrite (bind_returns _ _ _ _ _ (add_same _ _)).
  unfold bind, call, ret. simpl.
  rewrite <- !app_assoc. reflexivity.
Qed.

Lemma identity_units_run (stack h w nf : nat) (items : list nat) :
  forall log,
  (forall rb, In rb items -> ((0 <? stack) && (rb =? 0))%nat = false) ->
  for_each items (unit_body stack nf) [h; w; nf] log =
  Some ([h; w; nf],
        log ++ concat (repeat (identity_unit nf) (length items))).
Proof.
  induction items as [|rb items IH]; intros log Hc.
  - simpl. unfold ret. rewrite app_nil_r. reflexivity.
  - cbn [for_each].
    rewrite (bind_returns _ _ _ _ _
               (identity_unit_run stack rb h w nf log
                  (Hc rb (or_introl eq_refl)))).
    rewrite IH by (intros rb' Hin; apply Hc; right; exact Hin).
    cbn [length repeat concat]. rewrite <- !app_assoc. reflexivity.
Qed.

Lemma count_repeat (p : layer -> bool) (l : list layer) (k : nat) :
  count p (concat (repeat l k)) = (k * count p l)%nat.
Proof.
  induction k as [|k IH]; simpl; [reflexivity|].
  rewrite count_app, IH. reflexivity.
Qed.

(** One stack of [n] blocks, [n >= 1]. *)
Lemma first_stack_run (n h w : nat) (log : list layer) :
  for_each (seq 0 n) (unit_body 0%nat 16%nat) [h; w; 16]%nat log =
  Some ([h; w; 16]%nat, log ++ concat (repeat (identity_unit 16%nat) n)).
Proof.
  rewrite (identity_units_run 0 h w 16 (seq 0 n) log).
  - rewrite length_seq. reflexivity.
  - intros rb _. reflexivity.
Qed.

Lemma later_stack_run (stack n h w c nf : nat) (log : list layer) :
  (0 < stack)%nat -> (1 <= n)%nat ->
  for_each (seq 0 n) (unit_body stack nf) [h; w; c] log =
  Some ([cdiv h 2; cdiv w 2; nf],
        log ++ downsampling_unit nf
            ++ concat (repeat (identity_unit nf) (n - 1))).
Proof.
  intros Hs Hn. destruct n as [|n]; [lia|].
  cbn [seq for_each].
  rewrite (bind_returns _ _ _ _ _ (downsampling_unit_run stack h w c nf log Hs)).
  rewrite (identity_units_run stack _ _ nf (seq 1 n)).
  - rewrite length_seq. replace (S n - 1)%nat with n by lia.
    rewrite <- !app_assoc. reflexivity.
  - intros rb Hin. apply in_seq in Hin.
    destruct (Nat.eqb_spec rb 0); [lia|]. apply andb_false_r.
Qed.

(** The classifier on top of the last stack. *)
Lemma classifier_run (a b c nc : nat) (log : list layer) :
  (8 <= a)%nat -> (8 <= b)%nat ->
  bind (call (AveragePooling2D 8) [a; b; c]) (fun x =>
  bind (call Flatten x) (fun y =>
  bind (call (Dense nc true (Some "softmax"%string)) y) (fun outputs =>
  ret outputs))) log =
  Some ([nc],
        log ++ [AveragePooling2D 8; Flatten;
                Dense nc true (Some "softmax"%string)]).
Proof.
  intros Ha Hb. unfold bind at 1. unfold call at 1.
  cbn [output_shape]. unfold window.
  change (8 =? 0)%nat with false. cbv iota.
  destruct (Nat.ltb_spec a 8) as [Ha'|_]; [lia|].
  destruct (Nat.ltb_spec b 8) as [Hb'|_]; [lia|].
  unfold bind, call, ret. cbn [output_shape rev app].
  rewrite <- !app_assoc. reflexivity.
Qed.

Lemma cdiv_twice_bound (h : nat) : (29 <= h)%nat -> (8 <= cdiv (cdiv h 2) 2)%nat.
Proof.
  intros Hh. unfold cdiv.
  assert (H1 : (15 <= (h + 2 - 1) / 2)%nat).
  { apply Nat.div_le_lower_bound; lia. }
  apply Nat.div_le_lower_bound; lia.
Qed.

(** The layers of [resnet_v20] with [n] blocks in a stack, in the order of
    the calls. *)
Local Abbreviation stem :=
  [Conv2D 16 (3, 3)%nat (1, 1)%nat Same true; BatchNormalization;
   Activation "relu"%string].

Local Abbreviation classifier nc :=
  [AveragePooling2D 8; Flatten; Dense nc true (Some "softmax"%string)].

Local Abbreviation resnet_layers n nc :=
  (stem ++ concat (repeat (identity_unit 16%nat) n)
        ++ downsampling_unit 32%nat
        ++ concat (repeat (identity_unit 32%nat) (n - 1))
        ++ downsampling_unit 64%nat
        ++ concat (repeat (identity_unit 64%nat) (n - 1))
        ++ classifier nc).

Lemma resnet_v20_run (h w c nc : nat) (depth : Z) (log : list layer) :
  ((depth - 2) mod 6 = 0)%Z ->
  (1 <= Z.to_nat (Z.quot (depth - 2) 6))%nat ->
  (29 <= h)%nat -> (29 <= w)%nat ->
  resnet_v20 [h; w; c] depth nc log =
  Some ([nc], log ++ resnet_layers (Z.to_nat (Z.quot (depth - 2) 6)) nc).
Proof.
  intros Hd Hn Hh Hw. unfold resnet_v20.
  rewrite Hd. change (negb (0 =? 0)%Z) with false. cbv iota zeta.
  set (n := Z.to_nat (Z.quot (depth - 2) 6)) in *.
  rewrite (bind_returns _ _ _ _ _
             (resnet_layer_run h w c 16 3 1 relu true log ltac:(lia))).
  rewrite !cdiv_1.
  change (seq 0 3) with [0; 1; 2]%nat. cbn [for_each].
  unfold bind at 1. unfold bind at 1. unfold bind at 1.
  rewrite (first_stack_run n h w). unfold ret at 1.
  unfold bind at 1. unfold bind at 1.
  rewrite (later_stack_run 1 n h w 16 (16 * 2) _ ltac:(lia) Hn).
  unfold ret at 1.
  unfold bind at 1. unfold bind at 1.
  rewrite (later_stack_run 2 n _ _ (16 * 2) (16 * 2 * 2) _ ltac:(lia) Hn).
  unfold ret at 1. unfold ret at 1.
  rewrite (classifier_run _ _ _ nc _ (cdiv_twice_bound h Hh)
             (cdiv_twice_bound w Hw)).
  change (16 * 2 * 2)%nat with 64%nat. change (16 * 2)%nat with 32%nat.
  rewrite <- !app_assoc. reflexivity.
Qed.

Lemma resnet_v20_run_no_block (h w c nc : nat) (depth : Z)
    (log : list layer) :
  ((depth - 2) mod 6 = 0)%Z ->
  Z.to_nat (Z.quot (depth - 2) 6) = 0%nat ->
  (8 <= h)%nat -> (8 <= w)%nat ->
  resnet_v20 [h; w; c] depth nc log =
  Some ([nc], log ++ stem ++ classifier nc).
Proof.
  intros Hd Hn Hh Hw. unfold resnet_v20.
  rewrite Hd, Hn. change (negb (0 =? 0)%Z) with false. cbv iota zeta.
  rewrite (bind_returns _ _ _ _ _
             (resnet_layer_run h w c 16 3 1 relu true log ltac:(lia))).
  rewrite !cdiv_1.
  change (seq 0 3) with [0; 1; 2]%nat. change (seq 0 0) with (@nil nat).
  cbn [for_each]. unfold bind at 1. unfold bind at 1. unfold bind at 1.
  unfold ret at 1. unfold ret at 1.
  unfold bind at 1. unfold bind at 1. unfold ret at 1. unfold ret at 1.
  unfold bind at 1. unfold bind at 1. unfold ret at 1. unfold ret at 1.
  unfold ret at 1.
  rewrite (classifier_run _ _ _ nc _ Hh Hw).
  rewrite <- !app_assoc. reflexivity.
Qed.





End ResNetExtra.

Module NetworksExtra.

Import Stdlib.Strings.String.
Import Stdlib.Lists.List.
Import ListNotations.
Import Keras Networks KerasFacts.

Lemma get_discriminator_model_run (h w c : nat) (log : list layer) :
  get_discriminator_model [h; w; c] log =
  Some ([1%nat],
        log ++ [ZeroPadding2D (2, 2)%nat;
                Conv2D 64 (5, 5)%nat (2, 2)%nat Same true; LeakyReLU 0.2;
                Conv2D 128 (5, 5)%nat (2, 2)%nat Same true; LeakyReLU 0.2;
                Dropout 0.3;
                Conv2D 256 (5, 5)%nat (2, 2)%nat Same true; LeakyReLU 0.2;
                Dropout 0.3;
                Conv2D 512 (5, 5)%nat (2, 2)%nat Same true; LeakyReLU 0.2;
                Flatten; Dropout 0.2; Dense 1 true None]).
Proof.
  unfold get_discriminator_model, conv_block, bind, call, ret.
  cbn [output_shape window Nat.eqb rev app].
  rewrite <- !app_assoc. reflexivity.
Qed.

Lemma get_generator_model_run (noise_dim : nat) (log : list layer) :
  get_generator_model noise_dim log =
  Some (IMG_SHAPE,
        log ++ [Dense (4 * 4 * 256) false None; BatchNormalization;
                LeakyReLU 0.2; Reshape [4; 4; 256]%nat;
                UpSampling2D (2, 2)%nat;
                Conv2D 128 (3, 3)%nat (1, 1)%nat Same false;
                BatchNormalization; LeakyReLU 0.2;
                UpSampling2D (2, 2)%nat;
                Conv2D 64 (3, 3)%nat (1, 1)%nat Same false;
                BatchNormalization; LeakyReLU 0.2;
                UpSampling2D (2, 2)%nat;
                Conv2D 1 (3, 3)%nat (1, 1)%nat Same false;
                BatchNormalization; Activation "tanh"%string;
                Cropping2D (2, 2)%nat]).
Proof.
  unfold get_generator_model, upsample_block, bind, call, ret.
  cbn [output_shape rev app].
  replace (product [(4 * 4 * 256)%nat] =? product [4; 4; 256])%nat
    with true by (symmetry; apply Nat.eqb_eq; unfold product;
                  cbn [fold_right]; lia).
  cbn [output_shape window Nat.eqb].
  rewrite !cdiv_1.
  change (4 * 2 * 2 * 2)%nat with 32%nat.
  change ((2 * 2 <? 32) && (2 * 2 <? 32))%nat with true. cbv iota.
  rewrite <- !app_assoc. reflexivity.
Qed.

(** X18 ([get_discriminator_model]).  For every image shape with at least
    one row, column and channel the critic returns one score per image;
    it has four 5 by 5 convolutions, three dropout layers, one dense
    layer and no batch normalization. *)
Theorem get_discriminator_model_score (h w c : nat) (log : list layer) :
  (1 <= h)%nat -> (1 <= w)%nat -> (1 <= c)%nat ->
  exists layers,
    get_discriminator_model [h; w; c] log = Some ([1%nat], log ++ layers) /\
    count is_batch_normalization layers = 0%nat /\
    count (is_conv 5) layers = 4%nat /\
    count is_dropout layers = 3%nat /\
    count is_dense layers = 1%nat.
Proof.
  intros _ _ _. eexists. split; [apply get_discriminator_model_run|].
  repeat split; reflexivity.
Qed.

Lemma get_discriminator_model_score_witness :
  exists layers,
    get_discriminator_model IMG_SHAPE [] = Some ([1%nat], layers) /\
    count is_batch_normalization layers = 0%nat /\
    count (is_conv 5) layers = 4%nat /\
    count is_dropout layers = 3%nat /\
    count is_dense layers = 1%nat.
Proof.
  exact (get_discriminator_model_score 28 28 1 [] ltac:(lia) ltac:(lia)
           ltac:(lia)).
Defined.

(** X19 ([get_generator_model]).  Whatever the latent dimension, the
    generator returns images of shape [IMG_SHAPE]; it has three 3 by 3
    convolutions, a batch normalization after the dense layer and after
    each convolution, and no dropout. *)
Theorem get_generator_model_image (noise_dim : nat) (log : list layer) :
  (1 <= noise_dim)%nat ->
  exists layers,
    get_generator_model noise_dim log = Some (IMG_SHAPE, log ++ layers) /\
    count (is_conv 3) layers = 3%nat /\
    count is_batch_normalization layers = 4%nat /\
    count is_dropout layers = 0%nat.
Proof.
  intros _. eexists. split; [apply get_generator_model_run|].
  repeat split; reflexivity.
Qed.

Lemma get_generator_model_image_witness :
  exists layers,
    get_generator_model noise_dim [] = Some (IMG_SHAPE, layers) /\
    count (is_conv 3) layers = 3%nat /\
    count is_batch_normalization layers = 4%nat /\
    count is_dropout layers = 0%nat.
Proof.
  exact (get_generator_model_image noise_dim [] ltac:(unfold noise_dim; lia)).
Defined.

End NetworksExtra.
